(** * Song-recognizer: landmark hashing, index construction and offset voting

    A shallow embedding of [song_recognizer.py] and of its copy in [app.py].

    Conventions of the embedding
    - Python integers are [Z]; list positions are [nat].
    - A Python [dict] is an insertion-ordered association list with unique
      keys: assigning to a present key replaces the value in place, assigning
      to an absent key appends the binding at the end.  Iteration
      ([.items()]) follows that order.
    - A landmark [[time_idx, frequency]] is a pair [Z * Q].  The frequency is
      a float in the source; it is kept as an exact rational, and
      [int(freq / 23000 * 2 ** 10)] is the truncation toward zero of the exact
      quotient.
    - A song identifier is [option Z]: [None] is Python's [None], the value
      [create_hashes] receives at query time.
    - Exceptions are the left summand of [result]. *)

From Stdlib Require Import ZArith QArith Lia Permutation Sorted Ascii.
From Stdlib Require String.
Import String.StringSyntax.
From stdpp Require Import base decidable option list.

Local Open Scope Z_scope.

(** ** Python dictionaries *)

Section Dict.
Context {K V : Type} `{EqDecision K}.

Definition dict := list (K * V).

Fixpoint dict_get (k : K) (d : list (K * V)) : option V :=
  match d with
  | [] => None
  | (k', v) :: d' => if decide (k = k') then Some v else dict_get k d'
  end.

(** [k in d] *)
Definition dict_mem (k : K) (d : list (K * V)) : bool :=
  match dict_get k d with Some _ => true | None => false end.

(** [d[k] = v] *)
Fixpoint dict_set (k : K) (v : V) (d : list (K * V)) : list (K * V) :=
  match d with
  | [] => [(k, v)]
  | (k', v') :: d' =>
      if decide (k = k') then (k', v) :: d' else (k', v') :: dict_set k v d'
  end.

Definition dict_keys (d : list (K * V)) : list K := map fst d.

Definition dict_items (d : list (K * V)) : list (K * V) := d.
End Dict.

Arguments dict : clear implicits.

(** ** Landmarks and hashes ([create_hashes]) *)

Definition Landmark : Type := Z * Q.
Definition SongId : Type := option Z.
Definition HashEntry : Type := Z * SongId.

Definition upper_frequency : Z := 23000.
Definition frequency_bits : Z := 10.

(** [int(x)] on a float, the float being an exact rational here *)
Definition int_of_Q (x : Q) : Z := Z.quot (Qnum x) (Z.pos (Qden x)).

(** [freq / upper_frequency * (2 ** frequency_bits)] *)
Definition freq_conv (freq : Q) : Q :=
  (freq / inject_Z upper_frequency * inject_Z (2 ^ frequency_bits))%Q.

(** [int(freq_conv) | (int(other_freq_conv) << 10) | (int(time_diff) << 20)] *)
Definition hash_val (time : Z) (freq : Q) (other_time : Z) (other_freq : Q) : Z :=
  let time_diff := other_time - time in
  Z.lor (Z.lor (int_of_Q (freq_conv freq))
               (Z.shiftl (int_of_Q (freq_conv other_freq)) 10))
        (Z.shiftl time_diff 20).

(** [enumerate(l)] *)
Definition enumerate {A} (l : list A) : list (nat * A) :=
  combine (seq 0 (length l)) l.

(** [l[lo : hi]] for non-negative bounds *)
Definition slice {A} (l : list A) (lo hi : nat) : list A :=
  take (hi - lo) (drop lo l).

(** The [continue] test of the inner loop *)
Definition skipped (time_diff : Z) : bool :=
  (time_diff <=? 1) || (time_diff >? 10).

(** Body of the inner loop for one anchor and one candidate target *)
Definition hash_pair (song_id : SongId) (anchor : Landmark)
    (hashes : dict Z HashEntry) (other : Landmark) : dict Z HashEntry :=
  let '(time, freq) := anchor in
  let '(other_time, other_freq) := other in
  let time_diff := other_time - time in
  if skipped time_diff then hashes
  else dict_set (hash_val time freq other_time other_freq) (time, song_id) hashes.

Definition create_hashes (constellation_map : list Landmark) (song_id : SongId)
    : dict Z HashEntry :=
  fold_left
    (fun hashes '(idx, anchor) =>
       fold_left (hash_pair song_id anchor)
                 (slice constellation_map idx (idx + 100)) hashes)
    (enumerate constellation_map) [].

(** The (anchor, target) pairs the two loops visit, in order, and those that
    reach the assignment [hashes[hash_val] = (time, song_id)]. *)
Definition candidate_pairs (cm : list Landmark) : list (Landmark * Landmark) :=
  flat_map (fun '(idx, anchor) => map (pair anchor) (slice cm idx (idx + 100)))
           (enumerate cm).

Definition time_diff_of (p : Landmark * Landmark) : Z := fst (snd p) - fst (fst p).

Definition emitted_pairs (cm : list Landmark) : list (Landmark * Landmark) :=
  List.filter (fun p => negb (skipped (time_diff_of p))) (candidate_pairs cm).

Definition pair_hash (p : Landmark * Landmark) : Z :=
  hash_val (fst (fst p)) (snd (fst p)) (fst (snd p)) (snd (snd p)).

Definition write_pair (song_id : SongId) (hashes : dict Z HashEntry)
    (p : Landmark * Landmark) : dict Z HashEntry :=
  dict_set (pair_hash p) (fst (fst p), song_id) hashes.

(** ** Concrete constellation maps used by the examples *)

(** A landmark at 24 kHz, the Nyquist frequency of a 48 kHz recording. *)
Definition cm_above_band : list Landmark := [(0, inject_Z 24000); (2, inject_Z 0)].

Definition cm_far_above_band : list Landmark :=
  [(0, inject_Z 0); (2, inject_Z 23552000)].

(** 101 landmarks: the first in window 0, the last in window 2, the 99 in
    between in window 1. *)
Definition cm_101 : list Landmark :=
  (0, inject_Z 0) :: repeat (1, inject_Z 0) 99 ++ [(2, inject_Z 0)].

Definition cm_small : list Landmark :=
  [(0, inject_Z 440); (1, inject_Z 880); (2, inject_Z 2000); (3, inject_Z 440)].

(** ** The fingerprint index (build loop of the main script) *)

(** The idiom
    [if k not in d: d[k] = init] followed by an in-place update
    [d[k] = f(d[k])] of the value now present. *)
Definition dict_upsert {K V} `{EqDecision K} (k : K) (init : V) (f : V -> V)
    (d : dict K V) : dict K V :=
  let d1 := if dict_mem k d then d else dict_set k init d in
  match dict_get k d1 with
  | Some v => dict_set k (f v) d1
  | None => d1
  end.

(** [if k not in d: d[k] = []] followed by [d[k].append(x)] *)
Definition dict_append {K A} `{EqDecision K} (k : K) (x : A)
    (d : dict K (list A)) : dict K (list A) :=
  dict_upsert k [] (fun l => l ++ [x]) d.

Definition Database : Type := dict Z (list HashEntry).

(** [for hash_val, time_idx_tuple in hashes.items(): ...] *)
Definition add_to_index (database : Database) (hashes : dict Z HashEntry) : Database :=
  fold_left (fun db '(hash_val, time_idx_tuple) => dict_append hash_val time_idx_tuple db)
            (dict_items hashes) database.

(** The loop over [enumerate(sorted(song_files))].  The corpus is given by
    the constellation map of each file, in that order. *)
Definition build_index (corpus : list (list Landmark)) : Database :=
  fold_left (fun db '(idx, constellation_map) =>
               add_to_index db (create_hashes constellation_map (Some (Z.of_nat idx))))
            (enumerate corpus) [].

(** ** Scoring ([score_songs]) *)

(** [(hash_val, sample_time, ref_time)] *)
Definition MatchTriple : Type := Z * Z * Z.

Definition triple_delta (m : MatchTriple) : Z := snd m - snd (fst m).

(** First loop: group the colliding reference occurrences by song. *)
Definition collect_matches (database : Database) (hashes : dict Z HashEntry)
    : dict SongId (list MatchTriple) :=
  fold_left
    (fun song_matches '(hash_val, (sample_time, _)) =>
       match dict_get hash_val database with
       | Some match_list =>
           fold_left
             (fun song_matches '(ref_time, song_index) =>
                dict_append song_index (hash_val, sample_time, ref_time) song_matches)
             match_list song_matches
       | None => song_matches
       end)
    (dict_items hashes) [].

(** [if delta not in offset_scores: offset_scores[delta] = 0]
    [offset_scores[delta] += 1] *)
Definition count_offset (offset_scores : dict Z Z) (m : MatchTriple) : dict Z Z :=
  let delta := triple_delta m in
  dict_upsert delta 0 (fun c => c + 1) offset_scores.

Definition count_offsets (matches : list MatchTriple) : dict Z Z :=
  fold_left count_offset matches [].

(** [max_score = (0, 0)] and the loop with the strict test [score > max_score[1]] *)
Definition max_score_from (init : Z * Z) (offset_scores : dict Z Z) : Z * Z :=
  fold_left (fun max_score '(offset, score) =>
               if score >? snd max_score then (offset, score) else max_score)
            (dict_items offset_scores) init.

Definition max_score (offset_scores : dict Z Z) : Z * Z :=
  max_score_from (0, 0) offset_scores.

(** Second loop: one [(offset, score)] per song. *)
Definition song_scores (song_matches : dict SongId (list MatchTriple))
    : dict SongId (Z * Z) :=
  fold_left (fun scores '(song_index, matches) =>
               dict_set song_index (max_score (count_offsets matches)) scores)
            (dict_items song_matches) [].

(** [sorted(l, key=key, reverse=True)]: the stable sort by decreasing key;
    elements with equal keys keep their original order. *)
Fixpoint insert_desc {A} (key : A -> Z) (x : A) (l : list A) : list A :=
  match l with
  | [] => [x]
  | y :: l' => if key y >? key x then y :: insert_desc key x l' else x :: y :: l'
  end.

Definition sorted_desc {A} (key : A -> Z) (l : list A) : list A :=
  fold_right (insert_desc key) [] l.

Definition MatchResult : Type := SongId * (Z * Z).

Definition result_score (r : MatchResult) : Z := snd (snd r).

(** [score_songs]; the module-level global [database] is its first argument. *)
Definition score_songs (database : Database) (hashes : dict Z HashEntry)
    : list MatchResult :=
  sorted_desc result_score (dict_items (song_scores (collect_matches database hashes))).

(** ** Reference notions used to state the scoring properties *)

(** The matched [(hash, sample_time, ref_time)] triples of a song: for every
    query hash present in the index, every reference occurrence of that song. *)
Definition matched_triples (database : Database) (hashes : dict Z HashEntry)
    (song : SongId) : list MatchTriple :=
  flat_map
    (fun '(h, (sample_time, _)) =>
       match dict_get h database with
       | Some match_list =>
           flat_map (fun '(ref_time, s) =>
                       if decide (s = song) then [(h, sample_time, ref_time)] else [])
                    match_list
       | None => []
       end)
    hashes.

(** Number of triples whose offset [ref_time - sample_time] is [d]. *)
Definition offset_count (d : Z) (matches : list MatchTriple) : Z :=
  Z.of_nat (length (List.filter (fun m => triple_delta m =? d) matches)).

(** Number of query hashes that are keys of the index. *)
Definition common_hashes (database : Database) (hashes : dict Z HashEntry) : Z :=
  Z.of_nat (length (List.filter (fun he => dict_mem (fst he) database) hashes)).

Definition db_two_songs : Database :=
  [(100, [(5, Some 0); (9, Some 1)]); (200, [(6, Some 0)]); (300, [(1, Some 1)])].

Definition query_two_songs : dict Z HashEntry :=
  [(100, (2, None)); (200, (3, None)); (300, (0, None)); (400, (7, None))].

(** ** Auxiliary notions for the loop invariants *)

(** A bucket [o] after appending the elements [l] (nothing is created for an
    empty [l]). *)
Definition extend {A} (o : option (list A)) (l : list A) : option (list A) :=
  match l with
  | [] => o
  | _ => Some (default [] o ++ l)
  end.

(** A counter [o] after [n] increments. *)
Definition add_count (o : option Z) (n : Z) : option Z :=
  if n =? 0 then o else Some (default 0 o + n).

Definition db_unrelated : Database := [(999, [(1, Some 0)])].

(** ** Reference notions used to state the index properties *)

(** The entries a hash mapping holds for the key [h], in iteration order. *)
Definition occurrences (h : Z) (hashes : dict Z HashEntry) : list HashEntry :=
  flat_map (fun '(k, e) => if decide (k = h) then [e] else []) hashes.

(** Total number of reference occurrences stored in the index. *)
Definition index_size (database : Database) : nat :=
  length (concat (map snd database)).

(** The hash mapping of the recording at position [idx] of the corpus. *)
Definition song_hashes (p : nat * list Landmark) : dict Z HashEntry :=
  create_hashes (snd p) (Some (Z.of_nat (fst p))).

Definition cm_other : list Landmark :=
  [(0, inject_Z 440); (2, inject_Z 2000); (5, inject_Z 7000)].

Definition corpus_small : list (list Landmark) := [cm_small; cm_other].

(** The index built from one recording alone, under the given song id. *)
Definition index_of_recording (cm : list Landmark) (song_id : Z) : Database :=
  add_to_index [] (create_hashes cm (Some song_id)).

(** Landmarks in two adjacent windows only: no pair has a time delta of 2 or
    more. *)
Definition cm_two_windows : list Landmark := [(0, inject_Z 440); (1, inject_Z 880)].

(** ** Exceptions *)

Inductive exn : Type :=
  | ZeroDivisionError
  | ValueError
  | IndexError.

Definition result (A : Type) : Type := (exn + A)%type.

Definition raise {A} (e : exn) : result A := inl e.
Definition ret {A} (x : A) : result A := inr x.

Definition bind {A B} (m : result A) (k : A -> result B) : result B :=
  match m with
  | inl e => inl e
  | inr x => k x
  end.

Notation "'let*' x ':=' m 'in' k" := (bind m (fun x => k))
  (at level 10, x name, m at level 100, k at level 200).

Fixpoint mapM {A B} (f : A -> result B) (l : list A) : result (list B) :=
  match l with
  | [] => ret []
  | x :: l' => let* y := f x in let* ys := mapM f l' in ret (y :: ys)
  end.

(** [a[i]] *)
Definition index {A} (a : list A) (i : nat) : result A :=
  match a !! i with
  | Some x => ret x
  | None => raise IndexError
  end.

(** [a[start:]], the start possibly negative (counted from the end) *)
Definition slice_from {A} (start : Z) (a : list A) : list A :=
  if start <? 0
  then drop (Z.to_nat (Z.max 0 (Z.of_nat (length a) + start))) a
  else drop (Z.to_nat start) a.

(** ** The spectral peak extractor ([create_constellation_map]) *)

Definition sample_window_duration : Q := 1 # 2.  (* 0.5 seconds *)
Definition num_peaks : nat := 15.

(** [int(sample_window_duration * sample_rate)], then
    [sample_window_size += sample_window_size % 2].  [int] truncates toward
    zero; [%] is Python's floored remainder, hence [Z.modulo]. *)
Definition sample_window_size (sample_rate : Z) : Z :=
  let w := int_of_Q (sample_window_duration * inject_Z sample_rate) in
  w + w mod 2.

(** [sample_window_size - audio.size % sample_window_size]; the remainder by
    zero raises. *)
Definition pad_amount (size window : Z) : result Z :=
  if window =? 0 then raise ZeroDivisionError else ret (window - size mod window).

(** Length of the padded buffer, on sizes. *)
Definition padded_length (size window : Z) : Z := size + (window - size mod window).

(** Framing of [scipy.signal.stft(x, fs, nperseg=n, nfft=n)] with the
    library defaults the call leaves in place: [noverlap=None], that is
    [nperseg // 2]; [boundary='zeros'], which extends the input by
    [nperseg // 2] zeros on both sides; [padded=True], which zero-pads the
    end up to a whole number of segments. *)
Definition stft_noverlap (nperseg : Z) : Z := nperseg / 2.
Definition stft_hop (nperseg : Z) : Z := nperseg - stft_noverlap nperseg.

Definition stft_extended_length (n nperseg : Z) : Z :=
  let n1 := n + 2 * (nperseg / 2) in
  n1 + ((- (n1 - nperseg)) mod stft_hop nperseg) mod nperseg.

Definition stft_frame_count (n nperseg : Z) : Z :=
  (stft_extended_length n nperseg - stft_noverlap nperseg) / stft_hop nperseg.

(** [frequencies[k]] of the one-sided transform: [k * fs / nfft] *)
Definition bin_frequency (sample_rate nfft : Z) (k : nat) : Q :=
  (inject_Z (Z.of_nat k * sample_rate) / inject_Z nfft)%Q.

Definition stft_frequencies (sample_rate nfft : Z) : list Q :=
  map (bin_frequency sample_rate nfft) (seq 0 (Z.to_nat (nfft / 2) + 1)).

Section Extractor.
(** Samples, spectrum magnitudes and peak prominences are floating-point
    data; the numeric kernels are parameters of the model. *)
Context {Sample Mag Prom : Type}.
(** the zero [np.pad] and the transform's boundary extension append *)
Variable zero : Sample.
(** [np.abs] of the transform of one windowed segment *)
Variable segment_spectrum : list Sample -> list Mag.
(** [signal.find_peaks(spectrum, prominence=0, distance=200)]: the peak
    positions and [properties["prominences"]] *)
Variable find_peaks : list Mag -> list nat * list Prom.
(** [np.argpartition(a, kth)] *)
Variable argpartition : list Prom -> Z -> result (list nat).

(** [np.pad(audio, (0, padding))]; a negative pad width raises. *)
Definition np_pad (audio : list Sample) (padding : Z) : result (list Sample) :=
  if padding <? 0 then raise ValueError
  else ret (audio ++ repeat zero (Z.to_nat padding)).

Definition pad_audio (audio : list Sample) (sample_rate : Z) : result (list Sample) :=
  let window := sample_window_size sample_rate in
  let* padding := pad_amount (Z.of_nat (length audio)) window in
  np_pad audio padding.

(** The segments whose spectra are the columns of [stft] (rows of [stft.T]). *)
Definition stft_segments (x : list Sample) (nperseg : Z) : list (list Sample) :=
  let n := Z.of_nat (length x) in
  let half := Z.to_nat (nperseg / 2) in
  let extended :=
    repeat zero half ++ x ++ repeat zero half
    ++ repeat zero (Z.to_nat (stft_extended_length n nperseg - (n + 2 * (nperseg / 2)))) in
  map (fun i => take (Z.to_nat nperseg)
                     (drop (i * Z.to_nat (stft_hop nperseg)) extended))
      (seq 0 (Z.to_nat (stft_frame_count n nperseg))).

(** Body of the loop over [enumerate(stft.T)] *)
Definition window_landmarks (frequencies : list Q) (time_idx : nat)
    (window : list Sample) : result (list Landmark) :=
  let spectrum := segment_spectrum window in
  let '(peaks, prominences) := find_peaks spectrum in
  let n_peaks := Nat.min num_peaks (length peaks) in
  let* order := argpartition prominences (- Z.of_nat n_peaks) in
  let prominent_peaks := slice_from (- Z.of_nat n_peaks) order in
  let* selected := mapM (index peaks) prominent_peaks in
  let* found := mapM (index frequencies) selected in
  ret (map (fun frequency => (Z.of_nat time_idx, frequency)) found).

Definition collect_landmarks (frequencies : list Q)
    (windows : list (nat * list Sample)) : result (list Landmark) :=
  fold_left (fun acc '(time_idx, window) =>
               let* constellation_map := acc in
               let* landmarks := window_landmarks frequencies time_idx window in
               ret (constellation_map ++ landmarks))
            windows (ret []).

Definition create_constellation_map (audio : list Sample) (sample_rate : Z)
    : result (list Landmark) :=
  let window := sample_window_size sample_rate in
  let* padded_audio := pad_audio audio sample_rate in
  let frequencies := stft_frequencies sample_rate window in
  collect_landmarks frequencies (enumerate (stft_segments padded_audio window)).
End Extractor.

(** ** A toy instance of the numeric kernels, used to run the extractor *)

(** Samples and magnitudes are integers; the spectrum of a segment is its
    first 20 samples; every bin is reported as a peak with its magnitude as
    prominence; the partition order is the identity. *)
Definition toy_spectrum (segment : list Z) : list Z := take 20 segment.
Definition toy_find_peaks (spectrum : list Z) : list nat * list Z :=
  (seq 0 (length spectrum), spectrum).
Definition toy_argpartition (a : list Z) (kth : Z) : result (list nat) :=
  ret (seq 0 (length a)).

Definition toy_extract (audio : list Z) (sample_rate : Z) : result (list Landmark) :=
  create_constellation_map 0 toy_spectrum toy_find_peaks toy_argpartition
                           audio sample_rate.

(** ** The copy of the core functions in [app.py] *)

Module App.

Section Extractor.
Context {Sample Mag Prom : Type}.
Variable zero : Sample.
Variable segment_spectrum : list Sample -> list Mag.
Variable find_peaks : list Mag -> list nat * list Prom.
Variable argpartition : list Prom -> Z -> result (list nat).

Definition create_constellation_map (audio : list Sample) (sample_rate : Z)
  : result (list Landmark) :=
let sample_window_duration := (1 # 2)%Q in
let sample_window_size := int_of_Q (sample_window_duration * inject_Z sample_rate) in
let sample_window_size := sample_window_size + sample_window_size mod 2 in
let num_peaks := 15%nat in
let* padding :=
  (if sample_window_size =? 0 then raise ZeroDivisionError
   else ret (sample_window_size - Z.of_nat (length audio) mod sample_window_size)) in
let* padded_audio := np_pad zero audio padding in
let frequencies := stft_frequencies sample_rate sample_window_size in
let stft_T := stft_segments zero padded_audio sample_window_size in
fold_left
  (fun acc '(time_idx, window) =>
     let* constellation_map := acc in
     let spectrum := segment_spectrum window in
     let '(peaks, prominences) := find_peaks spectrum in
     let n_peaks := Nat.min num_peaks (length peaks) in
     let* order := argpartition prominences (- Z.of_nat n_peaks) in
     let prominent_peaks := slice_from (- Z.of_nat n_peaks) order in
     let* selected := mapM (index peaks) prominent_peaks in
     let* found := mapM (index frequencies) selected in
     ret (constellation_map
          ++ map (fun frequency => (Z.of_nat time_idx, frequency)) found))
  (enumerate stft_T) (ret []).
End Extractor.

Definition create_hashes (constellation_map : list Landmark) (song_id : SongId)
    : dict Z HashEntry :=
  let upper_frequency := 23000 in
  let frequency_bits := 10 in
  fold_left
    (fun hashes '(idx, (time, freq)) =>
       fold_left
         (fun hashes '(other_time, other_freq) =>
            let time_diff := other_time - time in
            if (time_diff <=? 1) || (time_diff >? 10) then hashes
            else
              let freq_conv :=
                (freq / inject_Z upper_frequency * inject_Z (2 ^ frequency_bits))%Q in
              let other_freq_conv :=
                (other_freq / inject_Z upper_frequency * inject_Z (2 ^ frequency_bits))%Q in
              let hash_val :=
                Z.lor (Z.lor (int_of_Q freq_conv) (Z.shiftl (int_of_Q other_freq_conv) 10))
                      (Z.shiftl time_diff 20) in
              dict_set hash_val (time, song_id) hashes)
         (slice constellation_map idx (idx + 100)) hashes)
    (enumerate constellation_map) [].

Definition score_songs (hashes : dict Z HashEntry) (database : Database)
    : list MatchResult :=
  let song_matches :=
    fold_left
      (fun song_matches '(hash_val, (sample_time, _)) =>
         match dict_get hash_val database with
         | Some match_list =>
             fold_left
               (fun song_matches '(ref_time, song_index) =>
                  dict_upsert song_index []
                    (fun l => l ++ [(hash_val, sample_time, ref_time)]) song_matches)
               match_list song_matches
         | None => song_matches
         end)
      (dict_items hashes) [] in
  let song_scores :=
    fold_left
      (fun song_scores '(song_index, matches) =>
         let offset_scores :=
           fold_left
             (fun offset_scores '(hash_val, sample_time, ref_time) =>
                let delta := ref_time - sample_time in
                dict_upsert delta 0 (fun c => c + 1) offset_scores)
             matches [] in
         let max_score :=
           fold_left
             (fun max_score '(offset, score) =>
                if score >? snd max_score then (offset, score) else max_score)
             (dict_items offset_scores) (0, 0) in
         dict_set song_index max_score song_scores)
      (dict_items song_matches) [] in
  sorted_desc (fun x => snd (snd x)) (dict_items song_scores).

End App.

(** ** Reference notions used to state further properties of the hasher *)

(** The constellation map of the same sound starting [k] windows later. *)
Definition shift_time (k : Z) (cm : list Landmark) : list Landmark :=
  map (fun lm => (fst lm + k, snd lm)) cm.

Definition shift_pair (k : Z) (p : Landmark * Landmark) : Landmark * Landmark :=
  ((fst (fst p) + k, snd (fst p)), (fst (snd p) + k, snd (snd p))).

(** The same hash mapping with every anchor time moved by [k]. *)
Definition shift_entries (k : Z) (hashes : dict Z HashEntry) : dict Z HashEntry :=
  map (fun he => (fst he, (fst (snd he) + k, snd (snd he)))) hashes.

(** The last pair, in loop order, whose hash is [h]. *)
Definition last_pair_with_hash (h : Z) (ps : list (Landmark * Landmark))
    : option (Landmark * Landmark) :=
  List.find (fun p => pair_hash p =? h) (rev ps).

(** The reference occurrences a bucket of the index holds for one song. *)
Definition song_entries (song : SongId) (bucket : list HashEntry) : list HashEntry :=
  List.filter (fun e => bool_decide (snd e = song)) bucket.

(** ** The main script of [song_recognizer.py] and the handlers of [app.py] *)

(** Exceptions of the scripts: those of the core functions and of [scores[0]],
    and the [KeyError] of [song_index[song_id]]. *)
Inductive script_exn : Type :=
  | CoreError (e : exn)
  | KeyError.

Definition script_result (A : Type) : Type := (script_exn + A)%type.

Definition lift_core {A} (m : result A) : script_result A :=
  match m with
  | inl e => inl (CoreError e)
  | inr x => inr x
  end.

Definition script_bind {A B} (m : script_result A) (k : A -> script_result B)
    : script_result B :=
  match m with
  | inl e => inl e
  | inr x => k x
  end.

Section Scripts.
Context {File Sample Mag Prom : Type}.
Variable zero : Sample.
Variable segment_spectrum : list Sample -> list Mag.
Variable find_peaks : list Mag -> list nat * list Prom.
Variable argpartition : list Prom -> Z -> result (list nat).

(** A file as the scripts see it after [read] and the selection of the first
    channel: its path, sample rate and mono samples. *)
Definition Recording : Type := File * (Z * list Sample).

(** One turn of the build loop of [song_recognizer.py]:
    [song_index[idx] = file], then extract, hash with [idx] and append every
    entry to [database]. *)
Definition build_step (state : dict Z File * Database) (idx : nat) (song : Recording)
    : result (dict Z File * Database) :=
  let '(song_index, database) := state in
  let '(file, (sample_rate, audio_input)) := song in
  let song_index := dict_set (Z.of_nat idx) file song_index in
  let* constellation_map :=
    create_constellation_map zero segment_spectrum find_peaks argpartition
                             audio_input sample_rate in
  let hashes := create_hashes constellation_map (Some (Z.of_nat idx)) in
  ret (song_index, add_to_index database hashes).

(** The loop over [enumerate(sorted(song_files))], from the empty
    [song_index] and [database]; [songs] is the list in sorted order. *)
Definition build_database (songs : list Recording) : result (dict Z File * Database) :=
  fold_left (fun acc '(idx, song) => let* state := acc in build_step state idx song)
            (enumerate songs) (ret ([], [])).

(** [song_index[song_id]] *)
Definition catalog_lookup (song_index : dict Z File) (song_id : SongId)
    : script_result File :=
  match song_id with
  | Some k =>
      match dict_get k song_index with
      | Some file => inr file
      | None => inl KeyError
      end
  | None => inl KeyError
  end.

(** One turn of the identification loop of [song_recognizer.py]: the file
    whose name is printed. *)
Definition identify (song_index : dict Z File) (database : Database)
    (audio_input : list Sample) (sample_rate : Z) : script_result File :=
  script_bind
    (lift_core (create_constellation_map zero segment_spectrum find_peaks argpartition
                                         audio_input sample_rate))
    (fun constellation_map =>
       let hashes := create_hashes constellation_map None in
       let scores := score_songs database hashes in
       script_bind (lift_core (index scores 0))
         (fun top =>
            let '(song_id, (offset, match_score)) := top in
            catalog_lookup song_index song_id)).

(** The handler of [app.py] for an uploaded or recorded file: [None] stands
    for the message "No matching song found in the database", [Some] for the
    identified file and the match score shown. *)
Definition app_identify (song_index : dict Z File) (database : Database)
    (audio_input : list Sample) (sample_rate : Z) : script_result (option (File * Z)) :=
  script_bind
    (lift_core (App.create_constellation_map zero segment_spectrum find_peaks
                                             argpartition audio_input sample_rate))
    (fun constellation_map =>
       let hashes := App.create_hashes constellation_map None in
       let scores := App.score_songs hashes database in
       match scores with
       | (song_id, (offset, match_score)) :: _ =>
           script_bind (catalog_lookup song_index song_id)
                       (fun file => inr (Some (file, match_score)))
       | [] => inr None
       end).
End Scripts.

(** ** The displayed song name *)

(** A Python [str] is a list of characters; [os.path] is the POSIX flavour. *)

Definition slash : ascii := "/".
Definition dot : ascii := ".".
Definition dash : ascii := "-".

(** [s.rfind(c)]: the last position of [c] in [s], -1 when there is none *)
Fixpoint rfind (c : ascii) (s : list ascii) : Z :=
  match s with
  | [] => -1
  | x :: s' =>
      let r := rfind c s' in
      if 0 <=? r then r + 1 else if Ascii.eqb x c then 0 else -1
  end.

(** [os.path.basename(p)]: [i = p.rfind('/') + 1; return p[i:]] *)
Definition basename (p : list ascii) : list ascii :=
  let i := rfind "/" p + 1 in
  drop (Z.to_nat i) p.

(** [os.path.splitext(p)]: split at the last dot when it comes after the last
    separator and some character between the two is not a dot (leading dots
    do not start an extension) *)
Definition splitext (p : list ascii) : list ascii * list ascii :=
  let sepIndex := rfind "/" p in
  let dotIndex := rfind "." p in
  if dotIndex >? sepIndex then
    if existsb (fun ch => negb (Ascii.eqb ch "."))
               (slice p (Z.to_nat (sepIndex + 1)) (Z.to_nat dotIndex))
    then (take (Z.to_nat dotIndex) p, drop (Z.to_nat dotIndex) p)
    else (p, [])
  else (p, []).

(** [s.replace('-', ' ')] *)
Definition replace_dash (s : list ascii) : list ascii :=
  map (fun ch => if Ascii.eqb ch "-" then " "%char else ch) s.

(** The name both front ends show for the file found in the catalog:
    [os.path.splitext(os.path.basename(path))[0].replace('-', ' ')] *)
Definition song_name (path : list ascii) : list ascii :=
  let song_name := basename path in
  let song_name := fst (splitext song_name) in
  replace_dash song_name.

Definition str (s : String.string) : list ascii := String.list_ascii_of_string s.
Arguments str s%_string_scope.

(** A toy corpus for the toy kernels: two files sampled at 4 Hz. *)
Definition songs_toy : list (list ascii * (Z * list Z)) :=
  [ (str "database_songs/Daft-Punk-One.More.Time.wav", (4, [5; 6; 7]));
    (str "database_songs/second-song.wav", (4, [1; 2; 3; 4; 5])) ].

Definition toy_build : result (dict Z (list ascii) * Database) :=
  build_database 0 toy_spectrum toy_find_peaks toy_argpartition songs_toy.

Definition toy_catalog : dict Z (list ascii) :=
  [ (0, str "database_songs/Daft-Punk-One.More.Time.wav");
    (1, str "database_songs/second-song.wav") ].

Definition toy_database : Database :=
  match toy_build with
  | inr (_, database) => database
  | inl _ => []
  end.

(** The constellation map the toy kernels extract from the first toy file. *)
Definition cm_toy : list Landmark :=
  [(0, 0 # 2); (0, 4 # 2); (1, 0 # 2); (1, 4 # 2); (2, 0 # 2); (2, 4 # 2);
   (3, 0 # 2); (3, 4 # 2); (4, 0 # 2); (4, 4 # 2)].

(* ================================================================= *)
(** * Properties *)

Example create_hashes_ex1 :
  create_hashes cm_small (Some 7)
  = [(2188307, (0, Some 7)); (3165203, (0, Some 7)); (2116647, (1, Some 7))].
Proof. vm_compute. reflexivity. Qed.

(** ** Dictionary lemmas *)

Section DictFacts.
Context {K V : Type} `{EqDecision K}.
Implicit Types (d : list (K * V)) (k : K) (v : V).

Lemma dict_get_set_eq d k v : dict_get k (dict_set k v d) = Some v.
Proof.
  induction d as [|[k' v'] d IH]; simpl.
  - destruct (decide (k = k)); congruence.
  - destruct (decide (k = k')) as [->|Hne]; simpl.
    + destruct (decide (k' = k')); congruence.
    + destruct (decide (k = k')); [contradiction|exact IH].
Qed.

Lemma dict_get_set_ne d k k' v :
  k <> k' -> dict_get k' (dict_set k v d) = dict_get k' d.
Proof.
  intros Hne. induction d as [|[k0 v0] d IH]; simpl.
  - destruct (decide (k' = k)); congruence.
  - destruct (decide (k = k0)) as [->|Hne0]; simpl.
    + destruct (decide (k' = k0)); congruence.
    + destruct (decide (k' = k0)); [reflexivity|exact IH].
Qed.

Lemma dict_mem_true d k : dict_mem k d = true <-> k ∈ dict_keys d.
Proof.
  unfold dict_mem. induction d as [|[k' v'] d IH]; simpl.
  - split; [discriminate|]. intros H'. inversion H'.
  - destruct (decide (k = k')) as [->|Hne].
    + split; [intros _; left|reflexivity].
    + rewrite IH. split; [intros H'; right; exact H'|].
      intros H'. inversion H'; subst; [contradiction|assumption].
Qed.

Lemma dict_mem_false d k : dict_mem k d = false <-> k ∉ dict_keys d.
Proof.
  rewrite <- dict_mem_true. destruct (dict_mem k d); split; congruence.
Qed.

Lemma dict_get_None d k : dict_get k d = None <-> k ∉ dict_keys d.
Proof.
  rewrite <- dict_mem_false. unfold dict_mem.
  destruct (dict_get k d); split; congruence.
Qed.

Lemma dict_get_elem d k v : dict_get k d = Some v -> (k, v) ∈ d.
Proof.
  induction d as [|[k' v'] d IH]; simpl; [discriminate|].
  destruct (decide (k = k')) as [->|Hne].
  - intros [= ->]. left.
  - intros H'. right. auto.
Qed.

Lemma elem_dict_get d k v :
  NoDup (dict_keys d) -> (k, v) ∈ d -> dict_get k d = Some v.
Proof.
  induction d as [|[k' v'] d IH]; simpl; intros Hnd Hin.
  - inversion Hin.
  - apply NoDup_cons in Hnd as [Hk Hnd].
    apply elem_of_cons in Hin as [[= -> ->]|Hin].
    + destruct (decide (k' = k')); congruence.
    + destruct (decide (k = k')) as [->|Hne]; [|auto].
      exfalso. apply Hk. unfold dict_keys.
      apply list_elem_of_fmap. exists (k', v). split; [reflexivity|exact Hin].
Qed.

Lemma dict_set_absent d k v : k ∉ dict_keys d -> dict_set k v d = d ++ [(k, v)].
Proof.
  induction d as [|[k' v'] d IH]; simpl; intros Hk; [reflexivity|].
  destruct (decide (k = k')) as [->|Hne].
  - exfalso. apply Hk. left.
  - f_equal. apply IH. intros Hin. apply Hk. right. exact Hin.
Qed.

Lemma dict_keys_set_present d k v :
  k ∈ dict_keys d -> dict_keys (dict_set k v d) = dict_keys d.
Proof.
  induction d as [|[k' v'] d IH]; simpl; intros Hk.
  - inversion Hk.
  - destruct (decide (k = k')) as [->|Hne]; simpl; [reflexivity|].
    f_equal. apply IH. inversion Hk; subst; [contradiction|assumption].
Qed.

Lemma dict_keys_set d k v :
  dict_keys (dict_set k v d)
  = if dict_mem k d then dict_keys d else dict_keys d ++ [k].
Proof.
  destruct (dict_mem k d) eqn:E.
  - apply dict_keys_set_present, dict_mem_true, E.
  - rewrite dict_set_absent by (apply dict_mem_false, E).
    unfold dict_keys. rewrite map_app. reflexivity.
Qed.

Lemma dict_set_NoDup d k v :
  NoDup (dict_keys d) -> NoDup (dict_keys (dict_set k v d)).
Proof.
  intros Hnd. rewrite dict_keys_set. destruct (dict_mem k d) eqn:E; [exact Hnd|].
  apply NoDup_app. split; [exact Hnd|]. split.
  - intros x Hx Hx'. apply list_elem_of_singleton in Hx'. subst x.
    apply dict_mem_false in E. contradiction.
  - apply NoDup_singleton.
Qed.

Lemma elem_of_dict_set d k v k' v' :
  (k', v') ∈ dict_set k v d -> (k' = k /\ v' = v) \/ (k', v') ∈ d.
Proof.
  induction d as [|[k0 v0] d IH]; simpl.
  - intros Hin. apply list_elem_of_singleton in Hin. injection Hin as -> ->. auto.
  - destruct (decide (k = k0)) as [->|Hne]; intros Hin;
      apply elem_of_cons in Hin as [Heq|Hin].
    + injection Heq as -> ->. auto.
    + right. right. exact Hin.
    + right. rewrite Heq. left.
    + destruct (IH Hin) as [?|?]; [auto|]. right. right. assumption.
Qed.

Lemma dict_set_length d k v :
  length (dict_set k v d) = if dict_mem k d then length d else S (length d).
Proof.
  destruct (dict_mem k d) eqn:E.
  - apply dict_mem_true in E.
    rewrite <- (length_map fst), <- (length_map fst d).
    change (map fst) with (@dict_keys K V).
    rewrite dict_keys_set_present; auto.
  - apply dict_mem_false in E. rewrite dict_set_absent by exact E.
    rewrite length_app. simpl. lia.
Qed.
End DictFacts.

(** ** Loop and list helpers *)

Lemma fold_left_flat_map {A B C} (f : A -> C -> A) (g : B -> list C) l acc :
  fold_left f (flat_map g l) acc
  = fold_left (fun a x => fold_left f (g x) a) l acc.
Proof.
  revert acc. induction l as [|x l IH]; intros acc; simpl; [reflexivity|].
  rewrite fold_left_app. apply IH.
Qed.

Lemma fold_left_filter {A B} (f : A -> B -> A) (p : B -> bool) l acc :
  fold_left (fun a x => if p x then f a x else a) l acc
  = fold_left f (List.filter p l) acc.
Proof.
  revert acc. induction l as [|x l IH]; intros acc; simpl; [reflexivity|].
  destruct (p x); simpl; apply IH.
Qed.

Lemma fold_left_ext {A B} (f g : A -> B -> A) l acc :
  (forall a x, f a x = g a x) -> fold_left f l acc = fold_left g l acc.
Proof.
  intros Hfg. revert acc. induction l as [|x l IH]; intros acc; simpl; [reflexivity|].
  rewrite Hfg. apply IH.
Qed.

Lemma fold_left_map {A B C} (f : A -> C -> A) (g : B -> C) l acc :
  fold_left f (map g l) acc = fold_left (fun a x => f a (g x)) l acc.
Proof.
  revert acc. induction l as [|x l IH]; intros acc; simpl; [reflexivity|]. apply IH.
Qed.

Lemma elem_of_combine_seq {A} (l : list A) (n i : nat) (x : A) :
  (i, x) ∈ combine (seq n (length l)) l <-> (n <= i)%nat /\ l !! (i - n)%nat = Some x.
Proof.
  revert n. induction l as [|y l IH]; intros n; simpl.
  - split; [intros Hin; inversion Hin|intros [_ Hl]; discriminate].
  - rewrite elem_of_cons, IH. split.
    + intros [[= -> ->]|[Hle Hl]].
      * split; [lia|]. replace (n - n)%nat with 0%nat by lia. reflexivity.
      * split; [lia|]. replace (i - n)%nat with (S (i - S n)) by lia. exact Hl.
    + intros [Hle Hl]. destruct (decide (i = n)) as [->|Hne].
      * left. replace (n - n)%nat with 0%nat in Hl by lia. simpl in Hl. congruence.
      * right. split; [lia|].
        replace (i - n)%nat with (S (i - S n)) in Hl by lia. exact Hl.
Qed.

Lemma elem_of_enumerate {A} (l : list A) (i : nat) (x : A) :
  (i, x) ∈ enumerate l <-> l !! i = Some x.
Proof.
  unfold enumerate. rewrite elem_of_combine_seq.
  replace (i - 0)%nat with i by lia. split; [tauto|]. split; [lia|assumption].
Qed.

Lemma elem_of_slice {A} (l : list A) (lo hi : nat) (x : A) :
  x ∈ slice l lo hi <-> exists j, (lo <= j < hi)%nat /\ l !! j = Some x.
Proof.
  unfold slice. rewrite list_elem_of_lookup. split.
  - intros [k Hk]. apply lookup_take_Some in Hk as [Hk Hlt].
    rewrite lookup_drop in Hk. exists (lo + k)%nat. split; [lia|exact Hk].
  - intros [j [Hj Hl]]. exists (j - lo)%nat.
    apply lookup_take_Some. split; [|lia].
    rewrite lookup_drop. replace (lo + (j - lo))%nat with j by lia. exact Hl.
Qed.

(** ** [create_hashes] as a sequence of dictionary writes *)

Lemma elem_of_candidate_pairs cm a b :
  (a, b) ∈ candidate_pairs cm
  <-> exists i j, cm !! i = Some a /\ cm !! j = Some b /\ (i <= j < i + 100)%nat.
Proof.
  unfold candidate_pairs. rewrite list_elem_of_In, in_flat_map. split.
  - intros [[i a'] [Hi Hin]]. apply list_elem_of_In, elem_of_enumerate in Hi.
    apply in_map_iff in Hin as [b' [[= -> ->] Hb]].
    apply list_elem_of_In, elem_of_slice in Hb as [j [Hj Hl]].
    exists i, j. auto.
  - intros [i [j [Hi [Hj Hij]]]]. exists (i, a). split.
    + apply list_elem_of_In, elem_of_enumerate, Hi.
    + apply in_map. apply list_elem_of_In, elem_of_slice. exists j. auto.
Qed.

Lemma skipped_false td : skipped td = false <-> 2 <= td <= 10.
Proof. unfold skipped. rewrite orb_false_iff. lia. Qed.

Lemma elem_of_emitted_pairs cm a b :
  (a, b) ∈ emitted_pairs cm
  <-> exists i j, cm !! i = Some a /\ cm !! j = Some b /\ (i <= j < i + 100)%nat
                  /\ 2 <= fst b - fst a <= 10.
Proof.
  unfold emitted_pairs. rewrite list_elem_of_In, filter_In, <- list_elem_of_In.
  rewrite elem_of_candidate_pairs, negb_true_iff, skipped_false.
  unfold time_diff_of. simpl. split.
  - intros [[i [j [Hi [Hj Hij]]]] Htd]. exists i, j. auto.
  - intros [i [j [Hi [Hj [Hij Htd]]]]]. split; [exists i, j|]; auto.
Qed.

Lemma create_hashes_writes cm song_id :
  create_hashes cm song_id = fold_left (write_pair song_id) (emitted_pairs cm) [].
Proof.
  unfold create_hashes, emitted_pairs, candidate_pairs.
  rewrite <- fold_left_filter, fold_left_flat_map.
  apply fold_left_ext. intros acc [idx [time freq]].
  rewrite fold_left_map. apply fold_left_ext. intros a [other_time other_freq].
  unfold hash_pair, write_pair, pair_hash, time_diff_of. simpl.
  destruct (skipped (other_time - time)); reflexivity.
Qed.

Lemma writes_origin song_id ps acc h e :
  (h, e) ∈ fold_left (write_pair song_id) ps acc ->
  (h, e) ∈ acc \/ exists p, p ∈ ps /\ h = pair_hash p /\ e = (fst (fst p), song_id).
Proof.
  revert acc. induction ps as [|p ps IH]; intros acc; simpl; [auto|].
  intros Hin. apply IH in Hin as [Hin|[q [Hq Heq]]].
  - unfold write_pair in Hin. apply elem_of_dict_set in Hin as [[-> ->]|Hin]; [|auto].
    right. exists p. split; [left|auto].
  - right. exists q. split; [right; exact Hq|exact Heq].
Qed.

Lemma writes_mem song_id ps acc k :
  dict_mem k acc = true \/ (exists p, p ∈ ps /\ k = pair_hash p) ->
  dict_mem k (fold_left (write_pair song_id) ps acc) = true.
Proof.
  revert acc. induction ps as [|p ps IH]; intros acc; simpl.
  - intros [Hm|[p [Hp _]]]; [exact Hm|inversion Hp].
  - intros Hor. apply IH. unfold write_pair.
    destruct (decide (k = pair_hash p)) as [->|Hne].
    + left. unfold dict_mem. rewrite dict_get_set_eq. reflexivity.
    + destruct Hor as [Hm|[q [Hq Hk]]].
      * left. unfold dict_mem. rewrite dict_get_set_ne by congruence. exact Hm.
      * apply elem_of_cons in Hq as [->|Hq]; [contradiction|].
        right. exists q. auto.
Qed.

Lemma writes_NoDup song_id ps acc :
  NoDup (dict_keys acc) -> NoDup (dict_keys (fold_left (write_pair song_id) ps acc)).
Proof.
  revert acc. induction ps as [|p ps IH]; intros acc Hnd; simpl; [exact Hnd|].
  apply IH. unfold write_pair. apply dict_set_NoDup, Hnd.
Qed.

Lemma create_hashes_NoDup cm song_id : NoDup (dict_keys (create_hashes cm song_id)).
Proof. rewrite create_hashes_writes. apply writes_NoDup. constructor. Qed.

Lemma create_hashes_origin cm song_id h e :
  (h, e) ∈ create_hashes cm song_id ->
  exists i j a b,
    cm !! i = Some a /\ cm !! j = Some b /\ (i <= j < i + 100)%nat
    /\ 2 <= fst b - fst a <= 10
    /\ h = hash_val (fst a) (snd a) (fst b) (snd b) /\ e = (fst a, song_id).
Proof.
  rewrite create_hashes_writes. intros Hin.
  apply writes_origin in Hin as [Hin|[[a b] [Hp [Hh He]]]]; [inversion Hin|].
  apply elem_of_emitted_pairs in Hp as [i [j [Hi [Hj [Hij Htd]]]]].
  exists i, j, a, b. auto 10.
Qed.

Lemma create_hashes_complete cm song_id i j a b :
  cm !! i = Some a -> cm !! j = Some b -> (i <= j < i + 100)%nat ->
  2 <= fst b - fst a <= 10 ->
  dict_mem (hash_val (fst a) (snd a) (fst b) (snd b)) (create_hashes cm song_id) = true.
Proof.
  intros Hi Hj Hij Htd. rewrite create_hashes_writes. apply writes_mem. right.
  exists (a, b). split; [|reflexivity].
  apply elem_of_emitted_pairs. exists i, j. auto.
Qed.

(** ** Packing of the three hash fields *)

Lemma lor_shiftl_add x y n :
  0 <= n -> 0 <= x < 2 ^ n -> Z.lor x (Z.shiftl y n) = x + y * 2 ^ n.
Proof.
  intros Hn Hx. rewrite Z.shiftl_mul_pow2 by exact Hn.
  assert (Hz : Z.land x (y * 2 ^ n) = 0);
    [|pose proof (Z.add_lor_land x (y * 2 ^ n)) as Hs; rewrite Hz in Hs; lia].
  rewrite <- Z.shiftl_mul_pow2 by exact Hn.
  apply Z.bits_inj'. intros k Hk. rewrite Z.land_spec, Z.bits_0.
  destruct (Z_lt_le_dec k n) as [Hlt|Hge].
  - rewrite Z.shiftl_spec_low by exact Hlt. apply andb_false_r.
  - replace x with (x mod 2 ^ n) by (apply Z.mod_small; exact Hx).
    rewrite Z.mod_pow2_bits_high by lia. reflexivity.
Qed.

Lemma hash_fields x y z :
  0 <= x < 1024 -> 0 <= y < 1024 -> 0 <= z < 1024 ->
  let h := Z.lor (Z.lor x (Z.shiftl y 10)) (Z.shiftl z 20) in
  0 <= h < 2 ^ 30
  /\ Z.land h 1023 = x
  /\ Z.land (Z.shiftr h 10) 1023 = y
  /\ Z.land (Z.shiftr h 20) 1023 = z.
Proof.
  intros Hx Hy Hz h.
  assert (Hh : h = x + y * 2 ^ 10 + z * 2 ^ 20).
  { unfold h. rewrite (lor_shiftl_add x y 10) by lia.
    rewrite lor_shiftl_add by lia. reflexivity. }
  change 1023 with (Z.ones 10). rewrite !Z.land_ones by lia.
  rewrite !Z.shiftr_div_pow2 by lia. rewrite Hh.
  change (2 ^ 10) with 1024. change (2 ^ 20) with 1048576.
  change (2 ^ 30) with 1073741824.
  repeat split; try lia.
  - symmetry. apply (Z.mod_unique_pos _ _ (y + z * 1024)); lia.
  - assert (Hd : (x + y * 1024 + z * 1048576) / 1024 = y + z * 1024).
    { symmetry. apply (Z.div_unique_pos _ _ _ x); lia. }
    rewrite Hd. symmetry. apply (Z.mod_unique_pos _ _ z); lia.
  - assert (Hd : (x + y * 1024 + z * 1048576) / 1048576 = z).
    { symmetry. apply (Z.div_unique_pos _ _ _ (x + y * 1024)); lia. }
    rewrite Hd. apply Z.mod_small. lia.
Qed.

Lemma int_freq_conv f :
  int_of_Q (freq_conv f) = Z.quot (Qnum f * 1024) (Z.pos (Qden f) * 23000).
Proof.
  destruct f as [n d]. unfold int_of_Q, freq_conv. simpl.
  change (2 ^ frequency_bits) with 1024. f_equal; lia.
Qed.

Lemma int_freq_conv_range f :
  (0 <= f)%Q -> (f < inject_Z upper_frequency)%Q -> 0 <= int_of_Q (freq_conv f) < 1024.
Proof.
  intros H0 H1. rewrite int_freq_conv. destruct f as [n d].
  unfold Qle in H0. unfold Qlt in H1. unfold upper_frequency in H1. simpl in *.
  rewrite Z.quot_div_nonneg by lia. split.
  - apply Z.div_pos; lia.
  - apply Z.div_lt_upper_bound; lia.
Qed.

(** ** The time-delta filter *)

(** C7.  Every assignment [hashes[hash_val] = (time, song_id)] executed by
    [create_hashes] is made for an (anchor, target) pair whose time delta
    [target.time_bin - anchor.time_bin] lies in 2..10: the loops perform
    exactly the writes of [emitted_pairs], all of which satisfy the bound, and
    every entry of the returned mapping was written for such a pair of
    landmarks of the constellation map. *)
Theorem create_hashes_time_delta_filter (cm : list Landmark) (song_id : SongId) :
  create_hashes cm song_id = fold_left (write_pair song_id) (emitted_pairs cm) []
  /\ Forall (fun p => 2 <= fst (snd p) - fst (fst p) <= 10) (emitted_pairs cm)
  /\ Forall (fun he => exists a b,
                a ∈ cm /\ b ∈ cm /\ 2 <= fst b - fst a <= 10
                /\ fst he = hash_val (fst a) (snd a) (fst b) (snd b)
                /\ snd he = (fst a, song_id))
            (create_hashes cm song_id).
Proof.
  split; [apply create_hashes_writes|]. split.
  - apply List.Forall_forall. intros [a b] Hin.
    apply list_elem_of_In, elem_of_emitted_pairs in Hin.
    destruct Hin as (i & j & _ & _ & _ & Htd). exact Htd.
  - apply List.Forall_forall. intros [h e] Hin.
    apply list_elem_of_In, create_hashes_origin in Hin.
    destruct Hin as (i & j & a & b & Hi & Hj & _ & Htd & Hh & He).
    exists a, b. simpl. repeat split; try tauto.
    + apply list_elem_of_lookup. exists i. exact Hi.
    + apply list_elem_of_lookup. exists j. exact Hj.
Qed.

(** ** Range of the packed hash *)

(** C3 (as amended).  When every landmark frequency lies in the band
    [0 <= frequency < 23000] Hz that [upper_frequency] declares, every key of
    the mapping returned by [create_hashes] is a 30-bit value and its three
    10-bit fields decode to the truncated scaled anchor frequency (bits 0-9),
    the truncated scaled target frequency (bits 10-19) and the time delta
    (bits 20-29) of a pair of landmarks of the map, each below 1024. *)
Theorem create_hashes_range_in_band (cm : list Landmark) (song_id : SongId) :
  (forall lm, lm ∈ cm -> (0 <= snd lm)%Q /\ (snd lm < inject_Z upper_frequency)%Q) ->
  Forall (fun he =>
            0 <= fst he < 2 ^ 30
            /\ exists a b,
                 a ∈ cm /\ b ∈ cm
                 /\ Z.land (fst he) 1023 = int_of_Q (freq_conv (snd a))
                 /\ Z.land (Z.shiftr (fst he) 10) 1023 = int_of_Q (freq_conv (snd b))
                 /\ Z.land (Z.shiftr (fst he) 20) 1023 = fst b - fst a
                 /\ 0 <= int_of_Q (freq_conv (snd a)) < 1024
                 /\ 0 <= int_of_Q (freq_conv (snd b)) < 1024
                 /\ 2 <= fst b - fst a <= 10)
         (create_hashes cm song_id).
Proof.
  intros Hband. apply List.Forall_forall. intros [h e] Hin.
  apply list_elem_of_In, create_hashes_origin in Hin.
  destruct Hin as (i & j & a & b & Hi & Hj & _ & Htd & Hh & _).
  assert (Ha : a ∈ cm) by (apply list_elem_of_lookup; eauto).
  assert (Hb : b ∈ cm) by (apply list_elem_of_lookup; eauto).
  pose proof (int_freq_conv_range (snd a) (proj1 (Hband a Ha)) (proj2 (Hband a Ha))) as Hx.
  pose proof (int_freq_conv_range (snd b) (proj1 (Hband b Hb)) (proj2 (Hband b Hb))) as Hy.
  assert (Hz : 0 <= fst b - fst a < 1024) by lia.
  destruct (hash_fields _ _ _ Hx Hy Hz) as (Hr & H0 & H1 & H2).
  simpl. rewrite Hh. unfold hash_val.
  split; [exact Hr|]. exists a, b. auto 10.
Qed.

Lemma create_hashes_range_in_band_witness :
  (forall lm, lm ∈ cm_small ->
     (0 <= snd lm)%Q /\ (snd lm < inject_Z upper_frequency)%Q)
  /\ Forall (fun he =>
            0 <= fst he < 2 ^ 30
            /\ exists a b,
                 a ∈ cm_small /\ b ∈ cm_small
                 /\ Z.land (fst he) 1023 = int_of_Q (freq_conv (snd a))
                 /\ Z.land (Z.shiftr (fst he) 10) 1023 = int_of_Q (freq_conv (snd b))
                 /\ Z.land (Z.shiftr (fst he) 20) 1023 = fst b - fst a
                 /\ 0 <= int_of_Q (freq_conv (snd a)) < 1024
                 /\ 0 <= int_of_Q (freq_conv (snd b)) < 1024
                 /\ 2 <= fst b - fst a <= 10)
         (create_hashes cm_small (Some 7)).
Proof.
  assert (Hband : forall lm, lm ∈ cm_small ->
            (0 <= snd lm)%Q /\ (snd lm < inject_Z upper_frequency)%Q).
  { intros lm Hin. apply list_elem_of_In in Hin. simpl in Hin.
    destruct Hin as [<-|[<-|[<-|[<-|[]]]]]; split; vm_compute; congruence. }
  split; [exact Hband|]. exact (create_hashes_range_in_band cm_small (Some 7) Hband).
Defined.

(** C3, refuted as stated.  With non-negative times and frequencies only:
    a target at 23552000 Hz yields the key 2^30 + 2^21, which does not fit in
    30 bits; and an anchor at 24000 Hz scales to 1068, whose bit 10 lands in
    the target field, so that the key 2098220 decodes a target field of 1
    although the target frequency 0 Hz scales to 0 (masking or clamping the
    anchor would leave that field 0, rejecting would produce no key). *)
Lemma create_hashes_range_counterexample :
  (Forall (fun lm : Landmark => 0 <= fst lm /\ (0 <= snd lm)%Q) cm_far_above_band
   /\ create_hashes cm_far_above_band None = [(2 ^ 30 + 2 ^ 21, (0, None))]
   /\ ~ (2 ^ 30 + 2 ^ 21 < 2 ^ 30))
  /\ (Forall (fun lm : Landmark => 0 <= fst lm /\ (0 <= snd lm)%Q) cm_above_band
      /\ create_hashes cm_above_band None = [(2098220, (0, None))]
      /\ int_of_Q (freq_conv (inject_Z 24000)) = 1068
      /\ int_of_Q (freq_conv (inject_Z 0)) = 0
      /\ Z.land (Z.shiftr 2098220 10) 1023 = 1).
Proof.
  split.
  - split; [|split].
    + repeat constructor; vm_compute; congruence.
    + vm_compute. reflexivity.
    + vm_compute. congruence.
  - split; [|repeat split].
    + repeat constructor; vm_compute; congruence.
Qed.

(** ** The look-ahead window *)

Lemma lookup_slice {A} (l : list A) (lo hi k : nat) :
  slice l lo hi !! k = if decide (k < hi - lo)%nat then l !! (lo + k)%nat else None.
Proof.
  unfold slice. destruct (decide (k < hi - lo)%nat) as [Hlt|Hge].
  - rewrite lookup_take_lt by exact Hlt. apply lookup_drop.
  - apply lookup_take_ge. lia.
Qed.

(** C8 (as amended).  For the anchor at list position [i] the inner loop
    iterates over [constellation_map[i : i + 100]], that is over the 100 list
    positions [i .. i + 99]: the anchor itself and the next 99 landmarks.
    Every entry of the result comes from a pair (anchor at [i], target at [j])
    with [i <= j <= i + 99], and every such pair whose time delta passes the
    filter has its hash among the keys of the result. *)
Theorem create_hashes_forward_window (cm : list Landmark) (song_id : SongId) :
  (forall i k, slice cm i (i + 100) !! k
               = if decide (k < 100)%nat then cm !! (i + k)%nat else None)
  /\ (forall h e, (h, e) ∈ create_hashes cm song_id ->
        exists i j a b,
          cm !! i = Some a /\ cm !! j = Some b /\ (i <= j <= i + 99)%nat
          /\ h = hash_val (fst a) (snd a) (fst b) (snd b) /\ e = (fst a, song_id))
  /\ (forall i j a b,
        cm !! i = Some a -> cm !! j = Some b -> (i <= j <= i + 99)%nat ->
        2 <= fst b - fst a <= 10 ->
        dict_mem (hash_val (fst a) (snd a) (fst b) (snd b))
                 (create_hashes cm song_id) = true).
Proof.
  split; [|split].
  - intros i k. rewrite lookup_slice.
    replace (i + 100 - i)%nat with 100%nat by lia. reflexivity.
  - intros h e Hin. apply create_hashes_origin in Hin.
    destruct Hin as (i & j & a & b & Hi & Hj & Hij & _ & Hh & He).
    exists i, j, a, b. repeat split; auto; lia.
  - intros i j a b Hi Hj Hij Htd.
    apply (create_hashes_complete cm song_id i j a b); auto. lia.
Qed.

Lemma create_hashes_forward_window_witness :
  dict_mem (hash_val 0 (inject_Z 440) 2 (inject_Z 2000))
           (create_hashes cm_small (Some 7)) = true
  /\ exists i j a b,
       cm_small !! i = Some a /\ cm_small !! j = Some b /\ (i <= j <= i + 99)%nat
       /\ 2188307 = hash_val (fst a) (snd a) (fst b) (snd b)
       /\ (0, Some 7) = (fst a, Some 7).
Proof.
  destruct (create_hashes_forward_window cm_small (Some 7)) as (_ & Hsound & Hcompl).
  split.
  - apply (Hcompl 0%nat 2%nat (0, inject_Z 440) (2, inject_Z 2000));
      [reflexivity|reflexivity|lia|simpl; lia].
  - apply (Hsound 2188307 (0, Some 7)).
    apply list_elem_of_In. vm_compute. left. reflexivity.
Defined.

(** C8, refuted as stated.  In [cm_101] the landmark at position 100 is one
    of the "next 100" after the anchor at position 0 and their time delta is
    2, yet [create_hashes] produces no hash at all: position [i + 100] is not
    examined. *)
Lemma create_hashes_forward_window_counterexample :
  ~ (forall (cm : list Landmark) (i j : nat) (a b : Landmark),
       cm !! i = Some a -> cm !! j = Some b -> (i + 1 <= j <= i + 100)%nat ->
       2 <= fst b - fst a <= 10 ->
       dict_mem (hash_val (fst a) (snd a) (fst b) (snd b)) (create_hashes cm None) = true).
Proof.
  intros Hclaim.
  specialize (Hclaim cm_101 0%nat 100%nat (0, inject_Z 0) (2, inject_Z 0)).
  assert (Hempty : create_hashes cm_101 None = []) by (vm_compute; reflexivity).
  rewrite Hempty in Hclaim.
  assert (Hf : false = true); [|discriminate Hf].
  apply Hclaim; [reflexivity|reflexivity|lia|simpl; lia].
Qed.

Example score_songs_ex1 :
  score_songs db_two_songs query_two_songs = [(Some 0, (3, 2)); (Some 1, (7, 1))].
Proof. vm_compute. reflexivity. Qed.

(** ** The insert-or-update idiom *)

Section Upsert.
Context {K V : Type} `{EqDecision K}.
Implicit Types (d : list (K * V)) (k : K) (init : V) (f : V -> V).

Lemma upsert_get_eq d k init f :
  dict_get k (dict_upsert k init f d) = Some (f (default init (dict_get k d))).
Proof.
  unfold dict_upsert, dict_mem. destruct (dict_get k d) as [v|] eqn:E.
  - rewrite E. apply dict_get_set_eq.
  - rewrite dict_get_set_eq. apply dict_get_set_eq.
Qed.

Lemma upsert_get_ne d k k' init f :
  k <> k' -> dict_get k' (dict_upsert k init f d) = dict_get k' d.
Proof.
  intros Hne. unfold dict_upsert, dict_mem. destruct (dict_get k d) as [v|] eqn:E.
  - rewrite E. apply dict_get_set_ne, Hne.
  - rewrite dict_get_set_eq. rewrite !dict_get_set_ne by exact Hne. reflexivity.
Qed.

Lemma upsert_keys d k init f :
  dict_keys (dict_upsert k init f d)
  = if dict_mem k d then dict_keys d else dict_keys d ++ [k].
Proof.
  unfold dict_upsert. destruct (dict_mem k d) eqn:E.
  - unfold dict_mem in E. destruct (dict_get k d) as [v|] eqn:E'; [|discriminate].
    apply dict_keys_set_present, dict_mem_true. unfold dict_mem. rewrite E'. reflexivity.
  - rewrite dict_get_set_eq.
    rewrite dict_keys_set_present.
    + rewrite dict_keys_set, E. reflexivity.
    + apply dict_mem_true. unfold dict_mem. rewrite dict_get_set_eq. reflexivity.
Qed.

Lemma upsert_NoDup d k init f :
  NoDup (dict_keys d) -> NoDup (dict_keys (dict_upsert k init f d)).
Proof.
  intros Hnd. rewrite upsert_keys. destruct (dict_mem k d) eqn:E; [exact Hnd|].
  apply NoDup_app. split; [exact Hnd|]. split.
  - intros x Hx Hx'. apply list_elem_of_singleton in Hx'. subst x.
    apply dict_mem_false in E. contradiction.
  - apply NoDup_singleton.
Qed.

Lemma upsert_keys_prefix d k init f :
  exists ks, dict_keys (dict_upsert k init f d) = dict_keys d ++ ks.
Proof.
  rewrite upsert_keys. destruct (dict_mem k d).
  - exists []. rewrite app_nil_r. reflexivity.
  - exists [k]. reflexivity.
Qed.
End Upsert.

Lemma extend_nil {A} (o : option (list A)) : extend o [] = o.
Proof. reflexivity. Qed.

Lemma extend_app {A} (o : option (list A)) l1 l2 :
  extend (extend o l1) l2 = extend o (l1 ++ l2).
Proof.
  destruct l1 as [|x l1]; [reflexivity|].
  destruct l2 as [|y l2]; simpl.
  - rewrite app_nil_r. reflexivity.
  - rewrite <- app_assoc. reflexivity.
Qed.

Lemma dict_get_append {K A} `{EqDecision K} (d : dict K (list A)) (k k' : K) (x : A) :
  dict_get k' (dict_append k x d)
  = extend (dict_get k' d) (if decide (k = k') then [x] else []).
Proof.
  unfold dict_append. destruct (decide (k = k')) as [<-|Hne].
  - rewrite upsert_get_eq. reflexivity.
  - rewrite upsert_get_ne by exact Hne. reflexivity.
Qed.

(** ** First loop of [score_songs]: grouping by song *)

Lemma collect_inner_get (song : SongId) (h sample_time : Z)
    (match_list : list HashEntry) (sm : dict SongId (list MatchTriple)) :
  dict_get song
    (fold_left (fun sm0 '(ref_time, song_index) =>
                  dict_append song_index (h, sample_time, ref_time) sm0)
               match_list sm)
  = extend (dict_get song sm)
      (flat_map (fun '(ref_time, s) =>
                   if decide (s = song) then [(h, sample_time, ref_time)] else [])
                match_list).
Proof.
  revert sm.
  induction match_list as [|[ref_time s] ml IH]; intros sm; simpl; [reflexivity|].
  rewrite IH, dict_get_append, extend_app. reflexivity.
Qed.

Lemma collect_outer_get (database : Database) (song : SongId) (hashes : dict Z HashEntry) sm :
  dict_get song
    (fold_left
       (fun song_matches '(hash_val, (sample_time, _)) =>
          match dict_get hash_val database with
          | Some match_list =>
              fold_left
                (fun song_matches '(ref_time, song_index) =>
                   dict_append song_index (hash_val, sample_time, ref_time) song_matches)
                match_list song_matches
          | None => song_matches
          end)
       hashes sm)
  = extend (dict_get song sm) (matched_triples database hashes song).
Proof.
  revert sm. induction hashes as [|[h [st sid]] hashes IH]; intros sm; simpl;
    [reflexivity|].
  rewrite IH. destruct (dict_get h database) as [ml|].
  - rewrite collect_inner_get, extend_app. reflexivity.
  - reflexivity.
Qed.

Lemma collect_matches_get database hashes song :
  dict_get song (collect_matches database hashes)
  = extend None (matched_triples database hashes song).
Proof. unfold collect_matches, dict_items. apply collect_outer_get. Qed.

Lemma collect_matches_NoDup (database : Database) (hashes : dict Z HashEntry) :
  NoDup (dict_keys (collect_matches database hashes)).
Proof.
  unfold collect_matches, dict_items.
  assert (Hgen : forall sm : dict SongId (list MatchTriple),
             NoDup (dict_keys sm) ->
             NoDup (dict_keys
               (fold_left
                  (fun song_matches '(hash_val, (sample_time, _)) =>
                     match dict_get hash_val database with
                     | Some match_list =>
                         fold_left
                           (fun song_matches '(ref_time, song_index) =>
                              dict_append song_index (hash_val, sample_time, ref_time)
                                          song_matches)
                           match_list song_matches
                     | None => song_matches
                     end)
                  hashes sm))).
  { induction hashes as [|[h [st sid]] hashes IH]; intros sm Hnd; simpl; [exact Hnd|].
    apply IH. destruct (dict_get h database) as [ml|]; [|exact Hnd].
    clear IH. revert sm Hnd. induction ml as [|[rt s] ml IHml]; intros sm Hnd; simpl;
      [exact Hnd|].
    apply IHml. unfold dict_append. apply upsert_NoDup, Hnd. }
  apply Hgen. constructor.
Qed.

(** ** The offset histogram *)

Lemma offset_count_nonneg d l : 0 <= offset_count d l.
Proof. unfold offset_count. lia. Qed.

Lemma offset_count_cons d m l :
  offset_count d (m :: l) = (if triple_delta m =? d then 1 else 0) + offset_count d l.
Proof.
  unfold offset_count. simpl. destruct (triple_delta m =? d); simpl; lia.
Qed.

Lemma offset_count_app d l1 l2 :
  offset_count d (l1 ++ l2) = offset_count d l1 + offset_count d l2.
Proof.
  unfold offset_count. rewrite List.filter_app, length_app. lia.
Qed.

Lemma offset_count_pos d l :
  0 < offset_count d l <-> exists m, m ∈ l /\ triple_delta m = d.
Proof.
  induction l as [|m l IH].
  - split; [unfold offset_count; simpl; lia|]. intros [m [Hin _]]. inversion Hin.
  - rewrite offset_count_cons. split.
    + intros Hpos. destruct (Z.eqb_spec (triple_delta m) d) as [Heq|Hne].
      * exists m. split; [left|exact Heq].
      * destruct (proj1 IH) as [m' [Hin Hd]]; [lia|].
        exists m'. split; [right; exact Hin|exact Hd].
    + intros [m' [Hin Hd]]. pose proof (offset_count_nonneg d l).
      apply elem_of_cons in Hin as [->|Hin].
      * rewrite Hd, Z.eqb_refl. lia.
      * assert (0 < offset_count d l) by (apply IH; eauto).
        destruct (triple_delta m =? d); lia.
Qed.

Lemma add_count_add o n1 n2 :
  0 <= n1 -> 0 <= n2 -> add_count (add_count o n1) n2 = add_count o (n1 + n2).
Proof.
  intros H1 H2. unfold add_count.
  destruct (Z.eqb_spec n1 0) as [->|Hn1]; [reflexivity|].
  destruct (Z.eqb_spec n2 0) as [->|Hn2].
  - rewrite Z.add_0_r. destruct (Z.eqb_spec n1 0); [contradiction|reflexivity].
  - destruct (Z.eqb_spec (n1 + n2) 0); [lia|]. simpl. f_equal. lia.
Qed.

Lemma count_offset_get os m d :
  dict_get d (count_offset os m)
  = add_count (dict_get d os) (if triple_delta m =? d then 1 else 0).
Proof.
  unfold count_offset. destruct (Z.eqb_spec (triple_delta m) d) as [<-|Hne].
  - rewrite upsert_get_eq. reflexivity.
  - rewrite upsert_get_ne by exact Hne. reflexivity.
Qed.

Lemma count_offsets_from_get l os d :
  dict_get d (fold_left count_offset l os)
  = add_count (dict_get d os) (offset_count d l).
Proof.
  revert os. induction l as [|m l IH]; intros os; simpl; [reflexivity|].
  rewrite IH, count_offset_get, offset_count_cons.
  apply add_count_add; [destruct (triple_delta m =? d); lia|apply offset_count_nonneg].
Qed.

Lemma count_offsets_get l d :
  dict_get d (count_offsets l)
  = if offset_count d l =? 0 then None else Some (offset_count d l).
Proof.
  unfold count_offsets. rewrite count_offsets_from_get. reflexivity.
Qed.

Lemma count_offsets_from_NoDup l os :
  NoDup (dict_keys os) -> NoDup (dict_keys (fold_left count_offset l os)).
Proof.
  revert os. induction l as [|m l IH]; intros os Hnd; simpl; [exact Hnd|].
  apply IH. unfold count_offset. apply upsert_NoDup, Hnd.
Qed.

Lemma count_offsets_NoDup l : NoDup (dict_keys (count_offsets l)).
Proof. apply count_offsets_from_NoDup. constructor. Qed.

Lemma count_offsets_from_prefix l os :
  exists ks, dict_keys (fold_left count_offset l os) = dict_keys os ++ ks.
Proof.
  revert os. induction l as [|m l IH]; intros os; simpl.
  - exists []. rewrite app_nil_r. reflexivity.
  - destruct (IH (count_offset os m)) as [ks Hks].
    destruct (upsert_keys_prefix os (triple_delta m) 0 (fun c => c + 1)) as [ks' Hks'].
    exists (ks' ++ ks). rewrite Hks. unfold count_offset. rewrite Hks'.
    rewrite <- app_assoc. reflexivity.
Qed.

Lemma count_offsets_app_prefix l1 l2 :
  exists ks, dict_keys (count_offsets (l1 ++ l2)) = dict_keys (count_offsets l1) ++ ks.
Proof.
  unfold count_offsets. rewrite fold_left_app. apply count_offsets_from_prefix.
Qed.

Lemma count_offsets_elem l d c :
  (d, c) ∈ count_offsets l <-> c = offset_count d l /\ 0 < c.
Proof.
  pose proof (offset_count_nonneg d l) as Hnn. split.
  - intros Hin. apply (elem_dict_get _ _ _ (count_offsets_NoDup l)) in Hin.
    rewrite count_offsets_get in Hin.
    destruct (Z.eqb_spec (offset_count d l) 0); [discriminate|].
    injection Hin as <-. split; [reflexivity|lia].
  - intros [-> Hpos]. apply dict_get_elem. rewrite count_offsets_get.
    destruct (Z.eqb_spec (offset_count d l) 0); [lia|reflexivity].
Qed.

Lemma count_offsets_key l d :
  d ∈ dict_keys (count_offsets l) <-> 0 < offset_count d l.
Proof.
  rewrite <- dict_mem_true. unfold dict_mem. rewrite count_offsets_get.
  pose proof (offset_count_nonneg d l).
  destruct (Z.eqb_spec (offset_count d l) 0); split; intros; try lia; congruence.
Qed.

(** ** Selection of the tallest bucket *)

Lemma max_score_from_spec os init :
  let r := max_score_from init os in
  snd init <= snd r
  /\ (forall o s, (o, s) ∈ os -> s <= snd r)
  /\ (r = init
      \/ (snd init < snd r
          /\ exists os1 os2, os = os1 ++ r :: os2
                             /\ forall o s, (o, s) ∈ os1 -> s < snd r)).
Proof.
  unfold max_score_from, dict_items. revert init.
  induction os as [|[o1 s1] os IH]; intros init; simpl.
  - split; [lia|]. split; [|left; reflexivity]. intros o s Hin. inversion Hin.
  - destruct (Z.gtb_spec s1 (snd init)) as [Hgt|Hle].
    + destruct (IH (o1, s1)) as (Hge & Hall & Hcase). simpl in Hge.
      split; [lia|]. split.
      * intros o s Hin. apply elem_of_cons in Hin as [[= -> ->]|Hin]; [exact Hge|eauto].
      * right. destruct Hcase as [Heq|(Hlt & os1 & os2 & Hsplit & Hpre)].
        -- rewrite Heq. simpl. split; [lia|]. exists [], os. split; [reflexivity|].
           intros o s Hin. inversion Hin.
        -- simpl in Hlt. split; [lia|]. exists ((o1, s1) :: os1), os2.
           split; [simpl; f_equal; exact Hsplit|].
           intros o s Hin. apply elem_of_cons in Hin as [[= -> ->]|Hin]; [exact Hlt|eauto].
    + destruct (IH init) as (Hge & Hall & Hcase).
      split; [exact Hge|]. split.
      * intros o s Hin. apply elem_of_cons in Hin as [[= -> ->]|Hin]; [lia|eauto].
      * destruct Hcase as [Heq|(Hlt & os1 & os2 & Hsplit & Hpre)]; [left; exact Heq|].
        right. split; [exact Hlt|]. exists ((o1, s1) :: os1), os2.
        split; [simpl; f_equal; exact Hsplit|].
        intros o s Hin. apply elem_of_cons in Hin as [[= -> ->]|Hin]; [lia|eauto].
Qed.

(** On a non-empty histogram the selected pair is a bucket of the histogram,
    no bucket is taller, and every bucket before it is strictly smaller. *)
Lemma max_score_counts l :
  l <> [] ->
  let r := max_score (count_offsets l) in
  0 < snd r
  /\ (forall o s, (o, s) ∈ count_offsets l -> s <= snd r)
  /\ exists os1 os2, count_offsets l = os1 ++ r :: os2
                     /\ forall o s, (o, s) ∈ os1 -> s < snd r.
Proof.
  intros Hne r. destruct (max_score_from_spec (count_offsets l) (0, 0))
    as (Hge & Hall & Hcase). fold (max_score (count_offsets l)) in *. fold r in Hge, Hall, Hcase.
  simpl in Hge.
  destruct l as [|m l]; [contradiction|].
  assert (Hm : (triple_delta m, offset_count (triple_delta m) (m :: l))
               ∈ count_offsets (m :: l)).
  { apply count_offsets_elem. split; [reflexivity|].
    apply offset_count_pos. exists m. split; [left|reflexivity]. }
  assert (Hpos : 0 < offset_count (triple_delta m) (m :: l)).
  { apply count_offsets_elem in Hm. tauto. }
  pose proof (Hall _ _ Hm) as Hle.
  split; [lia|]. split; [exact Hall|].
  destruct Hcase as [Heq|(_ & Hsplit)]; [|exact Hsplit].
  rewrite Heq in Hle. simpl in Hle. lia.
Qed.

(** ** Order of the histogram buckets *)

Lemma first_occurrence_split {A} (P : A -> bool) (l : list A) :
  (exists x, x ∈ l /\ P x = true) ->
  exists pre x post,
    l = pre ++ x :: post /\ P x = true /\ forall y, y ∈ pre -> P y = false.
Proof.
  induction l as [|a l IH]; intros [x [Hin HP]]; [inversion Hin|].
  destruct (P a) eqn:Ea.
  - exists [], a, l. split; [reflexivity|]. split; [exact Ea|].
    intros y Hy. inversion Hy.
  - apply elem_of_cons in Hin as [->|Hin]; [congruence|].
    destruct IH as (pre & x' & post & Hl & Hx' & Hpre); [eauto|].
    exists (a :: pre), x', post. split; [simpl; f_equal; exact Hl|].
    split; [exact Hx'|]. intros y Hy.
    apply elem_of_cons in Hy as [->|Hy]; [exact Ea|auto].
Qed.

Lemma NoDup_split_unique {A} (a1 a2 b1 b2 : list A) (x : A) :
  NoDup (a1 ++ x :: b1) -> a1 ++ x :: b1 = a2 ++ x :: b2 -> a1 = a2.
Proof.
  revert a2. induction a1 as [|y a1 IH]; intros a2 Hnd Heq.
  - destruct a2 as [|z a2]; [reflexivity|]. simpl in Heq. injection Heq as <- Heq.
    exfalso. simpl in Hnd. apply NoDup_cons in Hnd as [Hx _]. apply Hx.
    rewrite Heq. apply elem_of_app. right. left.
  - simpl in Hnd. apply NoDup_cons in Hnd as [Hy Hnd].
    destruct a2 as [|z a2]; simpl in Heq.
    + injection Heq as -> Heq. exfalso. apply Hy. apply elem_of_app. right. left.
    + injection Heq as -> Heq. f_equal. apply IH; assumption.
Qed.

Lemma offset_count_zero d l :
  (forall m, m ∈ l -> (triple_delta m =? d) = false) -> offset_count d l = 0.
Proof.
  intros Hall. pose proof (offset_count_nonneg d l) as Hnn.
  destruct (Z.eq_dec (offset_count d l) 0) as [Hz|Hnz]; [exact Hz|].
  destruct (proj1 (offset_count_pos d l)) as [m [Hin Hd]]; [lia|].
  apply Hall in Hin. apply Z.eqb_neq in Hin. contradiction.
Qed.

(** The selected offset is the one met first among the offsets of maximal
    count: every triple that precedes its first occurrence has an offset of
    strictly smaller count. *)
Lemma max_score_first l :
  l <> [] ->
  let r := max_score (count_offsets l) in
  exists pre m post,
    l = pre ++ m :: post /\ triple_delta m = fst r
    /\ forall m', m' ∈ pre -> offset_count (triple_delta m') l < snd r.
Proof.
  intros Hne r.
  destruct (max_score_counts l Hne) as (Hpos & _ & os1 & os2 & Hsplit & Hpre).
  fold r in Hpos, Hsplit, Hpre. destruct r as [off sc] eqn:Er. simpl in *.
  assert (Hin : (off, sc) ∈ count_offsets l).
  { rewrite Hsplit. apply elem_of_app. right. left. }
  apply count_offsets_elem in Hin as [Hsc _].
  destruct (first_occurrence_split (fun m => triple_delta m =? off) l)
    as (pre & m & post & Hl & Hm & Hnone).
  { destruct (proj1 (offset_count_pos off l)) as [m [Hm Hd]]; [lia|].
    exists m. split; [exact Hm|]. apply Z.eqb_eq, Hd. }
  apply Z.eqb_eq in Hm. exists pre, m, post. split; [exact Hl|]. split; [exact Hm|].
  (* keys of the histogram of [pre] are the keys before [off] *)
  assert (Hoff : dict_mem off (count_offsets pre) = false).
  { apply dict_mem_false. rewrite count_offsets_key.
    rewrite offset_count_zero by exact Hnone. lia. }
  assert (Hk1 : dict_keys (count_offsets (pre ++ [m]))
                = dict_keys (count_offsets pre) ++ [off]).
  { assert (Hstep : count_offsets (pre ++ [m]) = count_offset (count_offsets pre) m)
      by (unfold count_offsets; rewrite fold_left_app; reflexivity).
    rewrite Hstep. unfold count_offset. rewrite upsert_keys, Hm, Hoff. reflexivity. }
  destruct (count_offsets_app_prefix (pre ++ [m]) post) as [ks Hks].
  rewrite <- app_assoc in Hks. simpl in Hks. rewrite <- Hl, Hk1 in Hks.
  rewrite <- app_assoc in Hks. simpl in Hks.
  assert (Hkeys : dict_keys (count_offsets l) = dict_keys os1 ++ off :: dict_keys os2).
  { rewrite Hsplit. unfold dict_keys. rewrite map_app. reflexivity. }
  assert (Heq : dict_keys (count_offsets pre) = dict_keys os1).
  { apply (NoDup_split_unique _ _ ks (dict_keys os2) off).
    - rewrite <- Hks. apply count_offsets_NoDup.
    - rewrite <- Hks. exact Hkeys. }
  intros m' Hm'.
  assert (Hkey : triple_delta m' ∈ dict_keys os1).
  { rewrite <- Heq. apply count_offsets_key, offset_count_pos. eauto. }
  unfold dict_keys in Hkey. apply list_elem_of_fmap in Hkey as [[d c] [Hd Hdc]].
  simpl in Hd. subst d.
  assert (Hc : (triple_delta m', c) ∈ count_offsets l).
  { rewrite Hsplit. apply elem_of_app. left. exact Hdc. }
  apply count_offsets_elem in Hc as [Hc _]. rewrite <- Hc. eapply Hpre, Hdc.
Qed.

(** ** Second loop of [score_songs] *)

Lemma song_scores_from (sm : dict SongId (list MatchTriple)) (acc : dict SongId (Z * Z)) :
  NoDup (dict_keys acc ++ dict_keys sm) ->
  fold_left (fun scores '(song_index, matches) =>
               dict_set song_index (max_score (count_offsets matches)) scores)
            sm acc
  = acc ++ map (fun sm0 => (fst sm0, max_score (count_offsets (snd sm0)))) sm.
Proof.
  revert acc. induction sm as [|[s ms] sm IH]; intros acc Hnd; simpl.
  - rewrite app_nil_r. reflexivity.
  - assert (Hs : s ∉ dict_keys acc).
    { apply NoDup_app in Hnd as (_ & Hdisj & _). intros Hin.
      apply (Hdisj s Hin). left. }
    rewrite dict_set_absent by exact Hs. rewrite IH.
    + rewrite <- app_assoc. reflexivity.
    + unfold dict_keys in *. rewrite map_app. simpl. rewrite <- app_assoc. exact Hnd.
Qed.

Lemma song_scores_map (sm : dict SongId (list MatchTriple)) :
  NoDup (dict_keys sm) ->
  song_scores sm = map (fun sm0 => (fst sm0, max_score (count_offsets (snd sm0)))) sm.
Proof.
  intros Hnd. unfold song_scores, dict_items. rewrite song_scores_from; [reflexivity|].
  exact Hnd.
Qed.

(** ** The descending stable sort *)

Lemma insert_desc_perm {A} (key : A -> Z) x l : Permutation (insert_desc key x l) (x :: l).
Proof.
  induction l as [|y l IH]; simpl; [reflexivity|].
  destruct (key y >? key x); [|reflexivity].
  rewrite IH. apply perm_swap.
Qed.

Lemma sorted_desc_perm {A} (key : A -> Z) l : Permutation (sorted_desc key l) l.
Proof.
  induction l as [|x l IH]; simpl; [reflexivity|].
  rewrite insert_desc_perm. constructor. exact IH.
Qed.

Lemma insert_desc_sorted {A} (key : A -> Z) x l :
  StronglySorted (fun a b => key b <= key a) l ->
  StronglySorted (fun a b => key b <= key a) (insert_desc key x l).
Proof.
  induction l as [|y l IH]; intros Hs; simpl.
  - repeat constructor.
  - apply StronglySorted_inv in Hs as [Hs Hy].
    destruct (Z.gtb_spec (key y) (key x)) as [Hgt|Hle].
    + constructor; [apply IH, Hs|].
      apply List.Forall_forall. intros z Hz.
      apply (Permutation_in _ (insert_desc_perm key x l)) in Hz.
      destruct Hz as [<-|Hz]; [lia|].
      rewrite List.Forall_forall in Hy. apply Hy, Hz.
    + constructor; [constructor; assumption|].
      constructor; [exact Hle|].
      rewrite List.Forall_forall in Hy |- *. intros z Hz. specialize (Hy z Hz). lia.
Qed.

Lemma sorted_desc_sorted {A} (key : A -> Z) l :
  StronglySorted (fun a b => key b <= key a) (sorted_desc key l).
Proof.
  induction l as [|x l IH]; simpl; [constructor|]. apply insert_desc_sorted, IH.
Qed.

(** ** [score_songs], characterised *)

Lemma score_songs_eq database hashes :
  score_songs database hashes
  = sorted_desc result_score
      (map (fun sm0 => (fst sm0, max_score (count_offsets (snd sm0))))
           (collect_matches database hashes)).
Proof.
  unfold score_songs, dict_items.
  rewrite song_scores_map by apply collect_matches_NoDup. reflexivity.
Qed.

Lemma extend_None_Some {A} (l ms : list A) : extend None l = Some ms -> ms = l /\ l <> [].
Proof.
  destruct l as [|x l]; simpl; [discriminate|].
  intros [= <-]. split; [reflexivity|discriminate].
Qed.

Lemma elem_of_score_songs database hashes song r :
  (song, r) ∈ score_songs database hashes
  <-> matched_triples database hashes song <> []
      /\ r = max_score (count_offsets (matched_triples database hashes song)).
Proof.
  rewrite score_songs_eq. rewrite (sorted_desc_perm result_score _).
  rewrite list_elem_of_fmap. split.
  - intros [[s ms] [Heq Hin]]. simpl in Heq. injection Heq as -> ->.
    apply (elem_dict_get _ _ _ (collect_matches_NoDup database hashes)) in Hin.
    rewrite collect_matches_get in Hin.
    apply extend_None_Some in Hin as [-> Hne]. auto.
  - intros [Hne ->]. exists (song, matched_triples database hashes song).
    split; [reflexivity|]. apply dict_get_elem. rewrite collect_matches_get.
    destruct (matched_triples database hashes song); [contradiction|reflexivity].
Qed.

Lemma score_songs_positive (database : Database) (hashes : dict Z HashEntry)
    (song : SongId) (off sc : Z) :
  (song, (off, sc)) ∈ score_songs database hashes -> 0 < sc.
Proof.
  intros Hin. apply elem_of_score_songs in Hin as [Hne Hr].
  destruct (max_score_counts _ Hne) as (Hpos & _). rewrite <- Hr in Hpos. exact Hpos.
Qed.

(** ** Scoring: the modal offset *)

(** C2.  Every [(song, (best_offset, score))] in the output of [score_songs]
    has [score] equal to the number of matched triples of that song whose
    offset [ref_time - sample_time] is [best_offset]; no offset has more
    triples (so [score] is the maximal bucket of the offset histogram); and
    [best_offset] is the first offset of maximal count in iteration order:
    every triple met before the first triple of offset [best_offset] has an
    offset with strictly fewer triples. *)
Theorem score_songs_modal_offset (database : Database) (hashes : dict Z HashEntry)
    (song : SongId) (best_offset score : Z) :
  (song, (best_offset, score)) ∈ score_songs database hashes ->
  let matches := matched_triples database hashes song in
  score = offset_count best_offset matches
  /\ 0 < score
  /\ (forall d, offset_count d matches <= score)
  /\ exists pre m post,
       matches = pre ++ m :: post /\ triple_delta m = best_offset
       /\ forall m', m' ∈ pre -> offset_count (triple_delta m') matches < score.
Proof.
  intros Hin matches. apply elem_of_score_songs in Hin as [Hne Hr].
  fold matches in Hne, Hr.
  destruct (max_score_counts matches Hne) as (Hpos & Hall & os1 & os2 & Hsplit & _).
  pose proof (max_score_first matches Hne) as Hfirst.
  rewrite <- Hr in Hpos, Hall, Hsplit, Hfirst. simpl in Hpos, Hall, Hfirst.
  assert (Hbucket : (best_offset, score) ∈ count_offsets matches).
  { rewrite Hsplit. apply elem_of_app. right. left. }
  apply count_offsets_elem in Hbucket as [Hsc _].
  split; [exact Hsc|]. split; [exact Hpos|]. split; [|exact Hfirst].
  intros d. pose proof (offset_count_nonneg d matches) as Hnn.
  destruct (Z.eq_dec (offset_count d matches) 0) as [Hz|Hnz]; [lia|].
  apply (Hall d). apply count_offsets_elem. split; [reflexivity|lia].
Qed.

Lemma score_songs_modal_offset_witness :
  let matches := matched_triples db_two_songs query_two_songs (Some 0) in
  (Some 0, (3, 2)) ∈ score_songs db_two_songs query_two_songs
  /\ 2 = offset_count 3 matches
  /\ 0 < 2
  /\ (forall d, offset_count d matches <= 2)
  /\ exists pre m post,
       matches = pre ++ m :: post /\ triple_delta m = 3
       /\ forall m', m' ∈ pre -> offset_count (triple_delta m') matches < 2.
Proof.
  assert (Hin : (Some 0, (3, 2)) ∈ score_songs db_two_songs query_two_songs)
    by (apply list_elem_of_In; vm_compute; left; reflexivity).
  split; [exact Hin|].
  exact (score_songs_modal_offset db_two_songs query_two_songs (Some 0) 3 2 Hin).
Defined.

(** ** Scoring: order, omission of unmatched songs, empty results *)

Lemma collect_matches_no_collision (database : Database) (hashes : dict Z HashEntry) :
  (forall h e, (h, e) ∈ hashes -> default [] (dict_get h database) = []) ->
  collect_matches database hashes = [].
Proof.
  unfold collect_matches, dict_items. intros Hnone.
  assert (Hgen : forall sm : dict SongId (list MatchTriple),
             fold_left
               (fun song_matches '(hash_val, (sample_time, _)) =>
                  match dict_get hash_val database with
                  | Some match_list =>
                      fold_left
                        (fun song_matches '(ref_time, song_index) =>
                           dict_append song_index (hash_val, sample_time, ref_time)
                                       song_matches)
                        match_list song_matches
                  | None => song_matches
                  end)
               hashes sm = sm); [|apply Hgen].
  induction hashes as [|[h [st sid]] hashes IH]; intros sm; simpl; [reflexivity|].
  assert (Hh : default [] (dict_get h database) = []) by (apply (Hnone h (st, sid)); left).
  destruct (dict_get h database) as [ml|]; simpl in Hh.
  - subst ml. simpl. apply IH. intros h' e' Hin. apply (Hnone h' e'). right. exact Hin.
  - apply IH. intros h' e' Hin. apply (Hnone h' e'). right. exact Hin.
Qed.

(** C6.  The list returned by [score_songs] is sorted by decreasing score
    and is a rearrangement of the items of [song_scores]: a song is in it
    exactly when it has at least one matched triple, and then with the
    tallest bucket of its offset histogram.  Hence every result has a
    positive score and songs without matching hashes are absent; when no
    query hash has a reference occurrence in the index the result is the
    empty list, and so it is for the empty index. *)
Theorem score_songs_sorted_nonzero (database : Database) (hashes : dict Z HashEntry) :
  StronglySorted (fun a b => result_score b <= result_score a)
                 (score_songs database hashes)
  /\ Permutation (score_songs database hashes)
                 (dict_items (song_scores (collect_matches database hashes)))
  /\ (forall song r,
        (song, r) ∈ score_songs database hashes
        <-> matched_triples database hashes song <> []
            /\ r = max_score (count_offsets (matched_triples database hashes song)))
  /\ Forall (fun r => 0 < result_score r
                      /\ matched_triples database hashes (fst r) <> [])
            (score_songs database hashes)
  /\ ((forall h e, (h, e) ∈ hashes -> default [] (dict_get h database) = []) ->
      score_songs database hashes = [])
  /\ score_songs [] hashes = [].
Proof.
  split; [|split; [|split; [|split; [|split]]]].
  - rewrite score_songs_eq. apply sorted_desc_sorted.
  - unfold score_songs. apply sorted_desc_perm.
  - intros song r. apply elem_of_score_songs.
  - apply List.Forall_forall. intros [song [off sc]] Hin.
    apply list_elem_of_In in Hin.
    pose proof (score_songs_positive database hashes song off sc Hin) as Hpos.
    apply elem_of_score_songs in Hin as [Hne _]. simpl. split; [exact Hpos|exact Hne].
  - intros Hnone. unfold score_songs.
    rewrite collect_matches_no_collision by exact Hnone. reflexivity.
  - unfold score_songs. rewrite collect_matches_no_collision; [reflexivity|].
    intros h e _. reflexivity.
Qed.

Lemma score_songs_sorted_nonzero_witness :
  score_songs db_unrelated query_two_songs = []
  /\ (Some 0, (3, 2)) ∈ score_songs db_two_songs query_two_songs
  /\ (Some 1, (7, 1)) ∈ score_songs db_two_songs query_two_songs
  /\ length (score_songs db_two_songs query_two_songs) = 2%nat.
Proof.
  split.
  - destruct (score_songs_sorted_nonzero db_unrelated query_two_songs)
      as (_ & _ & _ & _ & Hnone & _).
    apply Hnone. intros h e Hin. apply list_elem_of_In in Hin. simpl in Hin.
    destruct Hin as [[= <- <-]|[[= <- <-]|[[= <- <-]|[[= <- <-]|[]]]]]; reflexivity.
  - destruct (score_songs_sorted_nonzero db_two_songs query_two_songs)
      as (_ & Hperm & Hiff & _).
    split; [|split].
    + apply (proj2 (Hiff (Some 0) (3, 2))). vm_compute. split; [discriminate|reflexivity].
    + apply (proj2 (Hiff (Some 1) (7, 1))). vm_compute. split; [discriminate|reflexivity].
    + rewrite (Permutation_length Hperm). reflexivity.
Defined.

(** ** Index construction *)

Lemma add_to_index_get (database : Database) (hashes : dict Z HashEntry) (h : Z) :
  dict_get h (add_to_index database hashes)
  = extend (dict_get h database) (occurrences h hashes).
Proof.
  unfold add_to_index, dict_items, occurrences. revert database.
  induction hashes as [|[k e] hashes IH]; intros database; simpl; [reflexivity|].
  rewrite IH, dict_get_append, extend_app. reflexivity.
Qed.

Lemma build_index_from_get (items : list (nat * list Landmark)) (database : Database) h :
  dict_get h
    (fold_left (fun db '(idx, constellation_map) =>
                  add_to_index db (create_hashes constellation_map (Some (Z.of_nat idx))))
               items database)
  = extend (dict_get h database)
           (flat_map (fun p => occurrences h (song_hashes p)) items).
Proof.
  revert database. induction items as [|[idx cm] items IH]; intros database; simpl;
    [reflexivity|].
  rewrite IH, add_to_index_get, extend_app. reflexivity.
Qed.

Lemma index_size_set_present (database : Database) k l x :
  dict_get k database = Some l ->
  index_size (dict_set k (l ++ [x]) database) = S (index_size database).
Proof.
  unfold index_size. induction database as [|[k' l'] db IH]; simpl; [discriminate|].
  destruct (decide (k = k')) as [->|Hne].
  - intros [= ->]. simpl. rewrite !length_app. simpl. lia.
  - intros Hget. simpl. rewrite !length_app. rewrite IH by exact Hget. lia.
Qed.

Lemma index_size_append (database : Database) k x :
  index_size (dict_append k x database) = S (index_size database).
Proof.
  unfold dict_append, dict_upsert, dict_mem.
  destruct (dict_get k database) as [l|] eqn:E.
  - rewrite E. apply index_size_set_present, E.
  - rewrite dict_get_set_eq.
    rewrite index_size_set_present by apply dict_get_set_eq.
    rewrite dict_set_absent by (apply dict_get_None, E).
    unfold index_size. rewrite map_app, concat_app. simpl.
    rewrite length_app. simpl. lia.
Qed.

Lemma index_size_add (database : Database) (hashes : dict Z HashEntry) :
  index_size (add_to_index database hashes)
  = (index_size database + length hashes)%nat.
Proof.
  unfold add_to_index, dict_items. revert database.
  induction hashes as [|[k e] hashes IH]; intros database; simpl; [lia|].
  rewrite IH, index_size_append. lia.
Qed.

Lemma build_index_from_size (items : list (nat * list Landmark)) (database : Database) :
  index_size
    (fold_left (fun db '(idx, constellation_map) =>
                  add_to_index db (create_hashes constellation_map (Some (Z.of_nat idx))))
               items database)
  = (index_size database + list_sum (map (fun p => length (song_hashes p)) items))%nat.
Proof.
  revert database. induction items as [|[idx cm] items IH]; intros database; simpl;
    [lia|].
  rewrite IH, index_size_add. unfold song_hashes. simpl.
  symmetry. apply Nat.add_assoc.
Qed.

Lemma enumerate_snoc {A} (l : list A) (x : A) :
  enumerate (l ++ [x]) = enumerate l ++ [(length l, x)].
Proof.
  unfold enumerate.
  assert (Hgen : forall n, combine (seq n (length (l ++ [x]))) (l ++ [x])
                           = combine (seq n (length l)) l ++ [((n + length l)%nat, x)]).
  { induction l as [|y l IH]; intros n; simpl.
    - rewrite Nat.add_0_r. reflexivity.
    - rewrite IH. replace (S n + length l)%nat with (n + S (length l))%nat by lia.
      reflexivity. }
  apply Hgen.
Qed.

Lemma occurrences_elem h e (hashes : dict Z HashEntry) :
  (h, e) ∈ hashes -> e ∈ occurrences h hashes.
Proof.
  intros Hin. unfold occurrences. apply list_elem_of_In, in_flat_map.
  exists (h, e). split; [apply list_elem_of_In, Hin|].
  destruct (decide (h = h)); [left; reflexivity|contradiction].
Qed.

(** C5.  The build loop only appends.  Adding the hash mapping of one
    recording leaves, for every hash, the bucket already in the index as a
    prefix and appends that mapping's entries for the hash; the index grows by
    exactly one entry per generated hash.  Hence, for a whole corpus, the
    bucket of a hash is the concatenation, in corpus order, of the entries
    each recording generated for it; the index holds as many entries as the
    recordings generated hashes; indexing one more recording keeps every
    existing bucket as a prefix; and every [(hash, (time, song_id))] pair
    generated from any recording is found in the bucket of its hash. *)
Theorem build_index_append_only (corpus : list (list Landmark)) :
  (forall (database : Database) (hashes : dict Z HashEntry) h,
      dict_get h (add_to_index database hashes)
      = extend (dict_get h database) (occurrences h hashes))
  /\ (forall (database : Database) (hashes : dict Z HashEntry),
        index_size (add_to_index database hashes)
        = (index_size database + length hashes)%nat)
  /\ (forall h,
        dict_get h (build_index corpus)
        = extend None (flat_map (fun p => occurrences h (song_hashes p))
                                (enumerate corpus)))
  /\ index_size (build_index corpus)
     = list_sum (map (fun p => length (song_hashes p)) (enumerate corpus))
  /\ (forall cm h bucket,
        dict_get h (build_index corpus) = Some bucket ->
        exists ext, dict_get h (build_index (corpus ++ [cm])) = Some (bucket ++ ext))
  /\ (forall idx cm h e,
        corpus !! idx = Some cm ->
        (h, e) ∈ create_hashes cm (Some (Z.of_nat idx)) ->
        exists bucket, dict_get h (build_index corpus) = Some bucket /\ e ∈ bucket).
Proof.
  split; [apply add_to_index_get|]. split; [apply index_size_add|].
  split; [intros h; apply build_index_from_get|].
  split; [apply (build_index_from_size (enumerate corpus) [])|]. split.
  - intros cm h bucket Hget. unfold build_index. rewrite enumerate_snoc, fold_left_app.
    simpl. rewrite add_to_index_get. fold (build_index corpus). rewrite Hget.
    destruct (occurrences h _) as [|e es].
    + exists []. rewrite app_nil_r. reflexivity.
    + eexists. reflexivity.
  - intros idx cm h e Hidx Hin.
    pose proof (build_index_from_get (enumerate corpus) [] h) as Hget.
    fold (build_index corpus) in Hget. simpl in Hget.
    assert (He : e ∈ flat_map (fun p => occurrences h (song_hashes p)) (enumerate corpus)).
    { apply list_elem_of_In, in_flat_map. exists (idx, cm). split.
      - apply list_elem_of_In, elem_of_enumerate, Hidx.
      - apply list_elem_of_In, occurrences_elem. exact Hin. }
    destruct (flat_map _ (enumerate corpus)) as [|e0 es] eqn:Efm; [inversion He|].
    simpl in Hget. exists (e0 :: es). split; [exact Hget|exact He].
Qed.

Lemma build_index_append_only_witness :
  (exists ext,
      dict_get 2188307 (build_index (corpus_small ++ [cm_small]))
      = Some ([(0, Some 0); (0, Some 1)] ++ ext))
  /\ exists bucket,
       dict_get 2188307 (build_index corpus_small) = Some bucket
       /\ (0, Some 1) ∈ bucket.
Proof.
  destruct (build_index_append_only corpus_small) as (_ & _ & _ & _ & Hmono & Hall).
  split.
  - apply (Hmono cm_small 2188307 [(0, Some 0); (0, Some 1)]).
    vm_compute. reflexivity.
  - apply (Hall 1%nat cm_other 2188307 (0, Some 1)).
    + reflexivity.
    + apply list_elem_of_In. vm_compute. left. reflexivity.
Defined.

(** ** Matching a recording against its own index *)

Lemma dict_set_map_values {K V W} `{EqDecision K} (g : V -> W) (d : dict K V) k v :
  map (fun kv => (fst kv, g (snd kv))) (dict_set k v d)
  = dict_set k (g v) (map (fun kv => (fst kv, g (snd kv))) d).
Proof.
  induction d as [|[k' v'] d IH]; simpl; [reflexivity|].
  destruct (decide (k = k')); simpl; [reflexivity|]. f_equal. exact IH.
Qed.

Lemma create_hashes_retag cm song_id :
  create_hashes cm song_id
  = map (fun he => (fst he, (fst (snd he), song_id))) (create_hashes cm None).
Proof.
  rewrite !create_hashes_writes.
  assert (Hgen : forall ps (acc : dict Z HashEntry),
             fold_left (write_pair song_id) ps
                       (map (fun he => (fst he, (fst (snd he), song_id))) acc)
             = map (fun he => (fst he, (fst (snd he), song_id)))
                   (fold_left (write_pair None) ps acc)).
  { induction ps as [|p ps IH]; intros acc; simpl; [reflexivity|].
    rewrite <- IH. f_equal. unfold write_pair.
    rewrite (dict_set_map_values (fun e : HashEntry => (fst e, song_id))). reflexivity. }
  apply (Hgen _ []).
Qed.

Lemma dict_set_set {K V} `{EqDecision K} (d : dict K V) k v v' :
  dict_set k v (dict_set k v' d) = dict_set k v d.
Proof.
  induction d as [|[k0 v0] d IH]; simpl.
  - destruct (decide (k = k)); [reflexivity|contradiction].
  - destruct (decide (k = k0)) as [->|Hne]; simpl.
    + destruct (decide (k0 = k0)); [reflexivity|contradiction].
    + destruct (decide (k = k0)); [contradiction|]. f_equal. exact IH.
Qed.

Lemma dict_append_absent {K A} `{EqDecision K} (d : dict K (list A)) k x :
  k ∉ dict_keys d -> dict_append k x d = d ++ [(k, [x])].
Proof.
  intros Hk. unfold dict_append, dict_upsert.
  rewrite (proj2 (dict_mem_false d k) Hk), dict_get_set_eq, dict_set_set.
  apply dict_set_absent, Hk.
Qed.

Lemma add_to_index_fresh (database : Database) (hashes : dict Z HashEntry) :
  NoDup (dict_keys database ++ dict_keys hashes) ->
  add_to_index database hashes
  = database ++ map (fun he => (fst he, [snd he])) hashes.
Proof.
  unfold add_to_index, dict_items. revert database.
  induction hashes as [|[k e] hashes IH]; intros database Hnd; simpl.
  - rewrite app_nil_r. reflexivity.
  - assert (Hk : k ∉ dict_keys database).
    { apply NoDup_app in Hnd as (_ & Hdisj & _). intros Hin.
      apply (Hdisj k Hin). left. }
    rewrite dict_append_absent by exact Hk. rewrite IH.
    + rewrite <- app_assoc. reflexivity.
    + unfold dict_keys in *. rewrite map_app. simpl. rewrite <- app_assoc. exact Hnd.
Qed.

Lemma dict_single_key {K V} `{EqDecision K} (d : dict K V) k0 v0 :
  NoDup (dict_keys d) ->
  (forall k, dict_get k d = if decide (k = k0) then Some v0 else None) ->
  d = [(k0, v0)].
Proof.
  intros Hnd Hget. destruct d as [|[k1 v1] d].
  - specialize (Hget k0). simpl in Hget.
    destruct (decide (k0 = k0)); [discriminate|contradiction].
  - pose proof (Hget k1) as H1. simpl in H1.
    destruct (decide (k1 = k1)); [|contradiction].
    destruct (decide (k1 = k0)) as [->|Hne]; [|discriminate].
    injection H1 as ->. f_equal.
    destruct d as [|[k2 v2] d]; [reflexivity|]. exfalso.
    simpl in Hnd. apply NoDup_cons in Hnd as [Hk0 _].
    pose proof (Hget k2) as H2. simpl in H2.
    destruct (decide (k2 = k0)) as [->|Hne].
    + apply Hk0. left.
    + destruct (decide (k2 = k2)); [discriminate|contradiction].
Qed.

Lemma flat_map_ext_elem {A B} (f g : A -> list B) (l : list A) :
  (forall x, x ∈ l -> f x = g x) -> flat_map f l = flat_map g l.
Proof.
  induction l as [|x l IH]; intros Hfg; simpl; [reflexivity|].
  rewrite Hfg by left. f_equal. apply IH. intros y Hy. apply Hfg. right. exact Hy.
Qed.

Lemma flat_map_nil {A B} (l : list A) : flat_map (fun _ : A => @nil B) l = [].
Proof. induction l; simpl; auto. Qed.

Lemma flat_map_singleton {A B} (f : A -> B) (l : list A) :
  flat_map (fun x => [f x]) l = map f l.
Proof. induction l as [|x l IH]; simpl; [reflexivity|]. rewrite IH. reflexivity. Qed.

Lemma index_of_recording_eq cm song_id :
  index_of_recording cm song_id
  = map (fun he => (fst he, [(fst (snd he), Some song_id)])) (create_hashes cm None).
Proof.
  unfold index_of_recording. rewrite add_to_index_fresh.
  - simpl. rewrite create_hashes_retag, map_map. reflexivity.
  - simpl. apply create_hashes_NoDup.
Qed.

Lemma index_of_recording_get cm song_id h t s :
  (h, (t, s)) ∈ create_hashes cm None ->
  dict_get h (index_of_recording cm song_id) = Some [(t, Some song_id)].
Proof.
  intros Hin. apply elem_dict_get.
  - rewrite index_of_recording_eq. unfold dict_keys. rewrite map_map. simpl.
    apply (create_hashes_NoDup cm None).
  - rewrite index_of_recording_eq. apply list_elem_of_fmap.
    exists (h, (t, s)). split; [reflexivity|exact Hin].
Qed.

Lemma self_matched_triples cm song_id song :
  matched_triples (index_of_recording cm song_id) (create_hashes cm None) song
  = if decide (Some song_id = song)
    then map (fun he => (fst he, fst (snd he), fst (snd he))) (create_hashes cm None)
    else [].
Proof.
  unfold matched_triples.
  destruct (decide (Some song_id = song)) as [Heq|Hne].
  - rewrite <- flat_map_singleton. apply flat_map_ext_elem.
    intros [h [t s]] Hin. rewrite (index_of_recording_get cm song_id h t s Hin).
    simpl. rewrite app_nil_r. case_decide; [reflexivity|contradiction].
  - transitivity (flat_map (fun _ : Z * HashEntry => @nil MatchTriple)
                           (create_hashes cm None)); [|apply flat_map_nil].
    apply flat_map_ext_elem.
    intros [h [t s]] Hin. rewrite (index_of_recording_get cm song_id h t s Hin).
    simpl. rewrite app_nil_r. case_decide; [contradiction|reflexivity].
Qed.

Lemma offset_count_self (l : list (Z * (Z * SongId))) d :
  offset_count d (map (fun he : Z * (Z * SongId) => (fst he, fst (snd he), fst (snd he))) l)
  = if decide (d = 0) then Z.of_nat (length l) else 0.
Proof.
  induction l as [|[h [t s]] l IH].
  - destruct (decide (d = 0)); reflexivity.
  - rewrite map_cons, offset_count_cons, IH. unfold triple_delta. simpl.
    rewrite Z.sub_diag. destruct (decide (d = 0)) as [->|Hne].
    + simpl. lia.
    + destruct (Z.eqb_spec 0 d); [congruence|reflexivity].
Qed.

Lemma common_hashes_self cm song_id :
  common_hashes (index_of_recording cm song_id) (create_hashes cm None)
  = Z.of_nat (length (create_hashes cm None)).
Proof.
  unfold common_hashes. f_equal. f_equal.
  assert (Hall : forall he, he ∈ create_hashes cm None ->
                   dict_mem (fst he) (index_of_recording cm song_id) = true).
  { intros [h [t s]] Hin. unfold dict_mem. simpl.
    rewrite (index_of_recording_get cm song_id h t s Hin). reflexivity. }
  induction (create_hashes cm None) as [|he l IH]; simpl; [reflexivity|].
  rewrite Hall by left. f_equal. apply IH. intros he' Hin. apply Hall. right. exact Hin.
Qed.

Lemma self_count_offsets (l : list (Z * (Z * SongId))) :
  l <> [] ->
  count_offsets (map (fun he : Z * (Z * SongId) => (fst he, fst (snd he), fst (snd he))) l)
  = [(0, Z.of_nat (length l))].
Proof.
  intros Hne. apply dict_single_key; [apply count_offsets_NoDup|].
  intros d. rewrite count_offsets_get, offset_count_self.
  destruct (decide (d = 0)) as [->|Hd]; [|reflexivity].
  destruct l; [contradiction|]. reflexivity.
Qed.

Lemma max_score_single n : 0 <= n -> max_score [(0, n)] = (0, n).
Proof.
  intros Hn. unfold max_score, max_score_from. simpl.
  destruct (Z.gtb_spec n 0); [reflexivity|]. f_equal. lia.
Qed.

Lemma self_collect_matches cm song_id :
  create_hashes cm None <> [] ->
  collect_matches (index_of_recording cm song_id) (create_hashes cm None)
  = [(Some song_id,
      map (fun he : Z * (Z * SongId) => (fst he, fst (snd he), fst (snd he)))
          (create_hashes cm None))].
Proof.
  intros Hne. apply dict_single_key; [apply collect_matches_NoDup|].
  intros song. rewrite collect_matches_get, self_matched_triples.
  destruct (decide (song = Some song_id)) as [->|Hs].
  - destruct (decide (Some song_id = Some song_id)); [|contradiction].
    destruct (create_hashes cm None); [contradiction|reflexivity].
  - destruct (decide (Some song_id = song)); [congruence|reflexivity].
Qed.

(** C1 (as amended).  For every recording whose constellation map yields at
    least one hash: matching its own query hash mapping ([song_id = None])
    against the index built from that recording alone returns exactly one
    result, the recording's song id, with offset 0 and score equal to the
    number of query hashes present in the index, which is the number of
    hashes of the recording.  [build_index] on the one-recording corpus is
    that index with song id 0. *)
Theorem self_match (cm : list Landmark) (song_id : Z) :
  create_hashes cm None <> [] ->
  let index := index_of_recording cm song_id in
  let query := create_hashes cm None in
  score_songs index query = [(Some song_id, (0, common_hashes index query))]
  /\ common_hashes index query = Z.of_nat (length query)
  /\ build_index [cm] = index_of_recording cm 0.
Proof.
  intros Hne index query. split; [|split].
  - unfold index, query. rewrite common_hashes_self, score_songs_eq.
    rewrite self_collect_matches by exact Hne. simpl.
    rewrite self_count_offsets by exact Hne.
    rewrite max_score_single by lia. reflexivity.
  - apply common_hashes_self.
  - reflexivity.
Qed.

Lemma self_match_witness :
  create_hashes cm_small None <> []
  /\ score_songs (index_of_recording cm_small 7) (create_hashes cm_small None)
  = [(Some 7, (0, common_hashes (index_of_recording cm_small 7)
                                (create_hashes cm_small None)))]
  /\ common_hashes (index_of_recording cm_small 7) (create_hashes cm_small None)
     = Z.of_nat (length (create_hashes cm_small None))
  /\ build_index [cm_small] = index_of_recording cm_small 0.
Proof.
  assert (Hne : create_hashes cm_small None <> []) by (vm_compute; discriminate).
  split; [exact Hne|]. exact (self_match cm_small 7 Hne).
Defined.

(** C1, refuted as stated.  A recording without spectral peaks (digital
    silence) has the empty constellation map: its hash mapping and the index
    built from it are empty, and [score_songs] returns the empty list, which
    has no top result. *)
Lemma self_match_counterexample :
  ~ (forall (cm : list Landmark) (song_id : Z),
       exists rest,
         score_songs (index_of_recording cm song_id) (create_hashes cm None)
         = (Some song_id,
            (0, common_hashes (index_of_recording cm song_id) (create_hashes cm None)))
           :: rest).
Proof.
  intros Hclaim. destruct (Hclaim [] 0) as [rest Hrest].
  vm_compute in Hrest. discriminate Hrest.
Qed.

(** The same happens when all landmarks lie in two adjacent windows: no pair
    passes the time-delta filter. *)
Example self_match_two_windows :
  create_hashes cm_two_windows None = []
  /\ score_songs (index_of_recording cm_two_windows 0)
                 (create_hashes cm_two_windows None) = [].
Proof. vm_compute. split; reflexivity. Qed.

(** ** The extractor: window size, padding and framing *)

Example toy_extract_ex1 :
  toy_extract [5; 6; 7] 4
  = inr [(0, 0 # 2); (0, 4 # 2); (1, 0 # 2); (1, 4 # 2); (2, 0 # 2); (2, 4 # 2);
         (3, 0 # 2); (3, 4 # 2); (4, 0 # 2); (4, 4 # 2)].
Proof. vm_compute. reflexivity. Qed.

Lemma int_half sample_rate :
  int_of_Q (sample_window_duration * inject_Z sample_rate) = Z.quot sample_rate 2.
Proof.
  unfold int_of_Q, sample_window_duration. simpl. f_equal.
  destruct sample_rate; reflexivity.
Qed.

Lemma sample_window_size_eq sample_rate :
  sample_window_size sample_rate = Z.quot sample_rate 2 + (Z.quot sample_rate 2) mod 2.
Proof. unfold sample_window_size. rewrite int_half. reflexivity. Qed.

Lemma sample_window_size_even sample_rate :
  exists h, sample_window_size sample_rate = 2 * h.
Proof.
  rewrite sample_window_size_eq. set (w := Z.quot sample_rate 2).
  exists (w / 2 + w mod 2). pose proof (Z.div_mod w 2). lia.
Qed.

Lemma sample_window_size_nonpos sample_rate :
  sample_rate <= 0 -> sample_window_size sample_rate <= 0.
Proof.
  intros Hle. rewrite sample_window_size_eq. set (w := Z.quot sample_rate 2).
  assert (Hw : w <= 0).
  { unfold w. rewrite <- (Z.opp_involutive sample_rate), Z.quot_opp_l by lia.
    assert (0 <= Z.quot (- sample_rate) 2) by (apply Z.quot_pos; lia). lia. }
  pose proof (Z.mod_pos_bound w 2). pose proof (Z.div_mod w 2). lia.
Qed.

Lemma padded_length_windows size window :
  0 < window -> padded_length size window = (size / window + 1) * window.
Proof.
  intros Hw. unfold padded_length. pose proof (Z.div_mod size window). lia.
Qed.

Lemma stft_frame_count_padded m h :
  0 < h -> stft_frame_count (m * (2 * h)) (2 * h) = 2 * m + 1.
Proof.
  intros Hh. unfold stft_frame_count, stft_extended_length, stft_hop, stft_noverlap.
  replace (2 * h / 2) with h by (rewrite Z.mul_comm, Z.div_mul; lia).
  replace (2 * h - h) with h by lia.
  replace (- (m * (2 * h) + 2 * h - 2 * h)) with ((- (2 * m)) * h) by lia.
  rewrite Z_mod_mult. rewrite Z.mod_0_l by lia.
  replace (m * (2 * h) + 2 * h + 0 - h) with ((2 * m + 1) * h) by lia.
  apply Z.div_mul. lia.
Qed.

Section ExtractorFacts.
Context {Sample Mag Prom : Type}.
Variable zero : Sample.
Variable segment_spectrum : list Sample -> list Mag.
Variable find_peaks : list Mag -> list nat * list Prom.
Variable argpartition : list Prom -> Z -> result (list nat).

Lemma pad_audio_ok (audio : list Sample) sample_rate :
  0 < sample_window_size sample_rate ->
  exists padded,
    pad_audio zero audio sample_rate = inr padded
    /\ Z.of_nat (length padded)
       = padded_length (Z.of_nat (length audio)) (sample_window_size sample_rate).
Proof.
  intros Hw. unfold pad_audio, pad_amount.
  set (w := sample_window_size sample_rate) in *.
  set (n := Z.of_nat (length audio)).
  destruct (Z.eqb_spec w 0) as [Hz|_]; [lia|]. simpl. unfold np_pad.
  pose proof (Z.mod_pos_bound n w Hw) as Hmod.
  destruct (Z.ltb_spec (w - n mod w) 0) as [Hneg|_]; [lia|].
  eexists. split; [reflexivity|].
  rewrite length_app, repeat_length, Nat2Z.inj_add, Z2Nat.id by lia.
  reflexivity.
Qed.

Lemma pad_audio_rejects (audio : list Sample) sample_rate :
  sample_window_size sample_rate <= 0 ->
  pad_audio zero audio sample_rate
  = inl (if sample_window_size sample_rate =? 0 then ZeroDivisionError else ValueError).
Proof.
  intros Hw. unfold pad_audio, pad_amount.
  set (w := sample_window_size sample_rate) in *.
  set (n := Z.of_nat (length audio)).
  destruct (Z.eqb_spec w 0) as [Hz|Hnz]; [reflexivity|]. simpl. unfold np_pad.
  assert (Hmod : w < n mod w <= 0) by (apply Z.mod_neg_bound; lia).
  destruct (Z.ltb_spec (w - n mod w) 0) as [_|Hge]; [reflexivity|lia].
Qed.

Lemma stft_segments_length (x : list Sample) nperseg :
  length (stft_segments zero x nperseg)
  = Z.to_nat (stft_frame_count (Z.of_nat (length x)) nperseg).
Proof. unfold stft_segments. rewrite length_map, length_seq. reflexivity. Qed.
End ExtractorFacts.

(** ** The extractor: landmarks per window *)

Lemma mapM_length {A B} (f : A -> result B) (l : list A) (l' : list B) :
  mapM f l = inr l' -> length l' = length l.
Proof.
  revert l'. induction l as [|x l IH]; intros l'; simpl.
  - intros [= <-]. reflexivity.
  - destruct (f x) as [e|y]; simpl; [discriminate|].
    destruct (mapM f l) as [e|ys]; simpl; [discriminate|].
    intros [= <-]. simpl. f_equal. apply IH. reflexivity.
Qed.

Lemma slice_from_neg_length {A} (n : nat) (a : list A) :
  (n <= length a)%nat -> (n = 0%nat -> length a = 0%nat) ->
  length (slice_from (- Z.of_nat n) a) = n.
Proof.
  intros Hle Hzero. unfold slice_from.
  destruct (Z.ltb_spec (- Z.of_nat n) 0) as [Hneg|Hnn]; rewrite length_drop.
  - lia.
  - assert (n = 0%nat) by lia. subst n. rewrite Hzero by reflexivity. simpl. lia.
Qed.

Lemma lookup_enumerate {A} (l : list A) (i : nat) :
  enumerate l !! i = (fun x => (i, x)) <$> l !! i.
Proof.
  unfold enumerate.
  assert (Hgen : forall n, combine (seq n (length l)) l !! i
                           = (fun x => ((n + i)%nat, x)) <$> l !! i); [|apply (Hgen 0%nat)].
  revert i. induction l as [|y l IH]; intros i n; simpl; [reflexivity|].
  destruct i as [|i]; simpl.
  - rewrite Nat.add_0_r. reflexivity.
  - rewrite IH. replace (S n + i)%nat with (n + S i)%nat by lia. reflexivity.
Qed.

Section LandmarkFacts.
Context {Sample Mag Prom : Type}.
Variable zero : Sample.
Variable segment_spectrum : list Sample -> list Mag.
Variable find_peaks : list Mag -> list nat * list Prom.
Variable argpartition : list Prom -> Z -> result (list nat).

(** [find_peaks] returns one prominence per peak; [argpartition], when it
  returns, returns a rearrangement of the positions of its argument. *)
Hypothesis find_peaks_lengths :
forall spectrum, length (fst (find_peaks spectrum)) = length (snd (find_peaks spectrum)).
Hypothesis argpartition_length :
forall a kth order, argpartition a kth = inr order -> length order = length a.

Lemma window_landmarks_spec frequencies time_idx window landmarks :
window_landmarks segment_spectrum find_peaks argpartition frequencies time_idx window
= inr landmarks ->
(length landmarks <= num_peaks)%nat
/\ forall lm, lm ∈ landmarks -> fst lm = Z.of_nat time_idx.
Proof.
unfold window_landmarks.
pose proof (find_peaks_lengths (segment_spectrum window)) as Hlen.
destruct (find_peaks (segment_spectrum window)) as [peaks prominences].
simpl in Hlen.
destruct (argpartition prominences (- Z.of_nat (Nat.min num_peaks (length peaks))))
  as [e|order] eqn:Eorder; cbn [bind]; [discriminate|].
apply argpartition_length in Eorder.
destruct (mapM (index peaks) _) as [e|selected] eqn:Esel; cbn [bind]; [discriminate|].
destruct (mapM (index frequencies) selected) as [e|found] eqn:Efound; cbn [bind];
  [discriminate|].
intros [= <-]. apply mapM_length in Esel. apply mapM_length in Efound. split.
- rewrite length_map, Efound, Esel.
  rewrite slice_from_neg_length; unfold num_peaks; lia.
- intros lm Hin. apply list_elem_of_fmap in Hin as [f [-> _]]. reflexivity.
Qed.

Lemma collect_from_error frequencies (windows : list (nat * list Sample)) e :
fold_left (fun acc '(time_idx, window) =>
             let* constellation_map := acc in
             let* landmarks :=
               window_landmarks segment_spectrum find_peaks argpartition
                                frequencies time_idx window in
             ret (constellation_map ++ landmarks))
          windows (inl e)
= inl e.
Proof. induction windows as [|[t w] windows IH]; simpl; [reflexivity|exact IH]. Qed.

Lemma collect_from_spec frequencies (windows : list (nat * list Sample)) acc cm :
fold_left (fun acc '(time_idx, window) =>
             let* constellation_map := acc in
             let* landmarks :=
               window_landmarks segment_spectrum find_peaks argpartition
                                frequencies time_idx window in
             ret (constellation_map ++ landmarks))
          windows (inr acc)
= inr cm ->
exists parts,
  cm = acc ++ concat parts
  /\ Forall2 (fun w part =>
                window_landmarks segment_spectrum find_peaks argpartition
                                 frequencies (fst w) (snd w) = inr part)
             windows parts.
Proof.
revert acc. induction windows as [|[t w] windows IH]; intros acc; simpl.
- intros [= <-]. exists []. simpl. rewrite app_nil_r. split; [reflexivity|constructor].
- destruct (window_landmarks _ _ _ frequencies t w) as [e|part] eqn:Ew; simpl.
  + rewrite collect_from_error. discriminate.
  + intros Hfold. apply IH in Hfold as (parts & -> & Hall).
    exists (part :: parts). simpl. rewrite <- app_assoc.
    split; [reflexivity|]. constructor; [exact Ew|exact Hall].
Qed.

Lemma create_constellation_map_parts (audio padded : list Sample) sample_rate cm :
pad_audio zero audio sample_rate = inr padded ->
create_constellation_map zero segment_spectrum find_peaks argpartition audio sample_rate
= inr cm ->
exists parts,
  cm = concat parts
  /\ length parts
     = length (stft_segments zero padded (sample_window_size sample_rate))
  /\ forall t part, parts !! t = Some part ->
       (length part <= num_peaks)%nat
       /\ forall lm, lm ∈ part -> fst lm = Z.of_nat t.
Proof.
intros Hpad. unfold create_constellation_map. rewrite Hpad. simpl.
unfold collect_landmarks. intros Hfold.
apply collect_from_spec in Hfold as (parts & -> & Hall).
exists parts. split; [reflexivity|].
pose proof (Forall2_length _ _ _ Hall) as Hlen.
split.
- rewrite <- Hlen. unfold enumerate. rewrite length_combine, length_seq. lia.
- intros t part Hpart.
  destruct (Forall2_lookup_r _ _ _ _ _ Hall Hpart) as ([t' w] & Hw & Hspec).
  rewrite lookup_enumerate in Hw.
  destruct (stft_segments zero padded (sample_window_size sample_rate) !! t)
    as [seg|]; simpl in Hw; [|discriminate].
  injection Hw as <- <-. simpl in Hspec.
  exact (window_landmarks_spec _ _ _ _ Hspec).
Qed.
End LandmarkFacts.

(** ** The extractor: framing of the transform *)

(** C4 (as amended).  With a positive window size, the input is padded to
    [size / window + 1] whole windows (a full window is added when the size is
    already a multiple), and the transform is taken with the library-default
    half-window overlap: the hop is half the window and the padded buffer
    yields [2 * (size / window + 1) + 1] spectra.  For 10 seconds at 44100 Hz
    (441000 samples, window 22050) that is 21 windows of padded audio and 43
    spectra.  When the extractor returns, the constellation map is the
    concatenation, in time order, of one landmark list per spectrum, each of
    at most 15 landmarks carrying the index of its spectrum. *)
Theorem extractor_framing {Sample Mag Prom : Type} (zero : Sample)
    (segment_spectrum : list Sample -> list Mag)
    (find_peaks : list Mag -> list nat * list Prom)
    (argpartition : list Prom -> Z -> result (list nat))
    (audio : list Sample) (sample_rate : Z) :
  (forall spectrum,
      length (fst (find_peaks spectrum)) = length (snd (find_peaks spectrum))) ->
  (forall a kth order, argpartition a kth = inr order -> length order = length a) ->
  0 < sample_window_size sample_rate ->
  let window := sample_window_size sample_rate in
  let size := Z.of_nat (length audio) in
  2 * stft_hop window = window
  /\ (sample_window_size 44100 = 22050
      /\ padded_length 441000 22050 = 21 * 22050
      /\ stft_hop 22050 = 11025
      /\ stft_frame_count (padded_length 441000 22050) 22050 = 43)
  /\ exists padded,
       pad_audio zero audio sample_rate = inr padded
       /\ Z.of_nat (length padded) = padded_length size window
       /\ padded_length size window = (size / window + 1) * window
       /\ Z.of_nat (length (stft_segments zero padded window))
          = stft_frame_count (padded_length size window) window
       /\ stft_frame_count (padded_length size window) window
          = 2 * (size / window + 1) + 1
       /\ forall cm,
            create_constellation_map zero segment_spectrum find_peaks argpartition
                                     audio sample_rate = inr cm ->
            exists parts,
              cm = concat parts
              /\ length parts = length (stft_segments zero padded window)
              /\ forall t part, parts !! t = Some part ->
                   (length part <= num_peaks)%nat
                   /\ forall lm, lm ∈ part -> fst lm = Z.of_nat t.
Proof.
  intros Hfp Harg Hw window size.
  destruct (sample_window_size_even sample_rate) as [h Hh]. fold window in Hh, Hw.
  assert (Hhpos : 0 < h) by lia.
  assert (Hframes : stft_frame_count (padded_length size window) window
                    = 2 * (size / window + 1) + 1).
  { rewrite padded_length_windows by exact Hw. rewrite Hh.
    apply stft_frame_count_padded, Hhpos. }
  split.
  { unfold stft_hop, stft_noverlap. rewrite Hh.
    replace (2 * h / 2) with h by (rewrite Z.mul_comm, Z.div_mul; lia). lia. }
  split; [repeat split|].
  destruct (pad_audio_ok zero audio sample_rate Hw) as (padded & Hpad & Hlen).
  fold window size in Hlen.
  exists padded. split; [exact Hpad|]. split; [exact Hlen|].
  split; [apply padded_length_windows, Hw|].
  assert (Hseg : Z.of_nat (length (stft_segments zero padded window))
                 = stft_frame_count (padded_length size window) window).
  { rewrite stft_segments_length, Hlen, Z2Nat.id; [reflexivity|].
    rewrite Hframes. pose proof (Z.div_pos size window). lia. }
  split; [exact Hseg|]. split; [exact Hframes|].
  intros cm Hcm.
  exact (create_constellation_map_parts zero segment_spectrum find_peaks argpartition
           Hfp Harg audio padded sample_rate cm Hpad Hcm).
Qed.

Lemma extractor_framing_witness :
  0 < sample_window_size 4
  /\ exists padded,
       pad_audio 0 [5; 6; 7] 4 = inr padded
       /\ Z.of_nat (length padded) = padded_length 3 2
       /\ Z.of_nat (length (stft_segments 0 padded 2)) = 5
       /\ forall cm,
            toy_extract [5; 6; 7] 4 = inr cm ->
            exists parts,
              cm = concat parts
              /\ length parts = length (stft_segments 0 padded 2)
              /\ forall t part, parts !! t = Some part ->
                   (length part <= num_peaks)%nat
                   /\ forall lm, lm ∈ part -> fst lm = Z.of_nat t.
Proof.
  assert (Hw : 0 < sample_window_size 4) by reflexivity.
  split; [exact Hw|].
  destruct (extractor_framing 0 toy_spectrum toy_find_peaks toy_argpartition
              [5; 6; 7] 4) as (_ & _ & padded & Hpad & Hlen & _ & Hseg & Hfr & Hparts).
  - intros spectrum. simpl. apply length_seq.
  - intros a kth order [= <-]. apply length_seq.
  - exact Hw.
  - exists padded. split; [exact Hpad|]. split; [exact Hlen|].
    split; [rewrite Hfr in Hseg; exact Hseg|]. exact Hparts.
Defined.

(** C4, refuted as stated.  For the 10-second input at 44100 Hz the hop of
    the transform is 11025 samples, half the window of 22050, not the window;
    the padded audio spans 21 windows and the transform has 43 spectra:
    neither count is 20. *)
Lemma extractor_framing_counterexample :
  let window := sample_window_size 44100 in
  let padded := padded_length 441000 window in
  window = 22050
  /\ stft_hop window = 11025 /\ stft_hop window <> window
  /\ padded / window = 21 /\ padded / window <> 20
  /\ stft_frame_count padded window = 43 /\ stft_frame_count padded window <> 20.
Proof. vm_compute. repeat split; congruence. Qed.

(** ** The extractor: non-positive sample rates *)

Example extractor_rate_zero : toy_extract [5; 6; 7] 0 = inl ZeroDivisionError.
Proof. reflexivity. Qed.

Example extractor_rate_negative : toy_extract [5; 6; 7] (-44100) = inl ValueError.
Proof. vm_compute. reflexivity. Qed.

(** ** The two copies of the core functions agree *)

Lemma bind_ext {A B} (m : result A) (f g : A -> result B) :
  (forall x, f x = g x) -> bind m f = bind m g.
Proof. intros Hfg. destruct m; simpl; [reflexivity|apply Hfg]. Qed.

(** C10.  The functions of [app.py] compute the same values as those of
    [song_recognizer.py]: [create_constellation_map] (for the same numeric
    kernels) and [create_hashes] on every input, and [score_songs(hashes,
    database)] of [app.py] equals [score_songs(hashes)] of
    [song_recognizer.py] run with the global [database] bound to the same
    value. *)
Theorem app_agrees_with_song_recognizer {Sample Mag Prom : Type} (zero : Sample)
    (segment_spectrum : list Sample -> list Mag)
    (find_peaks : list Mag -> list nat * list Prom)
    (argpartition : list Prom -> Z -> result (list nat)) :
  (forall audio sample_rate,
      App.create_constellation_map zero segment_spectrum find_peaks argpartition
                                   audio sample_rate
      = create_constellation_map zero segment_spectrum find_peaks argpartition
                                 audio sample_rate)
  /\ (forall constellation_map song_id,
        App.create_hashes constellation_map song_id
        = create_hashes constellation_map song_id)
  /\ (forall hashes database,
        App.score_songs hashes database = score_songs database hashes).
Proof.
  split; [|split].
  - intros audio sample_rate.
    unfold App.create_constellation_map, create_constellation_map, pad_audio,
      pad_amount, collect_landmarks, sample_window_size, sample_window_duration.
    cbv zeta.
    destruct (_ =? 0); cbn [bind raise ret]; [reflexivity|].
    destruct (np_pad zero audio _) as [e|padded]; cbn [bind]; [reflexivity|].
    apply fold_left_ext. intros acc [time_idx window].
    apply bind_ext. intros cm. unfold window_landmarks.
    destruct (find_peaks (segment_spectrum window)) as [peaks prominences].
    unfold num_peaks.
    destruct (argpartition prominences _) as [e|order]; cbn [bind]; [reflexivity|].
    destruct (mapM (index peaks) _) as [e|selected]; cbn [bind]; [reflexivity|].
    destruct (mapM (index _) selected) as [e|found]; cbn [bind]; reflexivity.
  - intros cm song_id. unfold App.create_hashes, create_hashes.
    apply fold_left_ext. intros hashes [idx [time freq]].
    apply fold_left_ext. intros acc [other_time other_freq]. reflexivity.
  - intros hashes database.
    unfold App.score_songs, score_songs, song_scores, collect_matches.
    cbv zeta. f_equal. f_equal.
    apply fold_left_ext. intros scores [song_index matches]. f_equal.
    unfold max_score, max_score_from, count_offsets. f_equal.
    + apply fold_left_ext. intros os [[h st] rt]. reflexivity.
Qed.

(* ================================================================= *)
(** * Further properties of the hasher *)

Lemma enumerate_map {A B} (f : A -> B) (l : list A) :
  enumerate (map f l) = map (fun p => (fst p, f (snd p))) (enumerate l).
Proof.
  unfold enumerate. rewrite length_map. generalize 0%nat.
  induction l as [|x l IH]; intros n; simpl; [reflexivity|].
  rewrite IH. reflexivity.
Qed.

Lemma slice_map {A B} (f : A -> B) (l : list A) lo hi :
  slice (map f l) lo hi = map f (slice l lo hi).
Proof. unfold slice. rewrite skipn_map, firstn_map. reflexivity. Qed.

Lemma flat_map_map {A B C} (f : A -> B) (g : B -> list C) (l : list A) :
  flat_map g (map f l) = flat_map (fun x => g (f x)) l.
Proof. induction l as [|x l IH]; simpl; [reflexivity|]. rewrite IH. reflexivity. Qed.

Lemma map_flat_map {A B C} (f : B -> C) (g : A -> list B) (l : list A) :
  map f (flat_map g l) = flat_map (fun x => map f (g x)) l.
Proof.
  induction l as [|x l IH]; simpl; [reflexivity|]. rewrite map_app, IH. reflexivity.
Qed.

Lemma filter_map_comm {A B} (f : A -> B) (p : B -> bool) (l : list A) :
  List.filter p (map f l) = map f (List.filter (fun x => p (f x)) l).
Proof.
  induction l as [|x l IH]; simpl; [reflexivity|].
  destruct (p (f x)); simpl; rewrite IH; reflexivity.
Qed.

Lemma filter_ext_eq {A} (p q : A -> bool) (l : list A) :
  (forall x, p x = q x) -> List.filter p l = List.filter q l.
Proof.
  intros Hpq. induction l as [|x l IH]; simpl; [reflexivity|].
  rewrite Hpq, IH. reflexivity.
Qed.

Lemma candidate_pairs_shift k cm :
  candidate_pairs (shift_time k cm) = map (shift_pair k) (candidate_pairs cm).
Proof.
  unfold candidate_pairs, shift_time.
  rewrite enumerate_map, flat_map_map, map_flat_map.
  apply flat_map_ext_elem. intros [idx [t f]] _. simpl.
  rewrite slice_map, !map_map. reflexivity.
Qed.

Lemma time_diff_shift k p : time_diff_of (shift_pair k p) = time_diff_of p.
Proof. unfold time_diff_of, shift_pair. simpl. lia. Qed.

Lemma pair_hash_shift k p : pair_hash (shift_pair k p) = pair_hash p.
Proof.
  unfold pair_hash, shift_pair, hash_val. simpl.
  replace (fst (snd p) + k - (fst (fst p) + k)) with (fst (snd p) - fst (fst p)) by lia.
  reflexivity.
Qed.

Lemma emitted_pairs_shift k cm :
  emitted_pairs (shift_time k cm) = map (shift_pair k) (emitted_pairs cm).
Proof.
  unfold emitted_pairs. rewrite candidate_pairs_shift, filter_map_comm. f_equal.
  apply filter_ext_eq. intros p. rewrite time_diff_shift. reflexivity.
Qed.

Lemma writes_shift k song_id ps (acc : dict Z HashEntry) :
  fold_left (write_pair song_id) (map (shift_pair k) ps) (shift_entries k acc)
  = shift_entries k (fold_left (write_pair song_id) ps acc).
Proof.
  revert acc. induction ps as [|p ps IH]; intros acc; simpl; [reflexivity|].
  rewrite <- IH. f_equal. unfold write_pair, shift_entries.
  rewrite pair_hash_shift.
  rewrite (dict_set_map_values (fun e : HashEntry => (fst e + k, snd e))). reflexivity.
Qed.

(** X1.  The hash keys do not depend on where the sound starts: moving every
    landmark of a constellation map by [k] windows gives the same mapping, in
    the same order, with every stored anchor time moved by [k]. *)
Theorem create_hashes_time_shift (k : Z) (cm : list Landmark) (song_id : SongId) :
  create_hashes (shift_time k cm) song_id = shift_entries k (create_hashes cm song_id)
  /\ dict_keys (create_hashes (shift_time k cm) song_id)
     = dict_keys (create_hashes cm song_id).
Proof.
  assert (Heq : create_hashes (shift_time k cm) song_id
                = shift_entries k (create_hashes cm song_id)).
  { rewrite !create_hashes_writes, emitted_pairs_shift.
    apply (writes_shift k song_id (emitted_pairs cm) []). }
  split; [exact Heq|]. rewrite Heq. unfold dict_keys, shift_entries.
  rewrite map_map. reflexivity.
Qed.

(** X2.  The song identifier only labels the entries: two calls on the same
    constellation map produce the same keys with the same anchor times, in the
    same order, and every entry carries the identifier that was passed. *)
Theorem create_hashes_song_id_label (cm : list Landmark) (s1 s2 : SongId) :
  map (fun he => (fst he, fst (snd he))) (create_hashes cm s1)
  = map (fun he => (fst he, fst (snd he))) (create_hashes cm s2)
  /\ Forall (fun he => snd (snd he) = s1) (create_hashes cm s1).
Proof.
  split.
  - rewrite (create_hashes_retag cm s1), (create_hashes_retag cm s2), !map_map.
    reflexivity.
  - rewrite (create_hashes_retag cm s1). apply List.Forall_forall.
    intros he Hin. apply in_map_iff in Hin as [he' [<- _]]. reflexivity.
Qed.

Lemma writes_get_last song_id ps (acc : dict Z HashEntry) h :
  dict_get h (fold_left (write_pair song_id) ps acc)
  = match last_pair_with_hash h ps with
    | Some p => Some (fst (fst p), song_id)
    | None => dict_get h acc
    end.
Proof.
  unfold last_pair_with_hash. revert acc.
  induction ps as [|p ps IH] using rev_ind; intros acc; [reflexivity|].
  rewrite fold_left_app, rev_unit. simpl. unfold write_pair at 1.
  destruct (Z.eqb_spec (pair_hash p) h) as [<-|Hne].
  - apply dict_get_set_eq.
  - rewrite dict_get_set_ne by exact Hne. apply IH.
Qed.

(** X3.  Within one call a colliding hash keeps its last value: the entry
    stored under a key is the anchor time of the last pair, in loop order,
    that passed the time-delta filter and packed to that key; a key no such
    pair packs to is absent. *)
Theorem create_hashes_last_write_wins (cm : list Landmark) (song_id : SongId) (h : Z) :
  dict_get h (create_hashes cm song_id)
  = match last_pair_with_hash h (emitted_pairs cm) with
    | Some p => Some (fst (fst p), song_id)
    | None => None
    end.
Proof. rewrite create_hashes_writes. apply writes_get_last. Qed.

Lemma writes_length song_id ps (acc : dict Z HashEntry) :
  (length (fold_left (write_pair song_id) ps acc) <= length acc + length ps)%nat.
Proof.
  revert acc. induction ps as [|p ps IH]; intros acc; simpl; [lia|].
  etransitivity; [apply IH|]. unfold write_pair. rewrite dict_set_length.
  destruct (dict_mem _ acc); lia.
Qed.

Lemma filter_flat_map_length {A B} (p : B -> bool) (g : A -> list B) (c : nat)
    (l : list A) :
  (forall x, x ∈ l -> (length (List.filter p (g x)) <= c)%nat) ->
  (length (List.filter p (flat_map g l)) <= c * length l)%nat.
Proof.
  induction l as [|x l IH]; intros Hall; simpl; [lia|].
  rewrite List.filter_app, length_app.
  assert (length (List.filter p (g x)) <= c)%nat by (apply Hall; left).
  assert (length (List.filter p (flat_map g l)) <= c * length l)%nat.
  { apply IH. intros y Hy. apply Hall. right. exact Hy. }
  lia.
Qed.

Lemma filter_length_le {A} (p : A -> bool) (l : list A) :
  (length (List.filter p l) <= length l)%nat.
Proof. induction l as [|x l IH]; simpl; [lia|]. destruct (p x); simpl; lia. Qed.

Lemma slice_anchor_first (cm : list Landmark) idx anchor :
  cm !! idx = Some anchor ->
  slice cm idx (idx + 100) = anchor :: take 99 (drop (S idx) cm).
Proof.
  intros Hidx. unfold slice. replace (idx + 100 - idx)%nat with 100%nat by lia.
  rewrite (drop_S _ _ _ Hidx). reflexivity.
Qed.

Lemma emitted_pairs_length cm : (length (emitted_pairs cm) <= 99 * length cm)%nat.
Proof.
  unfold emitted_pairs, candidate_pairs.
  etransitivity; [apply (filter_flat_map_length _ _ 99)|].
  - intros [idx anchor] Hin. apply elem_of_enumerate in Hin.
    rewrite (slice_anchor_first cm idx anchor Hin). simpl.
    unfold time_diff_of at 1. simpl. rewrite Z.sub_diag. simpl.
    etransitivity; [apply filter_length_le|].
    rewrite length_map, length_take. lia.
  - unfold enumerate. rewrite length_combine, length_seq. lia.
Qed.

(** X4.  The mapping returned by [create_hashes] holds at most 99 entries
    per landmark: each anchor is paired with the 100 positions of its slice,
    the first of which is the anchor itself and is always skipped.  In
    particular the empty constellation map gives the empty mapping. *)
Theorem create_hashes_size_bound (cm : list Landmark) (song_id : SongId) :
  (length (create_hashes cm song_id) <= 99 * length cm)%nat
  /\ create_hashes [] song_id = [].
Proof.
  split; [|reflexivity]. rewrite create_hashes_writes.
  etransitivity; [apply writes_length|]. simpl. apply emitted_pairs_length.
Qed.

(** X5.  A constellation map whose landmarks span at most two adjacent
    windows (no time bin exceeds another by more than 1) produces no hash. *)
Theorem create_hashes_narrow_span (cm : list Landmark) (song_id : SongId) :
  (forall a b, a ∈ cm -> b ∈ cm -> fst b - fst a <= 1) ->
  create_hashes cm song_id = [].
Proof.
  intros Hspan. destruct (create_hashes cm song_id) as [|[h e] rest] eqn:E;
    [reflexivity|]. exfalso.
  assert (Hin : (h, e) ∈ create_hashes cm song_id) by (rewrite E; left).
  apply create_hashes_origin in Hin
    as (i & j & a & b & Hi & Hj & _ & Htd & _).
  assert (fst b - fst a <= 1); [|lia].
  apply Hspan; apply list_elem_of_lookup; eauto.
Qed.

Lemma create_hashes_narrow_span_witness :
  (forall a b, a ∈ cm_two_windows -> b ∈ cm_two_windows -> fst b - fst a <= 1)
  /\ create_hashes cm_two_windows (Some 3) = [].
Proof.
  assert (Hspan : forall a b,
            a ∈ cm_two_windows -> b ∈ cm_two_windows -> fst b - fst a <= 1).
  { intros a b Ha Hb. apply list_elem_of_In in Ha, Hb. simpl in Ha, Hb.
    destruct Ha as [<-|[<-|[]]]; destruct Hb as [<-|[<-|[]]]; simpl; lia. }
  split; [exact Hspan|]. exact (create_hashes_narrow_span cm_two_windows (Some 3) Hspan).
Defined.

(* ================================================================= *)
(** * Further properties of the scorer *)

Lemma sorted_desc_filter_key {A} (key : A -> Z) (s : Z) (l : list A) :
  List.filter (fun x => key x =? s) (sorted_desc key l)
  = List.filter (fun x => key x =? s) l.
Proof.
  assert (Hins : forall x l0,
             List.filter (fun x => key x =? s) (insert_desc key x l0)
             = List.filter (fun x => key x =? s) (x :: l0)).
  { intros x l0. induction l0 as [|y l0 IH]; [reflexivity|]. simpl.
    destruct (Z.gtb_spec (key y) (key x)) as [Hgt|Hle]; [|reflexivity].
    simpl. rewrite IH. simpl.
    destruct (Z.eqb_spec (key y) s) as [Hy|Hy];
      destruct (Z.eqb_spec (key x) s) as [Hx|Hx]; try reflexivity. lia. }
  induction l as [|x l IH]; [reflexivity|]. simpl sorted_desc.
  rewrite Hins. simpl. rewrite IH. reflexivity.
Qed.

Lemma score_songs_keys_perm (database : Database) (hashes : dict Z HashEntry) :
  Permutation (map fst (score_songs database hashes))
              (dict_keys (collect_matches database hashes)).
Proof.
  rewrite score_songs_eq. rewrite (sorted_desc_perm result_score _).
  unfold dict_keys. rewrite map_map. reflexivity.
Qed.

(** X6.  Each song occurs at most once in the list returned by
    [score_songs], and the songs that occur are exactly those with at least
    one matched reference occurrence. *)
Theorem score_songs_songs (database : Database) (hashes : dict Z HashEntry) :
  NoDup (map fst (score_songs database hashes))
  /\ forall song,
       song ∈ map fst (score_songs database hashes)
       <-> matched_triples database hashes song <> [].
Proof.
  split.
  - rewrite (score_songs_keys_perm database hashes). apply collect_matches_NoDup.
  - intros song. rewrite list_elem_of_fmap. split.
    + intros [[s r] [-> Hin]]. apply elem_of_score_songs in Hin. tauto.
    + intros Hne. exists (song, max_score (count_offsets (matched_triples database hashes song))).
      split; [reflexivity|]. apply elem_of_score_songs. auto.
Qed.

(** X7.  The sort is stable: among the results with any given score, the
    order is that of the [song_scores] dictionary, that is the order in which
    the songs were first matched. *)
Theorem score_songs_stable (database : Database) (hashes : dict Z HashEntry) (s : Z) :
  List.filter (fun r => result_score r =? s) (score_songs database hashes)
  = List.filter (fun r => result_score r =? s)
                (dict_items (song_scores (collect_matches database hashes))).
Proof. unfold score_songs. apply sorted_desc_filter_key. Qed.

(** X8.  The first result, the one the callers report, has the highest
    score of the list, and it is the first song of [song_scores] with that
    score. *)
Theorem score_songs_top (database : Database) (hashes : dict Z HashEntry)
    (top : MatchResult) (rest : list MatchResult) :
  score_songs database hashes = top :: rest ->
  Forall (fun r => result_score r <= result_score top) rest
  /\ exists others,
       List.filter (fun r => result_score r =? result_score top)
                   (dict_items (song_scores (collect_matches database hashes)))
       = top :: others.
Proof.
  intros Htop. split.
  - pose proof (sorted_desc_sorted result_score
                  (dict_items (song_scores (collect_matches database hashes)))) as Hs.
    fold (score_songs database hashes) in Hs. rewrite Htop in Hs.
    apply StronglySorted_inv in Hs as [_ Hall]. exact Hall.
  - rewrite <- score_songs_stable, Htop. simpl. rewrite Z.eqb_refl. eauto.
Qed.

Lemma score_songs_top_witness :
  score_songs db_two_songs query_two_songs = [(Some 0, (3, 2)); (Some 1, (7, 1))]
  /\ Forall (fun r => result_score r <= 2) [(Some 1, (7, 1))]
  /\ exists others,
       List.filter (fun r => result_score r =? 2)
                   (dict_items (song_scores (collect_matches db_two_songs query_two_songs)))
       = (Some 0, (3, 2)) :: others.
Proof.
  assert (Htop : score_songs db_two_songs query_two_songs
                 = [(Some 0, (3, 2)); (Some 1, (7, 1))]) by (vm_compute; reflexivity).
  split; [exact Htop|].
  exact (score_songs_top db_two_songs query_two_songs _ _ Htop).
Defined.

Lemma offset_count_le_length d l : offset_count d l <= Z.of_nat (length l).
Proof.
  unfold offset_count. apply inj_le, filter_length_le.
Qed.

(** X9.  The query's own song identifiers are ignored by [score_songs]: the
    result depends on the query only through its keys and sample times. *)
Theorem score_songs_ignores_query_ids (database : Database)
    (hashes : dict Z HashEntry) (song_id : SongId) :
  score_songs database (map (fun he => (fst he, (fst (snd he), song_id))) hashes)
  = score_songs database hashes.
Proof.
  unfold score_songs. f_equal. f_equal. f_equal.
  unfold collect_matches, dict_items.
  set (step := fun (song_matches : dict SongId (list MatchTriple))
                   '((hash_val, (sample_time, _)) : Z * HashEntry) =>
                 match dict_get hash_val database with
                 | Some match_list =>
                     fold_left
                       (fun song_matches '(ref_time, song_index) =>
                          dict_append song_index (hash_val, sample_time, ref_time)
                                      song_matches)
                       match_list song_matches
                 | None => song_matches
                 end).
  assert (Hgen : forall sm,
             fold_left step (map (fun he : Z * HashEntry =>
                                    (fst he, (fst (snd he), song_id))) hashes) sm
             = fold_left step hashes sm); [|apply Hgen].
  induction hashes as [|[h [t s]] hashes IH]; intros sm; simpl; [reflexivity|].
  apply IH.
Qed.

(* ================================================================= *)
(** * Further properties of the index *)

Lemma elem_of_occurrences h e (hashes : dict Z HashEntry) :
  e ∈ occurrences h hashes <-> (h, e) ∈ hashes.
Proof.
  split; [|apply occurrences_elem].
  unfold occurrences. rewrite list_elem_of_In, in_flat_map.
  intros [[k e'] [Hin He]]. apply list_elem_of_In in Hin.
  destruct (decide (k = h)) as [->|Hne]; [|destruct He].
  destruct He as [<-|[]]. exact Hin.
Qed.

Lemma occurrences_length h (hashes : dict Z HashEntry) :
  NoDup (dict_keys hashes) -> (length (occurrences h hashes) <= 1)%nat.
Proof.
  unfold occurrences. induction hashes as [|[k e] hashes IH]; simpl; intros Hnd; [lia|].
  apply NoDup_cons in Hnd as [Hk Hnd]. rewrite length_app.
  destruct (decide (k = h)) as [->|Hne]; simpl; [|apply IH, Hnd].
  assert (Hnone : flat_map (fun '(k, e0) => if decide (k = h) then [e0] else [])
                           hashes = []).
  { destruct (flat_map _ hashes) as [|e0 es] eqn:E; [reflexivity|]. exfalso.
    assert (Hin : e0 ∈ occurrences h hashes) by (unfold occurrences; rewrite E; left).
    apply elem_of_occurrences in Hin. apply Hk. unfold dict_keys.
    apply list_elem_of_fmap. exists (h, e0). split; [reflexivity|exact Hin]. }
  rewrite Hnone. simpl. lia.
Qed.

Lemma song_hashes_entry p h e :
  e ∈ occurrences h (song_hashes p) -> snd e = Some (Z.of_nat (fst p)).
Proof.
  intros Hin. apply elem_of_occurrences in Hin. unfold song_hashes in Hin.
  apply create_hashes_origin in Hin as (i & j & a & b & _ & _ & _ & _ & _ & He).
  rewrite He. reflexivity.
Qed.

Lemma build_index_bucket corpus h bucket :
  dict_get h (build_index corpus) = Some bucket ->
  bucket = flat_map (fun p => occurrences h (song_hashes p)) (enumerate corpus)
  /\ bucket <> [].
Proof.
  intros Hget. pose proof (build_index_from_get (enumerate corpus) [] h) as Hb.
  fold (build_index corpus) in Hb. rewrite Hget in Hb. simpl dict_get in Hb.
  symmetry in Hb. apply extend_None_Some in Hb as [Heq Hne].
  split; [exact Heq|]. rewrite Heq. exact Hne.
Qed.

(** X10.  Every entry of the built index was generated by a recording of the
    corpus: an entry [(time, song_id)] in the bucket of a hash carries the
    position of a recording as its song identifier, and that recording's hash
    mapping holds exactly this entry for the hash.  No bucket is empty. *)
Theorem build_index_entries_sound (corpus : list (list Landmark)) (h : Z)
    (bucket : list HashEntry) :
  dict_get h (build_index corpus) = Some bucket ->
  bucket <> []
  /\ Forall (fun e => exists idx cm,
               corpus !! idx = Some cm
               /\ snd e = Some (Z.of_nat idx)
               /\ dict_get h (create_hashes cm (Some (Z.of_nat idx))) = Some e)
            bucket.
Proof.
  intros Hget. apply build_index_bucket in Hget as [-> Hne]. split; [exact Hne|].
  apply List.Forall_forall. intros e Hin. apply in_flat_map in Hin as [[idx cm] [Hp He]].
  apply list_elem_of_In, elem_of_enumerate in Hp. apply list_elem_of_In in He.
  exists idx, cm. split; [exact Hp|]. split.
  - apply (song_hashes_entry (idx, cm) h e He).
  - apply elem_dict_get; [apply create_hashes_NoDup|].
    apply elem_of_occurrences in He. exact He.
Qed.

Lemma build_index_entries_sound_witness :
  dict_get 2188307 (build_index corpus_small) = Some [(0, Some 0); (0, Some 1)]
  /\ Forall (fun e => exists idx cm,
               corpus_small !! idx = Some cm
               /\ snd e = Some (Z.of_nat idx)
               /\ dict_get 2188307 (create_hashes cm (Some (Z.of_nat idx))) = Some e)
            [(0, Some 0); (0, Some 1)].
Proof.
  assert (Hget : dict_get 2188307 (build_index corpus_small)
                 = Some [(0, Some 0); (0, Some 1)]) by (vm_compute; reflexivity).
  split; [exact Hget|].
  exact (proj2 (build_index_entries_sound corpus_small 2188307 _ Hget)).
Defined.

Lemma song_entries_flat_map {A} (song : SongId) (g : A -> list HashEntry) (l : list A) :
  song_entries song (flat_map g l) = flat_map (fun x => song_entries song (g x)) l.
Proof.
  induction l as [|x l IH]; simpl; [reflexivity|].
  rewrite <- IH. unfold song_entries. apply List.filter_app.
Qed.

Lemma filter_none {A} (p : A -> bool) (l : list A) :
  (forall x, x ∈ l -> p x = false) -> List.filter p l = [].
Proof.
  induction l as [|x l IH]; intros Hall; simpl; [reflexivity|].
  rewrite Hall by left. apply IH. intros y Hy. apply Hall. right. exact Hy.
Qed.

Lemma song_entries_other song p h :
  song <> Some (Z.of_nat (fst p)) ->
  song_entries song (occurrences h (song_hashes p)) = [].
Proof.
  intros Hne. unfold song_entries. apply filter_none. intros e Hin.
  apply song_hashes_entry in Hin. apply bool_decide_eq_false.
  intros Heq. apply Hne. rewrite <- Heq. exact Hin.
Qed.

Lemma flat_map_ext_elem_nil {A B} (g : A -> list B) (l : list A) :
  (forall x, x ∈ l -> g x = []) -> flat_map g l = [].
Proof.
  intros Hall. rewrite <- (flat_map_nil l). apply flat_map_ext_elem. exact Hall.
Qed.

Lemma song_entries_from song h (l : list (list Landmark)) (n : nat) :
  (length (flat_map (fun p => song_entries song (occurrences h (song_hashes p)))
                    (combine (seq n (length l)) l)) <= 1)%nat.
Proof.
  revert n. induction l as [|cm l IH]; intros n; simpl; [lia|].
  rewrite length_app.
  destruct (decide (song = Some (Z.of_nat n))) as [->|Hne].
  - assert (Hrest : flat_map (fun p => song_entries (Some (Z.of_nat n))
                                          (occurrences h (song_hashes p)))
                             (combine (seq (S n) (length l)) l) = []).
    { apply flat_map_ext_elem_nil. intros [i cm'] Hin.
      apply elem_of_combine_seq in Hin as [Hle _].
      apply song_entries_other. simpl. intros [= Heq]. lia. }
    rewrite Hrest. simpl. rewrite Nat.add_0_r.
    etransitivity; [apply filter_length_le|].
    apply occurrences_length, create_hashes_NoDup.
  - rewrite (song_entries_other song (n, cm) h) by exact Hne. simpl. apply IH.
Qed.

Lemma bucket_song_entries_le_one (corpus : list (list Landmark)) (h : Z)
    (bucket : list HashEntry) (song : SongId) :
  dict_get h (build_index corpus) = Some bucket ->
  (length (song_entries song bucket) <= 1)%nat.
Proof.
  intros Hget. apply build_index_bucket in Hget as [-> _].
  rewrite song_entries_flat_map. apply song_entries_from.
Qed.

(** X11.  In the built index a bucket holds at most one reference occurrence
    per song: recordings have distinct identifiers and each contributes at
    most one entry per hash. *)
Theorem build_index_one_entry_per_song (corpus : list (list Landmark)) (h : Z)
    (bucket : list HashEntry) (song : SongId) :
  dict_get h (build_index corpus) = Some bucket ->
  (length (song_entries song bucket) <= 1)%nat.
Proof.
  apply bucket_song_entries_le_one.
Qed.

Lemma build_index_one_entry_per_song_witness :
  dict_get 2188307 (build_index corpus_small) = Some [(0, Some 0); (0, Some 1)]
  /\ (length (song_entries (Some 1%Z) [(0%Z, Some 0%Z); (0%Z, Some 1%Z)]) <= 1)%nat.
Proof.
  assert (Hget : dict_get 2188307 (build_index corpus_small)
                 = Some [(0, Some 0); (0, Some 1)]) by (vm_compute; reflexivity).
  split; [exact Hget|].
  exact (build_index_one_entry_per_song corpus_small 2188307 _ (Some 1) Hget).
Defined.

Lemma flat_map_length_le {A B} (g : A -> list B) (c : nat) (l : list A) :
  (forall x, x ∈ l -> (length (g x) <= c)%nat) ->
  (length (flat_map g l) <= c * length l)%nat.
Proof.
  induction l as [|x l IH]; intros Hall; simpl; [lia|].
  rewrite length_app.
  assert (length (g x) <= c)%nat by (apply Hall; left).
  assert (length (flat_map g l) <= c * length l)%nat.
  { apply IH. intros y Hy. apply Hall. right. exact Hy. }
  lia.
Qed.

Lemma matched_in_bucket_length (song : SongId) (h st : Z) (bucket : list HashEntry) :
  length (flat_map (fun '(ref_time, s) =>
                      if decide (s = song) then [(h, st, ref_time)] else [])
                   bucket)
  = length (song_entries song bucket).
Proof.
  unfold song_entries. induction bucket as [|[rt s] bucket IH]; simpl; [reflexivity|].
  rewrite length_app, IH. destruct (decide (s = song)) as [Heq|Hne].
  - rewrite bool_decide_eq_true_2 by exact Heq. reflexivity.
  - rewrite bool_decide_eq_false_2 by exact Hne. reflexivity.
Qed.

Lemma matched_triples_length (corpus : list (list Landmark))
    (hashes : dict Z HashEntry) (song : SongId) :
  (length (matched_triples (build_index corpus) hashes song) <= length hashes)%nat.
Proof.
  unfold matched_triples.
  etransitivity; [apply (flat_map_length_le _ 1)|rewrite Nat.mul_1_l; reflexivity].
  intros [h [st s]] _. destruct (dict_get h (build_index corpus)) as [bucket|] eqn:E.
  - rewrite matched_in_bucket_length.
    apply (bucket_song_entries_le_one corpus h bucket song E).
  - simpl. lia.
Qed.

(** X12.  Against an index built by the build loop, no score exceeds the
    number of hashes of the query: each query hash contributes at most one
    matched occurrence per song. *)
Theorem score_songs_score_bound (corpus : list (list Landmark))
    (hashes : dict Z HashEntry) :
  Forall (fun r => 0 < result_score r <= Z.of_nat (length hashes))
         (score_songs (build_index corpus) hashes).
Proof.
  apply List.Forall_forall. intros [song [off sc]] Hin. apply list_elem_of_In in Hin.
  pose proof (score_songs_positive _ _ _ _ _ Hin) as Hpos.
  apply elem_of_score_songs in Hin as [Hne Hr].
  destruct (max_score_counts _ Hne) as (_ & _ & os1 & os2 & Hsplit & _).
  rewrite <- Hr in Hsplit.
  assert (Hb : (off, sc) ∈ count_offsets (matched_triples (build_index corpus) hashes song)).
  { rewrite Hsplit. apply elem_of_app. right. left. }
  apply count_offsets_elem in Hb as [Hsc _]. unfold result_score. simpl.
  split; [exact Hpos|]. rewrite Hsc.
  etransitivity; [apply offset_count_le_length|].
  apply inj_le, matched_triples_length.
Qed.

(* ================================================================= *)
(** * Matching an indexed recording, possibly shifted in time *)

Lemma create_hashes_shift_eq k cm song_id :
  create_hashes (shift_time k cm) song_id = shift_entries k (create_hashes cm song_id).
Proof.
  rewrite !create_hashes_writes, emitted_pairs_shift.
  apply (writes_shift k song_id (emitted_pairs cm) []).
Qed.

Lemma matched_in_bucket_map (song : SongId) (h st : Z) (bucket : list HashEntry) :
  flat_map (fun '(ref_time, s) =>
              if decide (s = song) then [(h, st, ref_time)] else [])
           bucket
  = map (fun e : HashEntry => (h, st, fst e)) (song_entries song bucket).
Proof.
  unfold song_entries. induction bucket as [|[rt s] bucket IH]; simpl; [reflexivity|].
  rewrite IH. destruct (decide (s = song)) as [Heq|Hne].
  - rewrite bool_decide_eq_true_2 by exact Heq. reflexivity.
  - rewrite bool_decide_eq_false_2 by exact Hne. reflexivity.
Qed.

Lemma singleton_of_member {A} (x : A) (l : list A) :
  x ∈ l -> (length l <= 1)%nat -> l = [x].
Proof.
  intros Hin Hlen. destruct l as [|y [|z l]]; simpl in Hlen; [inversion Hin| |lia].
  apply list_elem_of_singleton in Hin. subst. reflexivity.
Qed.

Lemma indexed_bucket corpus (i : nat) cm h t s :
  corpus !! i = Some cm ->
  (h, (t, s)) ∈ create_hashes cm None ->
  exists bucket,
    dict_get h (build_index corpus) = Some bucket
    /\ song_entries (Some (Z.of_nat i)) bucket = [(t, Some (Z.of_nat i))].
Proof.
  intros Hi Hin.
  assert (Hin' : (h, (t, Some (Z.of_nat i))) ∈ create_hashes cm (Some (Z.of_nat i))).
  { rewrite create_hashes_retag. apply list_elem_of_fmap.
    exists (h, (t, s)). split; [reflexivity|exact Hin]. }
  pose proof (build_index_from_get (enumerate corpus) [] h) as Hget.
  fold (build_index corpus) in Hget. simpl dict_get in Hget.
  assert (He : (t, Some (Z.of_nat i))
               ∈ flat_map (fun p => occurrences h (song_hashes p)) (enumerate corpus)).
  { apply list_elem_of_In, in_flat_map. exists (i, cm). split.
    - apply list_elem_of_In, elem_of_enumerate, Hi.
    - apply list_elem_of_In, occurrences_elem. exact Hin'. }
  destruct (flat_map _ (enumerate corpus)) as [|e0 es] eqn:Efm; [inversion He|].
  simpl in Hget. exists (e0 :: es). split; [exact Hget|].
  apply singleton_of_member.
  - unfold song_entries. apply list_elem_of_In, filter_In.
    split; [apply list_elem_of_In, He|]. apply bool_decide_eq_true_2. reflexivity.
  - apply (bucket_song_entries_le_one corpus h). exact Hget.
Qed.

Lemma indexed_matched_triples corpus (i : nat) cm k :
  corpus !! i = Some cm ->
  matched_triples (build_index corpus) (shift_entries k (create_hashes cm None))
                  (Some (Z.of_nat i))
  = map (fun he : Z * (Z * SongId) => (fst he, fst (snd he) + k, fst (snd he)))
        (create_hashes cm None).
Proof.
  intros Hi. unfold matched_triples, shift_entries.
  rewrite flat_map_map, <- flat_map_singleton. apply flat_map_ext_elem.
  intros [h [t s]] Hin. simpl.
  destruct (indexed_bucket corpus i cm h t s Hi Hin) as (bucket & -> & Hone).
  rewrite matched_in_bucket_map, Hone. reflexivity.
Qed.

Lemma offset_count_shifted (k : Z) (l : list (Z * (Z * SongId))) d :
  offset_count d (map (fun he : Z * (Z * SongId) =>
                         (fst he, fst (snd he) + k, fst (snd he))) l)
  = if decide (d = - k) then Z.of_nat (length l) else 0.
Proof.
  induction l as [|[h [t s]] l IH].
  - destruct (decide (d = - k)); reflexivity.
  - rewrite map_cons, offset_count_cons, IH. unfold triple_delta. simpl.
    replace (t - (t + k)) with (- k) by lia.
    destruct (decide (d = - k)) as [->|Hne].
    + rewrite Z.eqb_refl. lia.
    + destruct (Z.eqb_spec (- k) d); [congruence|reflexivity].
Qed.

Lemma shifted_count_offsets (k : Z) (l : list (Z * (Z * SongId))) :
  l <> [] ->
  count_offsets (map (fun he : Z * (Z * SongId) =>
                        (fst he, fst (snd he) + k, fst (snd he))) l)
  = [(- k, Z.of_nat (length l))].
Proof.
  intros Hne. apply dict_single_key; [apply count_offsets_NoDup|].
  intros d. rewrite count_offsets_get, offset_count_shifted.
  destruct (decide (d = - k)) as [->|Hd]; [|reflexivity].
  destruct l; [contradiction|]. reflexivity.
Qed.

Lemma max_score_one_bucket o n : 0 < n -> max_score [(o, n)] = (o, n).
Proof.
  intros Hn. unfold max_score, max_score_from. simpl.
  destruct (Z.gtb_spec n 0); [reflexivity|lia].
Qed.

Lemma score_le_query_length (corpus : list (list Landmark))
    (hashes : dict Z HashEntry) (r : MatchResult) :
  r ∈ score_songs (build_index corpus) hashes ->
  result_score r <= Z.of_nat (length hashes).
Proof.
  destruct r as [song [off sc]]. intros Hin.
  apply elem_of_score_songs in Hin as [Hne Hr].
  destruct (max_score_counts _ Hne) as (_ & _ & os1 & os2 & Hsplit & _).
  rewrite <- Hr in Hsplit.
  assert (Hb : (off, sc) ∈ count_offsets (matched_triples (build_index corpus) hashes song)).
  { rewrite Hsplit. apply elem_of_app. right. left. }
  apply count_offsets_elem in Hb as [Hsc _]. unfold result_score. simpl.
  rewrite Hsc. etransitivity; [apply offset_count_le_length|].
  apply inj_le, matched_triples_length.
Qed.

(** X13.  Recognition of an indexed recording, whatever its start time: if a
    recording of the corpus yields at least one hash, then querying the built
    index with the hashes of the same constellation map moved by [k] windows
    reports that recording's song identifier with offset [-k] and a score
    equal to the number of query hashes, and no result has a higher score. *)
Theorem indexed_recording_recognized (corpus : list (list Landmark)) (i : nat)
    (cm : list Landmark) (k : Z) :
  corpus !! i = Some cm ->
  create_hashes cm None <> [] ->
  let query := create_hashes (shift_time k cm) None in
  (Some (Z.of_nat i), (- k, Z.of_nat (length query)))
    ∈ score_songs (build_index corpus) query
  /\ Forall (fun r => result_score r <= Z.of_nat (length query))
            (score_songs (build_index corpus) query).
Proof.
  intros Hi Hne query. split.
  - unfold query. rewrite create_hashes_shift_eq.
    apply elem_of_score_songs.
    rewrite (indexed_matched_triples corpus i cm k Hi). split.
    + destruct (create_hashes cm None); [contradiction|discriminate].
    + rewrite shifted_count_offsets by exact Hne.
      rewrite max_score_one_bucket.
      * unfold shift_entries. rewrite length_map. reflexivity.
      * destruct (create_hashes cm None); [contradiction|]. simpl. lia.
  - apply List.Forall_forall. intros r Hin.
    apply (score_le_query_length corpus). apply list_elem_of_In, Hin.
Qed.

Lemma indexed_recording_recognized_witness :
  corpus_small !! 1%nat = Some cm_other
  /\ create_hashes cm_other None <> []
  /\ (Some 1, (-5, Z.of_nat (length (create_hashes (shift_time 5 cm_other) None))))
       ∈ score_songs (build_index corpus_small) (create_hashes (shift_time 5 cm_other) None)
  /\ Forall (fun r => result_score r
                      <= Z.of_nat (length (create_hashes (shift_time 5 cm_other) None)))
            (score_songs (build_index corpus_small)
                         (create_hashes (shift_time 5 cm_other) None)).
Proof.
  assert (Hi : corpus_small !! 1%nat = Some cm_other) by reflexivity.
  assert (Hne : create_hashes cm_other None <> []) by (vm_compute; discriminate).
  split; [exact Hi|]. split; [exact Hne|].
  exact (indexed_recording_recognized corpus_small 1 cm_other 5 Hi Hne).
Defined.

(* ================================================================= *)
(** * Further properties of the extractor *)

Lemma sample_window_size_cases sample_rate :
  (2 <= sample_rate -> 0 < sample_window_size sample_rate)
  /\ (-3 <= sample_rate <= 1 -> sample_window_size sample_rate = 0)
  /\ (sample_rate <= -4 -> sample_window_size sample_rate < 0).
Proof.
  rewrite sample_window_size_eq.
  repeat split; intros Hr; Z.to_euclidean_division_equations; lia.
Qed.

Section PaddingFacts.
Context {Sample : Type}.
Variable zero : Sample.

Lemma pad_audio_shape (audio : list Sample) sample_rate :
  0 < sample_window_size sample_rate ->
  exists k,
    1 <= k <= sample_window_size sample_rate
    /\ pad_audio zero audio sample_rate = inr (audio ++ repeat zero (Z.to_nat k))
    /\ (Z.of_nat (length audio) + k) mod sample_window_size sample_rate = 0.
Proof.
  intros Hw. unfold pad_audio, pad_amount.
  set (w := sample_window_size sample_rate) in *.
  set (n := Z.of_nat (length audio)).
  destruct (Z.eqb_spec w 0) as [Hz|_]; [lia|]. cbn [bind ret]. unfold np_pad.
  pose proof (Z.mod_pos_bound n w Hw) as Hmod.
  destruct (Z.ltb_spec (w - n mod w) 0) as [Hneg|_]; [lia|].
  exists (w - n mod w). split; [lia|]. split; [reflexivity|].
  replace (n + (w - n mod w)) with (n - n mod w + 1 * w) by lia.
  rewrite Z.mod_add by lia.
  rewrite (Z.div_mod n w) at 1 by lia.
  replace (w * (n / w) + n mod w - n mod w) with ((n / w) * w) by lia.
  apply Z.mod_mul. lia.
Qed.
End PaddingFacts.

(** C9 (as amended).  The extractor does not validate the sample rate and
    has no error kind of its own for it.  For every sample buffer, a call
    with [sample_rate <= 0] nevertheless raises before the transform is
    reached and returns no constellation map: for the rates -3 to 0 the
    window size is zero and the remainder [audio.size % sample_window_size]
    raises [ZeroDivisionError]; for the rates -4 and below the window size
    and the computed pad width are negative and [np.pad] raises
    [ValueError]. *)
Theorem extractor_rejects_nonpositive_rate {Sample Mag Prom : Type} (zero : Sample)
    (segment_spectrum : list Sample -> list Mag)
    (find_peaks : list Mag -> list nat * list Prom)
    (argpartition : list Prom -> Z -> result (list nat))
    (audio : list Sample) (sample_rate : Z) :
  sample_rate <= 0 ->
  let window := sample_window_size sample_rate in
  let size := Z.of_nat (length audio) in
  let e := if -3 <=? sample_rate then ZeroDivisionError else ValueError in
  pad_audio zero audio sample_rate = inl e
  /\ create_constellation_map zero segment_spectrum find_peaks argpartition
                              audio sample_rate = inl e
  /\ (-3 <= sample_rate -> window = 0 /\ pad_amount size window = inl ZeroDivisionError)
  /\ (sample_rate <= -4 ->
      window < 0
      /\ exists padding,
           pad_amount size window = inr padding /\ padding < 0
           /\ np_pad zero audio padding = inl ValueError).
Proof.
  intros Hrate window size e.
  destruct (sample_window_size_cases sample_rate) as (_ & Hzero & Hneg).
  assert (Hpad : pad_audio zero audio sample_rate = inl e).
  { rewrite (pad_audio_rejects zero audio sample_rate)
      by (apply sample_window_size_nonpos, Hrate).
    unfold e. destruct (Z.leb_spec (-3) sample_rate) as [Hge|Hlt].
    - rewrite Hzero by lia. reflexivity.
    - assert (sample_window_size sample_rate < 0) by (apply Hneg; lia).
      destruct (Z.eqb_spec (sample_window_size sample_rate) 0); [lia|reflexivity]. }
  split; [exact Hpad|]. split.
  { unfold create_constellation_map. rewrite Hpad. reflexivity. }
  split.
  - intros Hge. assert (Hw : window = 0) by (apply Hzero; lia).
    split; [exact Hw|]. rewrite Hw. reflexivity.
  - intros Hle. assert (Hw : window < 0) by (apply Hneg; lia).
    split; [exact Hw|]. exists (window - size mod window).
    assert (Hmod : window < size mod window <= 0) by (apply Z.mod_neg_bound; lia).
    split; [|split; [lia|]].
    + unfold pad_amount. destruct (Z.eqb_spec window 0); [lia|reflexivity].
    + unfold np_pad. destruct (Z.ltb_spec (window - size mod window) 0); [reflexivity|lia].
Qed.

Lemma extractor_rejects_nonpositive_rate_witness :
  -44100 <= 0
  /\ pad_audio 0 [5; 6; 7] (-44100) = inl ValueError
  /\ toy_extract [5; 6; 7] (-44100) = inl ValueError
  /\ (-44100 <= -4 ->
      sample_window_size (-44100) < 0
      /\ exists padding,
           pad_amount 3 (sample_window_size (-44100)) = inr padding /\ padding < 0
           /\ np_pad 0 [5; 6; 7] padding = inl ValueError).
Proof.
  assert (Hrate : -44100 <= 0) by lia.
  split; [exact Hrate|].
  destruct (extractor_rejects_nonpositive_rate 0 toy_spectrum toy_find_peaks
              toy_argpartition [5; 6; 7] (-44100) Hrate) as (Hpad & Hcm & _ & Hneg).
  split; [exact Hpad|]. split; [exact Hcm|exact Hneg].
Defined.

(** C9, refuted as stated.  No single error stands for "invalid input": the
    rate 0 raises [ZeroDivisionError] and the rate -44100 raises
    [ValueError], so no error value is returned for every non-positive rate;
    the exception of the rate 0 is the one the positive rate 1 raises as
    well; and for the rate -44100 the first steps are carried out (the pad
    width -3 is computed) before [np.pad] raises. *)
Lemma extractor_rejects_nonpositive_rate_counterexample :
  ~ (exists invalid_input : exn,
       forall sample_rate, sample_rate <= 0 ->
         toy_extract [5; 6; 7] sample_rate = inl invalid_input)
  /\ toy_extract [5; 6; 7] 0 = inl ZeroDivisionError
  /\ toy_extract [5; 6; 7] (-44100) = inl ValueError
  /\ toy_extract [5; 6; 7] 1 = toy_extract [5; 6; 7] 0
  /\ pad_amount 3 (sample_window_size (-44100)) = inr (-3).
Proof.
  split; [|repeat split].
  intros [invalid_input Hall].
  pose proof (Hall 0 ltac:(lia)) as H0.
  pose proof (Hall (-44100) ltac:(lia)) as H1.
  vm_compute in H0, H1. congruence.
Qed.

(** X14.  The padding step accepts exactly the sample rates of at least 2.
    Rates from -3 to 1 give a window size of zero and the remainder raises
    [ZeroDivisionError] (so the positive rate 1 is rejected too); rates of -4
    and below give a negative window size and pad width, and [np.pad] raises
    [ValueError]. *)
Theorem pad_audio_accepts_iff {Sample : Type} (zero : Sample) (audio : list Sample)
    (sample_rate : Z) :
  ((exists padded, pad_audio zero audio sample_rate = inr padded) <-> 2 <= sample_rate)
  /\ (pad_audio zero audio sample_rate = inl ZeroDivisionError
      <-> -3 <= sample_rate <= 1)
  /\ (pad_audio zero audio sample_rate = inl ValueError <-> sample_rate <= -4).
Proof.
  destruct (sample_window_size_cases sample_rate) as (Hpos & Hzero & Hneg).
  destruct (Z_le_gt_dec 2 sample_rate) as [Hge|Hlt].
  - destruct (pad_audio_shape zero audio sample_rate (Hpos Hge)) as (k & _ & Hpad & _).
    rewrite Hpad. repeat split; try (intros; lia); try discriminate. eauto.
  - destruct (Z_le_gt_dec (-3) sample_rate) as [Hge3|Hlt3].
    + assert (Hw : sample_window_size sample_rate = 0) by (apply Hzero; lia).
      rewrite (pad_audio_rejects zero audio sample_rate) by lia.
      rewrite Hw. simpl. repeat split; try (intros; lia); try discriminate.
      intros [padded Hp]. discriminate.
    + assert (Hw : sample_window_size sample_rate < 0) by (apply Hneg; lia).
      rewrite (pad_audio_rejects zero audio sample_rate) by lia.
      destruct (Z.eqb_spec (sample_window_size sample_rate) 0) as [Hz|_]; [lia|].
      repeat split; try (intros; lia); try discriminate.
      intros [padded Hp]. discriminate.
Qed.

(** X15.  For an accepted sample rate the padded buffer is the input
    followed by between 1 and [sample_window_size] zeros (never none: a
    whole window is appended when the length is already a multiple), and its
    length is a multiple of the window size. *)
Theorem pad_audio_appends_zeros {Sample : Type} (zero : Sample) (audio : list Sample)
    (sample_rate : Z) :
  2 <= sample_rate ->
  exists k,
    1 <= k <= sample_window_size sample_rate
    /\ pad_audio zero audio sample_rate = inr (audio ++ repeat zero (Z.to_nat k))
    /\ (Z.of_nat (length audio) + k) mod sample_window_size sample_rate = 0.
Proof.
  intros Hr. apply pad_audio_shape.
  apply (proj1 (sample_window_size_cases sample_rate)), Hr.
Qed.

Lemma pad_audio_appends_zeros_witness :
  2 <= 4
  /\ exists k,
       1 <= k <= sample_window_size 4
       /\ pad_audio 0 [5; 6; 7] 4 = inr ([5; 6; 7] ++ repeat 0 (Z.to_nat k))
       /\ (Z.of_nat (length [5; 6; 7]) + k) mod sample_window_size 4 = 0.
Proof.
  assert (Hr : 2 <= 4) by lia. split; [exact Hr|].
  exact (pad_audio_appends_zeros 0 [5; 6; 7] 4 Hr).
Defined.

Lemma mapM_index_members {A} (l : list A) (positions : list nat) (found : list A) :
  mapM (index l) positions = inr found -> forall x, x ∈ found -> x ∈ l.
Proof.
  revert found. induction positions as [|i positions IH]; intros found; simpl.
  - intros [= <-] x Hx. inversion Hx.
  - unfold index at 1. destruct (l !! i) as [y|] eqn:Ey; cbn [bind ret raise];
      [|discriminate].
    destruct (mapM (index l) positions) as [e|ys]; cbn [bind ret]; [discriminate|].
    intros [= <-] x Hx. apply elem_of_cons in Hx as [->|Hx].
    + apply list_elem_of_lookup. eauto.
    + apply (IH ys); [reflexivity|exact Hx].
Qed.

Section TimeOrderFacts.
Context {Sample Mag Prom : Type}.
Variable zero : Sample.
Variable segment_spectrum : list Sample -> list Mag.
Variable find_peaks : list Mag -> list nat * list Prom.
Variable argpartition : list Prom -> Z -> result (list nat).

Lemma window_landmarks_members frequencies time_idx window landmarks :
  window_landmarks segment_spectrum find_peaks argpartition frequencies time_idx window
  = inr landmarks ->
  forall lm, lm ∈ landmarks -> fst lm = Z.of_nat time_idx /\ snd lm ∈ frequencies.
Proof.
  unfold window_landmarks.
  destruct (find_peaks (segment_spectrum window)) as [peaks prominences].
  destruct (argpartition prominences _) as [e|order]; cbn [bind]; [discriminate|].
  destruct (mapM (index peaks) _) as [e|selected]; cbn [bind]; [discriminate|].
  destruct (mapM (index frequencies) selected) as [e|found] eqn:Efound; cbn [bind];
    [discriminate|].
  intros [= <-] lm Hin. apply list_elem_of_fmap in Hin as [f [-> Hf]].
  split; [reflexivity|]. exact (mapM_index_members _ _ _ Efound f Hf).
Qed.

Lemma stamped_parts frequencies (l : list (list Sample)) (n : nat)
    (parts : list (list Landmark)) :
  Forall2 (fun w part =>
             window_landmarks segment_spectrum find_peaks argpartition
                              frequencies (fst w) (snd w) = inr part)
          (combine (seq n (length l)) l) parts ->
  StronglySorted Z.le (map fst (concat parts))
  /\ Forall (fun lm => Z.of_nat n <= fst lm < Z.of_nat (n + length l)
                       /\ snd lm ∈ frequencies)
            (concat parts).
Proof.
  revert n parts. induction l as [|w l IH]; intros n parts Hall; simpl in Hall.
  - inversion Hall; subst. simpl. split; constructor.
  - inversion Hall as [|? part ? parts' Hw Hrest]; subst. simpl in Hw.
    destruct (IH (S n) parts' Hrest) as [Hsorted Hbounds].
    pose proof (window_landmarks_members _ _ _ _ Hw) as Hpart.
    simpl concat. split.
    + rewrite map_app. clear Hw Hall Hrest.
      induction part as [|lm part IHp]; simpl; [exact Hsorted|].
      constructor.
      * apply IHp. intros lm' Hlm'. apply Hpart. right. exact Hlm'.
      * apply List.Forall_forall. intros t Ht. apply in_app_or in Ht.
        destruct (Hpart lm) as [Hlm _]; [left|]. rewrite Hlm.
        destruct Ht as [Ht|Ht].
        -- apply in_map_iff in Ht as [lm' [<- Hlm']].
           destruct (Hpart lm') as [-> _]; [right; apply list_elem_of_In, Hlm'|]. lia.
        -- apply in_map_iff in Ht as [lm' [<- Hlm']].
           rewrite List.Forall_forall in Hbounds. specialize (Hbounds lm' Hlm'). lia.
    + apply List.Forall_forall. intros lm Hlm. apply in_app_or in Hlm as [Hlm|Hlm].
      * destruct (Hpart lm) as [-> Hf]; [apply list_elem_of_In, Hlm|].
        split; [simpl; lia|exact Hf].
      * rewrite List.Forall_forall in Hbounds. specialize (Hbounds lm Hlm).
        simpl. split; [lia|tauto].
Qed.

Lemma create_constellation_map_stamped (audio padded : list Sample) sample_rate cm :
  pad_audio zero audio sample_rate = inr padded ->
  create_constellation_map zero segment_spectrum find_peaks argpartition audio sample_rate
  = inr cm ->
  StronglySorted Z.le (map fst cm)
  /\ Forall (fun lm =>
               0 <= fst lm
                 < Z.of_nat (length (stft_segments zero padded
                                                   (sample_window_size sample_rate)))
               /\ snd lm ∈ stft_frequencies sample_rate (sample_window_size sample_rate))
            cm.
Proof.
  intros Hpad. unfold create_constellation_map. rewrite Hpad. cbn [bind].
  unfold collect_landmarks. intros Hfold.
  apply collect_from_spec in Hfold as (parts & -> & Hall). simpl.
  unfold enumerate in Hall. apply stamped_parts in Hall as [Hsorted Hbounds].
  split; [exact Hsorted|]. exact Hbounds.
Qed.
End TimeOrderFacts.

(** X16.  When the extractor returns, its constellation map is ordered by
    time index (the order the hasher consumes), and every time index is at
    least 0 and below the number of spectra of the transform. *)
Theorem constellation_map_time_ordered {Sample Mag Prom : Type} (zero : Sample)
    (segment_spectrum : list Sample -> list Mag)
    (find_peaks : list Mag -> list nat * list Prom)
    (argpartition : list Prom -> Z -> result (list nat))
    (audio : list Sample) (sample_rate : Z) (cm : list Landmark) :
  create_constellation_map zero segment_spectrum find_peaks argpartition audio sample_rate
  = inr cm ->
  exists padded,
    pad_audio zero audio sample_rate = inr padded
    /\ StronglySorted Z.le (map fst cm)
    /\ Forall (fun lm : Landmark =>
                 0 <= fst lm
                   < Z.of_nat (length (stft_segments zero padded
                                                     (sample_window_size sample_rate))))
              cm.
Proof.
  intros Hcm.
  destruct (pad_audio zero audio sample_rate) as [e|padded] eqn:Hpad.
  - unfold create_constellation_map in Hcm. rewrite Hpad in Hcm. discriminate.
  - exists padded. split; [reflexivity|].
    destruct (create_constellation_map_stamped zero segment_spectrum find_peaks
                argpartition audio padded sample_rate cm Hpad Hcm) as [Hsorted Hall].
    split; [exact Hsorted|].
    rewrite List.Forall_forall in Hall |- *. intros lm Hlm. apply (Hall lm Hlm).
Qed.

Lemma constellation_map_time_ordered_witness :
  toy_extract [5; 6; 7] 4 = inr cm_toy
  /\ exists padded,
       pad_audio 0 [5; 6; 7] 4 = inr padded
       /\ StronglySorted Z.le (map fst cm_toy)
       /\ Forall (fun lm : Landmark =>
                    0 <= fst lm < Z.of_nat (length (stft_segments 0 padded
                                                      (sample_window_size 4))))
                 cm_toy.
Proof.
  assert (Hcm : toy_extract [5; 6; 7] 4 = inr cm_toy) by (vm_compute; reflexivity).
  split; [exact Hcm|].
  exact (constellation_map_time_ordered 0 toy_spectrum toy_find_peaks toy_argpartition
           [5; 6; 7] 4 cm_toy Hcm).
Defined.

Lemma bin_frequency_range sample_rate window (k : nat) :
  0 < window -> 0 <= sample_rate -> 2 * Z.of_nat k <= window ->
  (0 <= bin_frequency sample_rate window k)%Q
  /\ (bin_frequency sample_rate window k * inject_Z 2 <= inject_Z sample_rate)%Q.
Proof.
  intros Hw Hr Hk. unfold bin_frequency.
  destruct window as [|p|p]; try lia.
  unfold Qle, Qdiv, Qmult, Qinv, inject_Z. simpl Qnum. simpl Qden.
  rewrite !Pos2Z.inj_mul. split; nia.
Qed.

Lemma stft_frequencies_range sample_rate window f :
  0 < window -> 0 <= sample_rate ->
  f ∈ stft_frequencies sample_rate window ->
  (0 <= f)%Q /\ (f * inject_Z 2 <= inject_Z sample_rate)%Q.
Proof.
  intros Hw Hr Hin. unfold stft_frequencies in Hin.
  apply list_elem_of_In, in_map_iff in Hin as [k [<- Hk]].
  apply in_seq in Hk. apply bin_frequency_range; [exact Hw|exact Hr|].
  assert (Hhalf : 0 <= window / 2) by (apply Z.div_pos; lia).
  assert (Z.of_nat k <= window / 2) by lia.
  pose proof (Z.div_mod window 2). pose proof (Z.mod_pos_bound window 2). lia.
Qed.

Section FrequencyFacts.
Context {Sample Mag Prom : Type}.
Variable zero : Sample.
Variable segment_spectrum : list Sample -> list Mag.
Variable find_peaks : list Mag -> list nat * list Prom.
Variable argpartition : list Prom -> Z -> result (list nat).

Lemma create_constellation_map_rate (audio : list Sample) sample_rate cm :
  create_constellation_map zero segment_spectrum find_peaks argpartition audio sample_rate
  = inr cm ->
  2 <= sample_rate /\ 0 < sample_window_size sample_rate.
Proof.
  intros Hcm. destruct (sample_window_size_cases sample_rate) as (Hpos & Hzero & Hneg).
  destruct (Z_le_gt_dec 2 sample_rate) as [Hge|Hlt]; [auto|]. exfalso.
  unfold create_constellation_map in Hcm.
  rewrite (pad_audio_rejects zero audio sample_rate) in Hcm; [discriminate|].
  destruct (Z_le_gt_dec (-3) sample_rate); [rewrite Hzero; lia|].
  assert (sample_window_size sample_rate < 0) by (apply Hneg; lia). lia.
Qed.

Lemma create_constellation_map_frequencies (audio : list Sample) sample_rate cm :
  create_constellation_map zero segment_spectrum find_peaks argpartition audio sample_rate
  = inr cm ->
  Forall (fun lm : Landmark =>
            (0 <= snd lm)%Q /\ (snd lm * inject_Z 2 <= inject_Z sample_rate)%Q) cm.
Proof.
  intros Hcm. destruct (create_constellation_map_rate audio sample_rate cm Hcm)
    as [Hrate Hw].
  destruct (pad_audio zero audio sample_rate) as [e|padded] eqn:Hpad.
  - unfold create_constellation_map in Hcm. rewrite Hpad in Hcm. discriminate.
  - destruct (create_constellation_map_stamped zero segment_spectrum find_peaks
                argpartition audio padded sample_rate cm Hpad Hcm) as [_ Hall].
    rewrite List.Forall_forall in Hall |- *. intros lm Hlm.
    destruct (Hall lm Hlm) as [_ Hf].
    apply (stft_frequencies_range sample_rate (sample_window_size sample_rate));
      [exact Hw|lia|exact Hf].
Qed.
End FrequencyFacts.

(** X17.  Every landmark frequency returned by the extractor lies between 0
    and half the sample rate. *)
Theorem constellation_map_below_nyquist {Sample Mag Prom : Type} (zero : Sample)
    (segment_spectrum : list Sample -> list Mag)
    (find_peaks : list Mag -> list nat * list Prom)
    (argpartition : list Prom -> Z -> result (list nat))
    (audio : list Sample) (sample_rate : Z) (cm : list Landmark) :
  create_constellation_map zero segment_spectrum find_peaks argpartition audio sample_rate
  = inr cm ->
  Forall (fun lm : Landmark =>
            (0 <= snd lm)%Q /\ (snd lm * inject_Z 2 <= inject_Z sample_rate)%Q) cm.
Proof. apply create_constellation_map_frequencies. Qed.

Lemma constellation_map_below_nyquist_witness :
  toy_extract [5; 6; 7] 4
  = inr [(0, 0 # 2); (0, 4 # 2); (1, 0 # 2); (1, 4 # 2); (2, 0 # 2); (2, 4 # 2);
         (3, 0 # 2); (3, 4 # 2); (4, 0 # 2); (4, 4 # 2)]
  /\ Forall (fun lm : Landmark =>
               (0 <= snd lm)%Q /\ (snd lm * inject_Z 2 <= inject_Z 4)%Q)
            [(0, 0 # 2); (0, 4 # 2); (1, 0 # 2); (1, 4 # 2); (2, 0 # 2);
             (2, 4 # 2); (3, 0 # 2); (3, 4 # 2); (4, 0 # 2); (4, 4 # 2)].
Proof.
  assert (Hcm : toy_extract [5; 6; 7] 4
                = inr [(0, 0 # 2); (0, 4 # 2); (1, 0 # 2); (1, 4 # 2); (2, 0 # 2);
                       (2, 4 # 2); (3, 0 # 2); (3, 4 # 2); (4, 0 # 2); (4, 4 # 2)])
    by (vm_compute; reflexivity).
  split; [exact Hcm|].
  exact (constellation_map_below_nyquist 0 toy_spectrum toy_find_peaks toy_argpartition
           [5; 6; 7] 4 _ Hcm).
Defined.

(** X18.  Extractor and hasher together: for a recording sampled below
    46000 Hz (so that half the sample rate is below the 23000 Hz the hasher
    scales by, as for 44100 Hz), every hash of the extracted constellation map
    is a non-negative 30-bit value. *)
Theorem extracted_hashes_fit_30_bits {Sample Mag Prom : Type} (zero : Sample)
    (segment_spectrum : list Sample -> list Mag)
    (find_peaks : list Mag -> list nat * list Prom)
    (argpartition : list Prom -> Z -> result (list nat))
    (audio : list Sample) (sample_rate : Z) (cm : list Landmark) (song_id : SongId) :
  sample_rate < 46000 ->
  create_constellation_map zero segment_spectrum find_peaks argpartition audio sample_rate
  = inr cm ->
  Forall (fun he => 0 <= fst he < 2 ^ 30) (create_hashes cm song_id).
Proof.
  intros Hrate Hcm.
  pose proof (create_constellation_map_frequencies zero segment_spectrum find_peaks
                argpartition audio sample_rate cm Hcm) as Hfreq.
  rewrite List.Forall_forall in Hfreq.
  assert (Hband : forall lm, lm ∈ cm ->
            0 <= int_of_Q (freq_conv (snd lm)) < 1024).
  { intros lm Hlm. apply list_elem_of_In in Hlm.
    destruct (Hfreq lm Hlm) as [H0 H2]. apply int_freq_conv_range; [exact H0|].
    destruct lm as [t [n d]]. unfold Qle, Qlt, upper_frequency in *. simpl in *.
    rewrite Pos2Z.inj_mul in H2. nia. }
  apply List.Forall_forall. intros [h e] Hin.
  apply list_elem_of_In, create_hashes_origin in Hin.
  destruct Hin as (i & j & a & b & Hi & Hj & _ & Htd & Hh & _).
  assert (Ha : a ∈ cm) by (apply list_elem_of_lookup; eauto).
  assert (Hb : b ∈ cm) by (apply list_elem_of_lookup; eauto).
  assert (Hz : 0 <= fst b - fst a < 1024) by lia.
  destruct (hash_fields _ _ _ (Hband a Ha) (Hband b Hb) Hz) as (Hr & _).
  simpl. rewrite Hh. exact Hr.
Qed.

Lemma extracted_hashes_fit_30_bits_witness :
  4 < 46000
  /\ toy_extract [5; 6; 7] 4
     = inr [(0, 0 # 2); (0, 4 # 2); (1, 0 # 2); (1, 4 # 2); (2, 0 # 2); (2, 4 # 2);
            (3, 0 # 2); (3, 4 # 2); (4, 0 # 2); (4, 4 # 2)]
  /\ Forall (fun he => 0 <= fst he < 2 ^ 30)
            (create_hashes
               [(0, 0 # 2); (0, 4 # 2); (1, 0 # 2); (1, 4 # 2); (2, 0 # 2);
                (2, 4 # 2); (3, 0 # 2); (3, 4 # 2); (4, 0 # 2); (4, 4 # 2)]
               (Some 0)).
Proof.
  assert (Hrate : 4 < 46000) by lia.
  assert (Hcm : toy_extract [5; 6; 7] 4
                = inr [(0, 0 # 2); (0, 4 # 2); (1, 0 # 2); (1, 4 # 2); (2, 0 # 2);
                       (2, 4 # 2); (3, 0 # 2); (3, 4 # 2); (4, 0 # 2); (4, 4 # 2)])
    by (vm_compute; reflexivity).
  split; [exact Hrate|]. split; [exact Hcm|].
  exact (extracted_hashes_fit_30_bits 0 toy_spectrum toy_find_peaks toy_argpartition
           [5; 6; 7] 4 _ (Some 0) Hrate Hcm).
Defined.

(* ================================================================= *)
(** * The scripts: building the database and identifying a file *)

Lemma bucket_entry_song corpus h bucket e :
  dict_get h (build_index corpus) = Some bucket -> e ∈ bucket ->
  exists idx cm, corpus !! idx = Some cm /\ snd e = Some (Z.of_nat idx).
Proof.
  intros Hget Hin. apply build_index_bucket in Hget as [-> _].
  apply list_elem_of_In, in_flat_map in Hin as [[idx cm] [Hp He]].
  apply list_elem_of_In, elem_of_enumerate in Hp. apply list_elem_of_In in He.
  exists idx, cm. split; [exact Hp|]. apply (song_hashes_entry (idx, cm) h e He).
Qed.

Section ScriptFacts.
Context {File Sample Mag Prom : Type}.
Variable zero : Sample.
Variable segment_spectrum : list Sample -> list Mag.
Variable find_peaks : list Mag -> list nat * list Prom.
Variable argpartition : list Prom -> Z -> result (list nat).

Local Abbreviation extract_song :=
  (fun song : @Recording File Sample =>
     create_constellation_map zero segment_spectrum find_peaks argpartition
                              (snd (snd song)) (fst (snd song))).
Local Abbreviation build_loop :=
  (fun acc '(idx, song) =>
     let* state := acc in
     build_step zero segment_spectrum find_peaks argpartition state idx song).

Lemma build_from_error (items : list (nat * @Recording File Sample)) e :
  fold_left build_loop items (inl e) = inl e.
Proof. induction items as [|[idx song] items IH]; simpl; [reflexivity|exact IH]. Qed.

Lemma build_from (songs : list (@Recording File Sample)) (n : nat)
    (si si' : dict Z File) (db db' : Database) :
  (forall k, k ∈ dict_keys si -> k < Z.of_nat n) ->
  fold_left build_loop (combine (seq n (length songs)) songs) (inr (si, db))
  = inr (si', db') ->
  exists cms,
    Forall2 (fun song cm => extract_song song = inr cm) songs cms
    /\ si' = si ++ map (fun p => (Z.of_nat (fst p), fst (snd p)))
                       (combine (seq n (length songs)) songs)
    /\ db' = fold_left (fun db0 '(idx, cm) =>
                          add_to_index db0 (create_hashes cm (Some (Z.of_nat idx))))
                       (combine (seq n (length cms)) cms) db.
Proof.
  revert n si db. induction songs as [|[file [rate audio]] songs IH];
    intros n si db Hkeys; simpl.
  - intros [= <- <-]. exists []. rewrite app_nil_r. split; [constructor|]. split; reflexivity.
  - destruct (create_constellation_map zero segment_spectrum find_peaks argpartition
                audio rate) as [e|cm] eqn:Ecm; cbn [bind ret].
    + rewrite build_from_error. discriminate.
    + intros Hfold. apply IH in Hfold as (cms & Hall & -> & ->).
      * exists (cm :: cms). split; [constructor; [exact Ecm|exact Hall]|].
        split; [|reflexivity].
        rewrite dict_set_absent.
        -- rewrite <- app_assoc. reflexivity.
        -- intros Hin. apply Hkeys in Hin. lia.
      * intros k Hk. rewrite dict_keys_set in Hk.
        destruct (dict_mem (Z.of_nat n) si).
        -- apply Hkeys in Hk. lia.
        -- apply elem_of_app in Hk as [Hk|Hk]; [apply Hkeys in Hk; lia|].
           apply list_elem_of_singleton in Hk. lia.
Qed.

Lemma build_database_inv (songs : list (@Recording File Sample))
    (song_index : dict Z File) (database : Database) :
  build_database zero segment_spectrum find_peaks argpartition songs
  = inr (song_index, database) ->
  exists cms,
    Forall2 (fun song cm => extract_song song = inr cm) songs cms
    /\ song_index = map (fun p => (Z.of_nat (fst p), fst (snd p))) (enumerate songs)
    /\ database = build_index cms.
Proof.
  unfold build_database, enumerate. intros Hfold.
  apply build_from in Hfold as (cms & Hall & Hsi & Hdb).
  - exists cms. split; [exact Hall|]. split; [exact Hsi|exact Hdb].
  - intros k Hk. inversion Hk.
Qed.

Lemma catalog_get (songs : list (@Recording File Sample)) (idx : nat) song :
  songs !! idx = Some song ->
  dict_get (Z.of_nat idx)
           (map (fun p : nat * @Recording File Sample => (Z.of_nat (fst p), fst (snd p)))
                (enumerate songs))
  = Some (fst song).
Proof.
  intros Hidx. unfold enumerate.
  assert (Hgen : forall n (l : list (@Recording File Sample)) i,
             l !! i = Some song ->
             dict_get (Z.of_nat (n + i))
                      (map (fun p : nat * @Recording File Sample =>
                              (Z.of_nat (fst p), fst (snd p)))
                           (combine (seq n (length l)) l))
             = Some (fst song)).
  { intros n l. revert n. induction l as [|s l IH]; intros n i Hi; [discriminate|].
    simpl. destruct i as [|i]; simpl in Hi.
    - injection Hi as ->. rewrite Nat.add_0_r.
      destruct (decide (Z.of_nat n = Z.of_nat n)); [reflexivity|contradiction].
    - destruct (decide (Z.of_nat (n + S i) = Z.of_nat n)) as [Heq|_]; [lia|].
      replace (n + S i)%nat with (S n + i)%nat by lia. apply IH, Hi. }
  apply (Hgen 0%nat songs idx Hidx).
Qed.
End ScriptFacts.

Lemma matched_triples_entry (database : Database) (hashes : dict Z HashEntry)
    (song : SongId) :
  matched_triples database hashes song <> [] ->
  exists h bucket e,
    dict_get h database = Some bucket /\ e ∈ bucket /\ snd e = song.
Proof.
  intros Hne.
  destruct (matched_triples database hashes song) as [|m ms] eqn:E; [contradiction|].
  assert (Hin : In m (m :: ms)) by (left; reflexivity). rewrite <- E in Hin.
  unfold matched_triples in Hin.
  apply in_flat_map in Hin as [[h [st s]] [_ Hm]].
  destruct (dict_get h database) as [bucket|] eqn:Eb; [|destruct Hm].
  apply in_flat_map in Hm as [[rt s'] [He Hm]].
  destruct (decide (s' = song)) as [->|]; [|destruct Hm].
  exists h, bucket, (rt, song). split; [exact Eb|].
  split; [apply list_elem_of_In, He|reflexivity].
Qed.

Lemma app_create_hashes_eq cm song_id :
  App.create_hashes cm song_id = create_hashes cm song_id.
Proof.
  unfold App.create_hashes, create_hashes.
  apply fold_left_ext. intros hashes [idx [time freq]].
  apply fold_left_ext. intros acc [other_time other_freq]. reflexivity.
Qed.

Lemma app_score_songs_eq hashes database :
  App.score_songs hashes database = score_songs database hashes.
Proof.
  unfold App.score_songs, score_songs, song_scores, collect_matches.
  cbv zeta. f_equal. f_equal.
  apply fold_left_ext. intros scores [song_index matches]. f_equal.
  unfold max_score, max_score_from, count_offsets. f_equal.
  apply fold_left_ext. intros os [[h st] rt]. reflexivity.
Qed.

Section ScriptTheorems.
Context {File Sample Mag Prom : Type}.
Variable zero : Sample.
Variable segment_spectrum : list Sample -> list Mag.
Variable find_peaks : list Mag -> list nat * list Prom.
Variable argpartition : list Prom -> Z -> result (list nat).

Local Abbreviation extract :=
  (create_constellation_map zero segment_spectrum find_peaks argpartition).
Local Abbreviation build :=
  (@build_database File Sample Mag Prom zero segment_spectrum find_peaks argpartition).

Lemma app_create_constellation_map_eq (audio : list Sample) sample_rate :
  App.create_constellation_map zero segment_spectrum find_peaks argpartition
                               audio sample_rate
  = extract audio sample_rate.
Proof.
  unfold App.create_constellation_map, create_constellation_map, pad_audio,
    pad_amount, collect_landmarks, sample_window_size, sample_window_duration.
  cbv zeta.
  destruct (_ =? 0); cbn [bind raise ret]; [reflexivity|].
  destruct (np_pad zero audio _) as [e|padded]; cbn [bind]; [reflexivity|].
  apply fold_left_ext. intros acc [time_idx window].
  apply bind_ext. intros cm. unfold window_landmarks.
  destruct (find_peaks (segment_spectrum window)) as [peaks prominences].
  unfold num_peaks.
  destruct (argpartition prominences _) as [e|order]; cbn [bind]; [reflexivity|].
  destruct (mapM (index peaks) _) as [e|selected]; cbn [bind]; [reflexivity|].
  destruct (mapM (index _) selected) as [e|found]; cbn [bind]; reflexivity.
Qed.

Lemma build_from_ok (songs : list (@Recording File Sample)) cms (n : nat)
    (si : dict Z File) (db : Database) :
  (forall k, k ∈ dict_keys si -> k < Z.of_nat n) ->
  Forall2 (fun song cm => extract (snd (snd song)) (fst (snd song)) = inr cm) songs cms ->
  fold_left (fun acc '(idx, song) =>
               let* state := acc in
               build_step zero segment_spectrum find_peaks argpartition state idx song)
            (combine (seq n (length songs)) songs) (inr (si, db))
  = inr (si ++ map (fun p => (Z.of_nat (fst p), fst (snd p)))
                   (combine (seq n (length songs)) songs),
         fold_left (fun db0 '(idx, cm) =>
                      add_to_index db0 (create_hashes cm (Some (Z.of_nat idx))))
                   (combine (seq n (length cms)) cms) db).
Proof.
  intros Hkeys Hall. revert n si db Hkeys.
  induction Hall as [|[file [rate audio]] cm songs cms Hcm Hall IH];
    intros n si db Hkeys; simpl.
  - rewrite app_nil_r. reflexivity.
  - simpl in Hcm. rewrite Hcm. cbn [bind ret]. rewrite IH.
    + rewrite dict_set_absent.
      * rewrite <- app_assoc. reflexivity.
      * intros Hin. apply Hkeys in Hin. lia.
    + intros k Hk. rewrite dict_keys_set in Hk.
      destruct (dict_mem (Z.of_nat n) si).
      * apply Hkeys in Hk. lia.
      * apply elem_of_app in Hk as [Hk|Hk]; [apply Hkeys in Hk; lia|].
        apply list_elem_of_singleton in Hk. lia.
Qed.

(** X19.  The build loop succeeds exactly when every recording of the
    corpus is extracted without exception.  It then returns the catalog that
    numbers the files 0, 1, 2, ... in the order given, and the index that
    [build_index] builds from their constellation maps. *)
Theorem build_database_spec (songs : list (@Recording File Sample))
    (song_index : dict Z File) (database : Database) :
  build songs = inr (song_index, database)
  <-> exists cms,
        Forall2 (fun song cm => extract (snd (snd song)) (fst (snd song)) = inr cm)
                songs cms
        /\ song_index = map (fun p => (Z.of_nat (fst p), fst (snd p))) (enumerate songs)
        /\ database = build_index cms.
Proof.
  split.
  - apply build_database_inv.
  - intros (cms & Hall & -> & ->).
    assert (Hkeys : forall k : Z, k ∈ dict_keys (@nil (Z * File)) -> k < Z.of_nat 0)
      by (intros k Hk; inversion Hk).
    exact (build_from_ok songs cms 0 [] [] Hkeys Hall).
Qed.

Lemma built_song_in_catalog (songs : list (@Recording File Sample))
    (song_index : dict Z File) (database : Database) (song_id : SongId) :
  build songs = inr (song_index, database) ->
  (exists h bucket e, dict_get h database = Some bucket /\ e ∈ bucket /\ snd e = song_id) ->
  exists idx song,
    songs !! idx = Some song /\ song_id = Some (Z.of_nat idx)
    /\ catalog_lookup song_index song_id = inr (fst song).
Proof.
  intros Hbuild (h & bucket & e & Hget & Hin & <-).
  apply build_database_inv in Hbuild as (cms & Hall & -> & ->).
  destruct (bucket_entry_song cms h bucket e Hget Hin) as (idx & cm & Hidx & He).
  destruct (Forall2_lookup_r _ _ _ _ _ Hall Hidx) as (song & Hsong & _).
  exists idx, song. split; [exact Hsong|]. split; [exact He|].
  destruct e as [t s]. simpl in He |- *. subst s.
  unfold catalog_lookup.
  pose proof (catalog_get songs idx song Hsong) as Hc.
  match goal with
  | |- match ?x with _ => _ end = _ => change x with
      (dict_get (Z.of_nat idx)
         (map (fun p : nat * @Recording File Sample => (Z.of_nat (fst p), fst (snd p)))
              (enumerate songs)))
  end.
  rewrite Hc. reflexivity.
Qed.

(** X20.  Referential integrity of a built database: the song identifier of
    every entry of every bucket of the index is the position of a recording of
    the corpus, and looking it up in the catalog returns that recording's
    file. *)
Theorem built_index_refers_to_catalog (songs : list (@Recording File Sample))
    (song_index : dict Z File) (database : Database) (h : Z)
    (bucket : list HashEntry) (e : HashEntry) :
  build songs = inr (song_index, database) ->
  dict_get h database = Some bucket ->
  e ∈ bucket ->
  exists idx song,
    songs !! idx = Some song /\ snd e = Some (Z.of_nat idx)
    /\ catalog_lookup song_index (snd e) = inr (fst song).
Proof.
  intros Hbuild Hget Hin. apply (built_song_in_catalog songs song_index database).
  - exact Hbuild.
  - exists h, bucket, e. auto.
Qed.

(** X21.  The two front ends agree except on an empty result: whenever the
    handler of [app.py] shows a file, the loop of [song_recognizer.py] prints
    the same file; whenever either raises in extraction or in the catalog
    lookup, so does the other; and when no song matches, [app.py] reports
    "no match" while [song_recognizer.py] raises [IndexError] on [scores[0]]. *)
Theorem app_identify_vs_identify (song_index : dict Z File) (database : Database)
    (audio_input : list Sample) (sample_rate : Z) :
  match app_identify zero segment_spectrum find_peaks argpartition
                     song_index database audio_input sample_rate with
  | inr (Some (file, match_score)) =>
      identify zero segment_spectrum find_peaks argpartition
               song_index database audio_input sample_rate = inr file
  | inr None =>
      identify zero segment_spectrum find_peaks argpartition
               song_index database audio_input sample_rate = inl (CoreError IndexError)
  | inl e =>
      identify zero segment_spectrum find_peaks argpartition
               song_index database audio_input sample_rate = inl e
  end.
Proof.
  unfold app_identify, identify.
  rewrite app_create_constellation_map_eq.
  destruct (extract audio_input sample_rate) as [e|cm]; simpl; [reflexivity|].
  rewrite app_create_hashes_eq, app_score_songs_eq.
  destruct (score_songs database (create_hashes cm None))
    as [|[song_id [offset match_score]] rest]; simpl; [reflexivity|].
  destruct (catalog_lookup song_index song_id) as [e|file]; reflexivity.
Qed.

(** X22.  Against a built database neither front end raises [KeyError]:
    every song identifier that [score_songs] reports is the position of a
    recording of the corpus and is a key of the catalog. *)
Theorem built_database_results_in_catalog (songs : list (@Recording File Sample))
    (song_index : dict Z File) (database : Database) (hashes : dict Z HashEntry) :
  build songs = inr (song_index, database) ->
  Forall (fun r => exists idx song,
            songs !! idx = Some song /\ fst r = Some (Z.of_nat idx)
            /\ catalog_lookup song_index (fst r) = inr (fst song))
         (score_songs database hashes).
Proof.
  intros Hbuild. apply List.Forall_forall. intros [song_id r] Hin.
  apply list_elem_of_In, elem_of_score_songs in Hin as [Hne _]. simpl.
  apply (built_song_in_catalog songs song_index database song_id Hbuild).
  apply (matched_triples_entry database hashes song_id Hne).
Qed.
End ScriptTheorems.

Lemma shift_time_0 cm : shift_time 0 cm = cm.
Proof.
  unfold shift_time. induction cm as [|[t f] cm IH]; simpl; [reflexivity|].
  rewrite IH, Z.add_0_r. reflexivity.
Qed.

Lemma indexed_recording_member (corpus : list (list Landmark)) (i : nat)
    (cm : list Landmark) (k : Z) :
  corpus !! i = Some cm ->
  create_hashes cm None <> [] ->
  (Some (Z.of_nat i), (- k, Z.of_nat (length (create_hashes (shift_time k cm) None))))
    ∈ score_songs (build_index corpus) (create_hashes (shift_time k cm) None).
Proof.
  intros Hi Hne. rewrite create_hashes_shift_eq.
  apply elem_of_score_songs.
  rewrite (indexed_matched_triples corpus i cm k Hi). split.
  - destruct (create_hashes cm None); [contradiction|discriminate].
  - rewrite shifted_count_offsets by exact Hne.
    rewrite max_score_one_bucket.
    + unfold shift_entries. rewrite length_map. reflexivity.
    + destruct (create_hashes cm None); [contradiction|]. simpl. lia.
Qed.

Lemma top_score_is_query_length (corpus : list (list Landmark)) (i : nat)
    (cm : list Landmark) :
  corpus !! i = Some cm ->
  create_hashes cm None <> [] ->
  exists song_id offset rest,
    score_songs (build_index corpus) (create_hashes cm None)
    = (song_id, (offset, Z.of_nat (length (create_hashes cm None)))) :: rest.
Proof.
  intros Hi Hne.
  pose proof (indexed_recording_member corpus i cm 0 Hi Hne) as Hmem.
  rewrite shift_time_0 in Hmem. simpl in Hmem.
  pose proof (sorted_desc_sorted result_score
                (dict_items (song_scores (collect_matches (build_index corpus)
                                                          (create_hashes cm None)))))
    as Hsorted.
  fold (score_songs (build_index corpus) (create_hashes cm None)) in Hsorted.
  assert (Hle : forall r, r ∈ score_songs (build_index corpus) (create_hashes cm None) ->
                  result_score r <= Z.of_nat (length (create_hashes cm None)))
    by (intros r Hr; apply (score_le_query_length corpus), Hr).
  destruct (score_songs (build_index corpus) (create_hashes cm None))
    as [|[song_id [offset sc]] rest]; [inversion Hmem|].
  exists song_id, offset, rest. do 3 f_equal.
  assert (Hup : sc <= Z.of_nat (length (create_hashes cm None)))
    by (apply (Hle (song_id, (offset, sc))); left).
  assert (Hlow : Z.of_nat (length (create_hashes cm None)) <= sc).
  { apply elem_of_cons in Hmem as [Heq|Hin].
    - injection Heq as _ _ <-. lia.
    - apply StronglySorted_inv in Hsorted as [_ Hall].
      rewrite List.Forall_forall in Hall.
      apply (Hall _ (proj1 (list_elem_of_In _ _) Hin)). }
  lia.
Qed.

Section EndToEnd.
Context {File Sample Mag Prom : Type}.
Variable zero : Sample.
Variable segment_spectrum : list Sample -> list Mag.
Variable find_peaks : list Mag -> list nat * list Prom.
Variable argpartition : list Prom -> Z -> result (list nat).

Lemma indexed_file_top (songs : list (@Recording File Sample))
    (song_index : dict Z File) (database : Database) (i : nat) (file : File)
    (sample_rate : Z) (audio : list Sample) (cm : list Landmark) :
  build_database zero segment_spectrum find_peaks argpartition songs
  = inr (song_index, database) ->
  songs !! i = Some (file, (sample_rate, audio)) ->
  create_constellation_map zero segment_spectrum find_peaks argpartition audio sample_rate
  = inr cm ->
  create_hashes cm None <> [] ->
  exists song_id offset rest j song,
    score_songs database (create_hashes cm None)
    = (song_id, (offset, Z.of_nat (length (create_hashes cm None)))) :: rest
    /\ songs !! j = Some song
    /\ catalog_lookup song_index song_id = inr (fst song).
Proof.
  intros Hbuild Hi Hcm Hne.
  pose proof Hbuild as Hinv.
  apply build_database_inv in Hinv as (cms & Hall & Hsi & Hdb).
  destruct (Forall2_lookup_l _ _ _ _ _ Hall Hi) as (cm' & Hcm' & Hext).
  simpl in Hext. rewrite Hcm in Hext. injection Hext as <-.
  destruct (top_score_is_query_length cms i cm Hcm' Hne)
    as (song_id & offset & rest & Htop).
  rewrite <- Hdb in Htop.
  assert (Hin : (song_id, (offset, Z.of_nat (length (create_hashes cm None))))
                ∈ score_songs database (create_hashes cm None))
    by (rewrite Htop; left).
  apply elem_of_score_songs in Hin as [Hmt _].
  destruct (built_song_in_catalog zero segment_spectrum find_peaks argpartition
              songs song_index database song_id Hbuild
              (matched_triples_entry database _ song_id Hmt))
    as (j & song & Hj & _ & Hlook).
  exists song_id, offset, rest, j, song. auto.
Qed.

(** X23.  End to end: once the database is built, submitting the audio of
    any indexed file whose constellation map yields at least one hash is
    answered by both front ends with a file of the corpus, and the match
    score shown by [app.py] is the number of hashes of the query, the highest
    score possible.  (The file is the submitted one unless another recording
    reaches the same score and was matched first.) *)
Theorem indexed_file_identified (songs : list (@Recording File Sample))
    (song_index : dict Z File) (database : Database) (i : nat) (file : File)
    (sample_rate : Z) (audio : list Sample) (cm : list Landmark) :
  build_database zero segment_spectrum find_peaks argpartition songs
  = inr (song_index, database) ->
  songs !! i = Some (file, (sample_rate, audio)) ->
  create_constellation_map zero segment_spectrum find_peaks argpartition audio sample_rate
  = inr cm ->
  create_hashes cm None <> [] ->
  exists j song,
    songs !! j = Some song
    /\ app_identify zero segment_spectrum find_peaks argpartition
                    song_index database audio sample_rate
       = inr (Some (fst song, Z.of_nat (length (create_hashes cm None))))
    /\ identify zero segment_spectrum find_peaks argpartition
                song_index database audio sample_rate
       = inr (fst song).
Proof.
  intros Hbuild Hi Hcm Hne.
  destruct (indexed_file_top songs song_index database i file sample_rate audio cm
              Hbuild Hi Hcm Hne)
    as (song_id & offset & rest & j & song & Htop & Hj & Hlook).
  exists j, song. split; [exact Hj|]. split.
  - unfold app_identify. rewrite app_create_constellation_map_eq, Hcm. simpl.
    rewrite app_create_hashes_eq, app_score_songs_eq, Htop, Hlook. reflexivity.
  - unfold identify. rewrite Hcm. simpl. rewrite Htop. simpl. exact Hlook.
Qed.
End EndToEnd.

(* ================================================================= *)
(** * The displayed song name *)

Example song_name_ex1 :
  song_name (str "database_songs/Daft-Punk-One.More.Time.wav")
  = str "Daft Punk One.More.Time".
Proof. reflexivity. Qed.

Lemma rfind_range c s : -1 <= rfind c s < Z.of_nat (length s).
Proof.
  induction s as [|x s IH]; simpl rfind; simpl length; [lia|].
  destruct (Z.leb_spec 0 (rfind c s)); [lia|].
  destruct (Ascii.eqb x c); lia.
Qed.

Lemma rfind_after c s : c ∉ drop (Z.to_nat (rfind c s + 1)) s.
Proof.
  induction s as [|x s IH]; simpl rfind.
  - simpl. intros Hin. inversion Hin.
  - pose proof (rfind_range c s) as Hr.
    destruct (Z.leb_spec 0 (rfind c s)) as [Hnn|Hneg].
    + replace (Z.to_nat (rfind c s + 1 + 1)) with (S (Z.to_nat (rfind c s + 1))) by lia.
      exact IH.
    + assert (Hm : rfind c s = -1) by lia. rewrite Hm in IH. simpl in IH.
      destruct (Ascii.eqb_spec x c) as [->|Hne]; simpl.
      * exact IH.
      * intros Hin. apply elem_of_cons in Hin as [->|Hin]; [congruence|contradiction].
Qed.

Lemma rfind_absent c s : c ∉ s -> rfind c s = -1.
Proof.
  induction s as [|x s IH]; intros Hc; simpl; [reflexivity|].
  rewrite IH by (intros Hin; apply Hc; right; exact Hin). simpl.
  destruct (Ascii.eqb_spec x c) as [->|_]; [|reflexivity].
  exfalso. apply Hc. left.
Qed.

Lemma rfind_last c a b : c ∉ b -> rfind c (a ++ c :: b) = Z.of_nat (length a).
Proof.
  intros Hb. induction a as [|x a IH]; simpl.
  - rewrite (rfind_absent c b Hb). simpl. rewrite Ascii.eqb_refl. reflexivity.
  - rewrite IH. destruct (Z.leb_spec 0 (Z.of_nat (length a))); lia.
Qed.

Lemma basename_no_sep p : slash ∉ basename p.
Proof. unfold slash, basename. apply rfind_after. Qed.

Lemma basename_of_file dir name :
  slash ∉ name -> basename (dir ++ slash :: name) = name.
Proof.
  unfold slash. intros Hname. unfold basename. rewrite (rfind_last "/"%char dir name Hname).
  replace (Z.to_nat (Z.of_nat (length dir) + 1)) with (length dir + 1)%nat by lia.
  rewrite drop_app_add'; reflexivity.
Qed.

Lemma splitext_root_prefix p : exists rest, p = fst (splitext p) ++ rest.
Proof.
  unfold splitext. destruct (_ >? _); [|exists []; simpl; rewrite app_nil_r; reflexivity].
  destruct (existsb _ _); simpl.
  - eexists. symmetry. apply take_drop.
  - exists []. rewrite app_nil_r. reflexivity.
Qed.

(** X24.  The displayed name never contains a path separator or a dash: it
    is taken after the last ['/'] and every ['-'] becomes a space. *)
Theorem song_name_charset (path : list ascii) :
  (slash ∉ song_name path) /\ (dash ∉ song_name path).
Proof.
  unfold slash, dash, song_name, replace_dash. split; intros Hin;
    apply list_elem_of_In, in_map_iff in Hin as [ch [Hch Hin]].
  - destruct (Ascii.eqb_spec ch "-") as [_|_]; [discriminate Hch|]. subst ch.
    destruct (splitext_root_prefix (basename path)) as [rest Hrest].
    apply (basename_no_sep path). unfold slash. rewrite Hrest. apply elem_of_app. left.
    apply list_elem_of_In, Hin.
  - destruct (Ascii.eqb_spec ch "-") as [_|Hne]; [discriminate Hch|]. congruence.
Qed.

(** X25.  For a path [dir/stem.ext] whose stem has no separator and is not
    made of dots only, and whose extension has neither separator nor dot (as
    for the files matched by [database_songs/*.wav]), the displayed name is
    the stem with dashes turned into spaces; dots inside the stem are kept. *)
Theorem song_name_of_file (dir stem ext : list ascii) :
  slash ∉ stem -> slash ∉ ext -> dot ∉ ext ->
  (exists ch, ch ∈ stem /\ ch <> dot) ->
  song_name (dir ++ slash :: stem ++ dot :: ext) = replace_dash stem.
Proof.
  intros Hstem Hext Hdot (ch & Hch & Hnd). unfold song_name. f_equal.
  rewrite basename_of_file; unfold slash, dot in *.
  2:{ intros Hin. apply elem_of_app in Hin as [Hin|Hin]; [contradiction|].
      apply elem_of_cons in Hin as [Heq|Hin]; [discriminate Heq|contradiction]. }
  unfold splitext.
  rewrite (rfind_last "." stem ext Hdot).
  rewrite rfind_absent.
  2:{ intros Hin. apply elem_of_app in Hin as [Hin|Hin]; [contradiction|].
      apply elem_of_cons in Hin as [Heq|Hin]; [discriminate Heq|contradiction]. }
  destruct (Z.gtb_spec (Z.of_nat (length stem)) (-1)) as [_|Hle]; [|lia].
  rewrite Nat2Z.id. unfold slice. change (Z.to_nat (-1 + 1)) with 0%nat.
  rewrite Nat.sub_0_r. change (drop 0 (stem ++ "."%char :: ext)) with (stem ++ "."%char :: ext).
  rewrite !take_app_length.
  assert (Hex : existsb (fun c => negb (Ascii.eqb c ".")) stem = true).
  { apply existsb_exists. exists ch. split; [apply list_elem_of_In, Hch|].
    apply negb_true_iff. destruct (Ascii.eqb_spec ch "."); [contradiction|reflexivity]. }
  rewrite Hex. reflexivity.
Qed.

Lemma song_name_of_file_witness :
  (slash ∉ str "Daft-Punk-One.More.Time")
  /\ (slash ∉ str "wav") /\ (dot ∉ str "wav")
  /\ (exists ch, ch ∈ str "Daft-Punk-One.More.Time" /\ ch <> dot)
  /\ song_name (str "database_songs" ++ slash :: str "Daft-Punk-One.More.Time"
                ++ dot :: str "wav")
     = replace_dash (str "Daft-Punk-One.More.Time").
Proof.
  assert (H1 : slash ∉ str "Daft-Punk-One.More.Time").
  { intros Hin. apply list_elem_of_In in Hin. vm_compute in Hin.
    repeat (destruct Hin as [Hin|Hin]; [discriminate Hin|]). exact Hin. }
  assert (H2 : slash ∉ str "wav").
  { intros Hin. apply list_elem_of_In in Hin. vm_compute in Hin.
    repeat (destruct Hin as [Hin|Hin]; [discriminate Hin|]). exact Hin. }
  assert (H3 : dot ∉ str "wav").
  { intros Hin. apply list_elem_of_In in Hin. vm_compute in Hin.
    repeat (destruct Hin as [Hin|Hin]; [discriminate Hin|]). exact Hin. }
  assert (H4 : exists ch, ch ∈ str "Daft-Punk-One.More.Time" /\ ch <> dot).
  { exists "D"%char. split; [left|discriminate]. }
  repeat (split; [assumption|]).
  exact (song_name_of_file (str "database_songs") (str "Daft-Punk-One.More.Time")
           (str "wav") H1 H2 H3 H4).
Defined.

(* ================================================================= *)
(** * The scripts on the toy corpus *)

Lemma toy_build_eq :
  build_database 0 toy_spectrum toy_find_peaks toy_argpartition songs_toy
  = inr (toy_catalog, toy_database).
Proof. vm_compute. reflexivity. Qed.

Lemma built_index_refers_to_catalog_witness :
  build_database 0 toy_spectrum toy_find_peaks toy_argpartition songs_toy
  = inr (toy_catalog, toy_database)
  /\ dict_get 2097152 toy_database = Some [(2, Some 0); (4, Some 1)]
  /\ (4, Some 1) ∈ [(2, Some 0); (4, Some 1)]
  /\ exists idx song,
       songs_toy !! idx = Some song /\ Some 1 = Some (Z.of_nat idx)
       /\ catalog_lookup toy_catalog (Some 1) = inr (fst song).
Proof.
  assert (Hget : dict_get 2097152 toy_database = Some [(2, Some 0); (4, Some 1)])
    by (vm_compute; reflexivity).
  assert (Hin : (4, Some 1) ∈ [(2, Some 0); (4, Some 1)]) by (right; left).
  split; [exact toy_build_eq|]. split; [exact Hget|]. split; [exact Hin|].
  exact (built_index_refers_to_catalog 0 toy_spectrum toy_find_peaks toy_argpartition
           songs_toy toy_catalog toy_database 2097152 _ (4, Some 1)
           toy_build_eq Hget Hin).
Defined.

Lemma built_database_results_in_catalog_witness :
  build_database 0 toy_spectrum toy_find_peaks toy_argpartition songs_toy
  = inr (toy_catalog, toy_database)
  /\ Forall (fun r => exists idx song,
               songs_toy !! idx = Some song /\ fst r = Some (Z.of_nat idx)
               /\ catalog_lookup toy_catalog (fst r) = inr (fst song))
            (score_songs toy_database (create_hashes cm_toy None)).
Proof.
  split; [exact toy_build_eq|].
  exact (built_database_results_in_catalog 0 toy_spectrum toy_find_peaks
           toy_argpartition songs_toy toy_catalog toy_database
           (create_hashes cm_toy None) toy_build_eq).
Defined.

Lemma indexed_file_identified_witness :
  build_database 0 toy_spectrum toy_find_peaks toy_argpartition songs_toy
  = inr (toy_catalog, toy_database)
  /\ songs_toy !! 0%nat
     = Some (str "database_songs/Daft-Punk-One.More.Time.wav", (4, [5; 6; 7]))
  /\ toy_extract [5; 6; 7] 4 = inr cm_toy
  /\ create_hashes cm_toy None <> []
  /\ exists j song,
       songs_toy !! j = Some song
       /\ app_identify 0 toy_spectrum toy_find_peaks toy_argpartition
                       toy_catalog toy_database [5; 6; 7] 4
          = inr (Some (fst song, Z.of_nat (length (create_hashes cm_toy None))))
       /\ identify 0 toy_spectrum toy_find_peaks toy_argpartition
                   toy_catalog toy_database [5; 6; 7] 4
          = inr (fst song).
Proof.
  assert (Hi : songs_toy !! 0%nat
               = Some (str "database_songs/Daft-Punk-One.More.Time.wav", (4, [5; 6; 7])))
    by reflexivity.
  assert (Hcm : toy_extract [5; 6; 7] 4 = inr cm_toy) by (vm_compute; reflexivity).
  assert (Hne : create_hashes cm_toy None <> []) by (vm_compute; discriminate).
  split; [exact toy_build_eq|]. split; [exact Hi|]. split; [exact Hcm|].
  split; [exact Hne|].
  exact (indexed_file_identified 0 toy_spectrum toy_find_peaks toy_argpartition
           songs_toy toy_catalog toy_database 0 _ 4 [5; 6; 7] cm_toy
           toy_build_eq Hi Hcm Hne).
Defined.

Example toy_identified_name :
  app_identify 0 toy_spectrum toy_find_peaks toy_argpartition
               toy_catalog toy_database [5; 6; 7] 4
  = inr (Some (str "database_songs/Daft-Punk-One.More.Time.wav", 3))
  /\ song_name (str "database_songs/Daft-Punk-One.More.Time.wav")
     = str "Daft Punk One.More.Time".
Proof. vm_compute. split; reflexivity. Qed.
